(** * Adversarial attacks and Grad-CAM of [3_adv_interp_attention.ipynb]

    A shallow embedding of the three classes of the notebook,
    [FGSMAttack], [BIMAttack] and [GradCAM], of the part of [CNN.forward]
    they depend on, and of the two functions that measure an accuracy,
    [get_accuracy] and [get_adversarial_accuracy].  ([adversarial_training]
    is left out: its steps are those of the optimizer and of a backward
    pass through two graphs at once, which the notebook does not define.)

    - Tensor elements are rational numbers ([Q]); [==] is the equality of
      rational numbers.  The classes are given with the exact arithmetic; the
      two attacks are given a second time, in [InArithmetic], for any
      arithmetic of the elements, of which [float32] rounds every operation
      to a 32-bit float, as torch does on the tensors of the notebook.  What
      holds of the code up to rounding only is stated of the attacks in
      [float32].  The one place where the code could produce a non-finite
      value (a division) is modelled by the outcome [NotFinite].
    - The tensors that the code binds to a name and mutates or returns are
      objects of a store: [clone] and the final operations allocate a fresh
      object, [backward] writes the [grad] field of a leaf in place.  The
      temporaries in between are values.
    - Automatic differentiation, the layers of the classifier and the random
      generator of [nn.Dropout] belong to the library: they are the fields of
      the interface [Classifier]. *)

From Stdlib Require Import QArith Qminmax Qround Qabs Qpower Lqa Lia ZArith.
From stdpp Require Import gmap list.

Local Open Scope Q_scope.

(** ** Scalars *)

(** [torch.sign]: -1, 0 or 1. *)
Definition sign (v : Q) : Q :=
  match v ?= 0 with
  | Gt => 1
  | Lt => -1
  | Eq => 0
  end.

(** [torch.clamp(v, lo, hi)] is [min(max(v, lo), hi)]; when [lo > hi] every
    element becomes [hi]. *)
Definition clamp (v lo hi : Q) : Q := Qmin (Qmax v lo) hi.

(** [F.relu]. *)
Definition relu (v : Q) : Q := Qmax v 0.

(** ** Tensors of rank four: (batch, channels, height, width) *)

Definition plane := list (list Q).
Definition tensor := list (list plane).

Definition tmap (f : Q → Q) (t : tensor) : tensor :=
  fmap (M:=list) (fmap (M:=list) (fmap (M:=list) (fmap (M:=list) f))) t.

Definition tzip (f : Q → Q → Q) (a b : tensor) : tensor :=
  zip_with (zip_with (zip_with (zip_with f))) a b.

(** Element-wise predicates and relations. *)
Definition tall (P : Q → Prop) (t : tensor) : Prop :=
  Forall (Forall (Forall (Forall P))) t.

Definition tall2 (R : Q → Q → Prop) (a b : tensor) : Prop :=
  Forall2 (Forall2 (Forall2 (Forall2 R))) a b.

Definition same_shape : tensor → tensor → Prop := tall2 (λ _ _, True).

(** Equality of tensors as arrays of rational numbers. *)
Definition teq : tensor → tensor → Prop := tall2 Qeq.

Definition in_unit_range (t : tensor) : Prop := tall (λ v, 0 <= v <= 1) t.

Definition is_zero (v : Q) : Prop := v == 0.

(** [|a - b| <= eps] element-wise. *)
Definition within (eps : Q) (a b : tensor) : Prop :=
  tall2 (λ u v, Qabs (u - v) <= eps) a b.

(** Boolean version of [tall2], for evaluation on concrete tensors. *)
Fixpoint all2b {A B} (r : A → B → bool) (l : list A) (k : list B) : bool :=
  match l, k with
  | [], [] => true
  | x :: l, y :: k => r x y && all2b r l k
  | _, _ => false
  end.

Definition tall2b (r : Q → Q → bool) (a b : tensor) : bool :=
  all2b (all2b (all2b (all2b r))) a b.

Definition teqb : tensor → tensor → bool := tall2b Qeq_bool.

(** The torch operations of the attacks, on values.  (The operands of the
    binary operations of the attacks have one shape: a tensor and its
    gradient, the input and its clone.) *)
Definition t_sign (t : tensor) : tensor := tmap sign t.
Definition t_scale (c : Q) (t : tensor) : tensor := tmap (Qmult c) t.
Definition t_add (a b : tensor) : tensor := tzip Qplus a b.
Definition t_sub (a b : tensor) : tensor := tzip Qminus a b.
Definition t_clamp (lo hi : Q) (t : tensor) : tensor :=
  tmap (λ v, clamp v lo hi) t.
Definition t_relu (t : tensor) : tensor := tmap relu t.

(** [t.shape[2:]], the spatial size. *)
Definition spatial_size (t : tensor) : nat * nat :=
  let p := hd [] (hd [] t) in (length p, length (hd [] p)).

Definition flatten (t : tensor) : list Q := concat (concat (concat t)).

(** ** The classifier and automatic differentiation *)

(** The scalar that is back-propagated: the loss of the whole batch against
    the labels, or the score [output[0, c]] of one class. *)
Inductive objective :=
  | Loss (y : list Z)
  | Score (c : nat).

(** What the notebook asks of [torch]: the parameters of an [nn.Module] and
    their gradient buffers, the generator that [nn.Dropout] draws its mask
    from in training mode ([None] as mask: evaluation mode, the layer is the
    identity), the forward pass and the gradients computed by [backward]. *)
Record Classifier := {
  params : Type;
  pgrads : Type;
  accumulate : pgrads → pgrads → pgrads;
  generator : Type;
  mask : Type;
  draw_mask : generator → mask * generator;
  layer : Type;
  (* [self.conv(x)], the value kept in [self.last_feature_map] *)
  feature_map : params → option mask → tensor → tensor;
  (* [self.head(self.pool(...))]: one row of scores per image *)
  logits : params → option mask → tensor → list (list Q);
  (* gradients of the objective with respect to the input, the parameters
     and the feature map *)
  d_input : params → option mask → tensor → objective → tensor;
  d_params : params → option mask → tensor → objective → pgrads;
  d_feature : params → option mask → tensor → objective → tensor;
  (* the output of a sub-module and the gradient with respect to it; [None]
     when the forward pass does not execute the sub-module *)
  layer_output : params → option mask → tensor → layer → option tensor;
  d_layer : params → option mask → tensor → objective → layer → option tensor;
}.

(** The gradient that autograd stores in [t.grad] has the shape of [t]. *)
Definition grad_shaped (C : Classifier) : Prop :=
  ∀ θ m x o, same_shape x (d_input C θ m x o).

(** ** Objects and the store *)

Definition loc := positive.

(** A tensor object.  [grad_fn]: the tensor is the result of a
    differentiable operation (not a leaf). *)
Record tobj := Tensor {
  data : tensor;
  grad : option tensor;
  requires_grad : bool;
  grad_fn : bool;
}.

(** A [GradCAM] instance; its two hooks are registered on [target_layer] by
    the constructor and never removed. *)
Record gradcam (C : Classifier) := Cam {
  target_layer : layer C;
  gradients : option tensor;
  activations : option tensor;
}.
Arguments Cam {C}.
Arguments target_layer {C}.
Arguments gradients {C}.
Arguments activations {C}.

(** The [CNN] instance. *)
Record module_state (C : Classifier) := Module {
  parameters : params C;
  param_grads : option (pgrads C);
  training : bool;
  last_feature_map : option tobj;
}.
Arguments Module {C}.
Arguments parameters {C}.
Arguments param_grads {C}.
Arguments training {C}.
Arguments last_feature_map {C}.

Record world (C : Classifier) := World {
  tensors : gmap loc tobj;
  labels : gmap loc (list Z);
  cams : gmap loc (gradcam C);
  model : module_state C;
  default_generator : generator C;
}.
Arguments World {C}.
Arguments tensors {C}.
Arguments labels {C}.
Arguments cams {C}.
Arguments model {C}.
Arguments default_generator {C}.

Inductive exn :=
  | NameError        (* a reference to no object *)
  | AttributeError   (* an attribute of [None] *)
  | TypeError        (* an operand that is [None] *)
  | IndexError
  | RuntimeError.

(** A call returns, raises, or yields a result with a non-finite element
    (the division of the floating-point code by zero). *)
Inductive outcome (A : Type) :=
  | Ok (a : A)
  | Raise (e : exn)
  | NotFinite.
Arguments Ok {A}.
Arguments Raise {A}.
Arguments NotFinite {A}.

Definition M (C : Classifier) (A : Type) : Type := world C → outcome (A * world C).

Definition ret {C A} (a : A) : M C A := λ w, Ok (a, w).

Definition bind {C A B} (c : M C A) (k : A → M C B) : M C B :=
  λ w, match c w with
       | Ok (a, w') => k a w'
       | Raise e => Raise e
       | NotFinite => NotFinite
       end.

Definition raise {C A} (e : exn) : M C A := λ _, Raise e.

Notation "'let!' x ':=' c 'in' k" := (bind c (λ x, k))
  (at level 10, x name, c at level 100, k at level 200).

(** Iterating a loop body [n] times, threading the loop variable. *)
Fixpoint repeat_m {C A} (n : nat) (body : A → M C A) (a : A) : M C A :=
  match n with
  | O => ret a
  | S n => let! a' := body a in repeat_m n body a'
  end.

(** ** The torch primitives used by the notebook *)

Section Torch.
Context {C : Classifier}.

Definition set_tensors (h : gmap loc tobj) (w : world C) : world C :=
  World h (labels w) (cams w) (model w) (default_generator w).

Definition set_model (md : module_state C) (w : world C) : world C :=
  World (tensors w) (labels w) (cams w) md (default_generator w).

(** A new tensor object. *)
Definition alloc (o : tobj) : M C loc := λ w,
  let l := fresh (dom (tensors w)) in
  Ok (l, set_tensors (<[l:=o]> (tensors w)) w).

Definition get (l : loc) : M C tobj := λ w,
  match tensors w !! l with
  | Some o => Ok (o, w)
  | None => Raise NameError
  end.

Definition get_labels (l : loc) : M C (list Z) := λ w,
  match labels w !! l with
  | Some y => Ok (y, w)
  | None => Raise NameError
  end.

(** [t.clone().detach()]: a new leaf with the same elements. *)
Definition clone_detach (l : loc) : M C loc :=
  let! o := get l in
  alloc (Tensor (data o) None false false).

(** [t.requires_grad_(True)] and [t.requires_grad = True]: the flag of the
    object itself is set. *)
Definition set_requires_grad (l : loc) : M C loc :=
  let! o := get l in
  λ w, Ok (l, set_tensors (<[l:=Tensor (data o) (grad o) true (grad_fn o)]> (tensors w)) w).

(** The graph that a forward pass records: the parameters and the dropout
    mask it ran with, and its input. *)
Record graph := Graph {
  g_params : params C;
  g_mask : option (mask C);
  g_input : loc;
  g_value : tensor;
}.

Record scalar := Scalar {
  s_graph : graph;
  s_objective : objective;
}.

(** The forward hook of [GradCAM._register_hooks]:
    [self.activations = output.detach()]. *)
Definition forward_hook (θ : params C) (m : option (mask C)) (x : tensor)
    (cam : gradcam C) : gradcam C :=
  match layer_output C θ m x (target_layer cam) with
  | Some a => Cam (target_layer cam) (gradients cam) (Some a)
  | None => cam
  end.

(** The backward hook: [self.gradients = grad_out[0].detach()]. *)
Definition backward_hook (θ : params C) (m : option (mask C)) (x : tensor)
    (o : objective) (cam : gradcam C) : gradcam C :=
  match d_layer C θ m x o (target_layer cam) with
  | Some g => Cam (target_layer cam) (Some g) (activations cam)
  | None => cam
  end.

(** [self.model(x)], that is [CNN.forward]: in training mode [nn.Dropout]
    draws a mask from the default generator; the output of [self.conv] is
    stored in [self.last_feature_map] (with [retain_grad()], the parameters
    requiring gradients); the forward hooks of the registered [GradCAM]
    instances run. *)
Definition call_model (x : loc) : M C graph :=
  let! xo := get x in
  λ w,
    let md := model w in
    let '(m, gen) :=
      if training md
      then let '(m, gen) := draw_mask C (default_generator w) in (Some m, gen)
      else (None, default_generator w) in
    let θ := parameters md in
    let fm := Tensor (feature_map C θ m (data xo)) None true true in
    Ok (Graph θ m x (data xo),
        World (tensors w) (labels w)
              (forward_hook θ m (data xo) <$> cams w)
              (Module θ (param_grads md) (training md) (Some fm))
              gen).

(** [self.loss_fn(outputs, y)]. *)
Definition loss_fn (outputs : graph) (y : loc) : M C scalar :=
  let! yv := get_labels y in
  ret (Scalar outputs (Loss yv)).

(** Python indexing of a sequence of length [n] with [i]: negative indices
    count from the end. *)
Definition py_index (n : nat) (i : Z) : option nat :=
  if decide (0 ≤ i < Z.of_nat n)%Z then Some (Z.to_nat i)
  else if decide (- Z.of_nat n ≤ i < 0)%Z then Some (Z.to_nat (i + Z.of_nat n))
  else None.

(** [output[0, target_class]]. *)
Definition select_score (output : graph) (target_class : Z) : M C scalar :=
  match logits C (g_params output) (g_mask output) (g_value output) with
  | [] => raise IndexError
  | row :: _ =>
      match py_index (length row) target_class with
      | Some c => ret (Scalar output (Score c))
      | None => raise IndexError
      end
  end.

(** [self.model.zero_grad()]. *)
Definition zero_grad : M C unit := λ w,
  let md := model w in
  Ok (tt, set_model (Module (parameters md) None (training md) (last_feature_map md)) w).

(** Accumulation into a [grad] buffer. *)
Definition acc_grad (old : option tensor) (g : tensor) : option tensor :=
  match old with
  | None => Some g
  | Some g0 => Some (t_add g0 g)
  end.

Definition acc_pgrad (old : option (pgrads C)) (g : pgrads C) : option (pgrads C) :=
  match old with
  | None => Some g
  | Some g0 => Some (accumulate C g0 g)
  end.

(** [s.backward()]: the gradient of [s] is accumulated into the [grad] of
    the input when it is a leaf that requires gradients, into the gradient
    buffers of the parameters and into the retained gradient of
    [last_feature_map]; the backward hooks run.  (The gradient that flows
    on from an input that is not a leaf to the leaves it was computed from
    is not modelled.) *)
Definition backward (s : scalar) : M C unit := λ w,
  let gr := s_graph s in
  let θ := g_params gr in
  let m := g_mask gr in
  let x := g_value gr in
  let o := s_objective s in
  let h :=
    match tensors w !! g_input gr with
    | Some xo =>
        if requires_grad xo && negb (grad_fn xo)
        then <[g_input gr := Tensor (data xo) (acc_grad (grad xo) (d_input C θ m x o))
                                    (requires_grad xo) (grad_fn xo)]> (tensors w)
        else tensors w
    | None => tensors w
    end in
  let md := model w in
  let fm :=
    match last_feature_map md with
    | Some f => Some (Tensor (data f) (acc_grad (grad f) (d_feature C θ m x o))
                             (requires_grad f) (grad_fn f))
    | None => None
    end in
  Ok (tt, World h (labels w)
                (backward_hook θ m x o <$> cams w)
                (Module (parameters md) (acc_pgrad (param_grads md) (d_params C θ m x o))
                        (training md) fm)
                (default_generator w)).

(** [t.grad.data]; [t.grad] is [None] when no gradient reached [t]. *)
Definition get_grad (l : loc) : M C tensor :=
  let! o := get l in
  match grad o with
  | Some g => ret g
  | None => raise AttributeError
  end.
End Torch.

(** ** [class FGSMAttack] *)

Module FGSMAttack.

(** The attributes of an instance; [self.model] and [self.loss_fn] are the
    classifier [C]. *)
Record t := New { epsilon : Q }.

Section Methods.
Context {C : Classifier}.

Definition perturb (self : t) (x y : loc) : M C loc :=
  (* x_adv = x.clone().detach().requires_grad_(True) *)
  let! x_adv := clone_detach x in
  let! x_adv := set_requires_grad x_adv in
  (* outputs = self.model(x_adv) *)
  let! outputs := call_model x_adv in
  (* loss = self.loss_fn(outputs, y) *)
  let! loss := loss_fn outputs y in
  (* self.model.zero_grad() *)
  let! _ := zero_grad in
  (* loss.backward() *)
  let! _ := backward loss in
  (* grad_sign = x_adv.grad.data.sign() *)
  let! g := get_grad x_adv in
  let grad_sign := t_sign g in
  (* x_adv = x_adv + self.epsilon * grad_sign *)
  let! xo := get x_adv in
  let x_adv' := t_add (data xo) (t_scale (epsilon self) grad_sign) in
  (* x_adv = torch.clamp(x_adv, 0, 1) *)
  alloc (Tensor (t_clamp 0 1 x_adv') None true true).

End Methods.
End FGSMAttack.

(** ** [class BIMAttack] *)

Module BIMAttack.

Record t := New { epsilon : Q; alpha : Q; iters : Z }.

Section Methods.
Context {C : Classifier}.

(** The body of the loop; [x_adv] is the loop variable. *)
Definition step (self : t) (x y : loc) (x_adv : loc) : M C loc :=
  (* x_adv.requires_grad = True *)
  let! x_adv := set_requires_grad x_adv in
  let! outputs := call_model x_adv in
  let! loss := loss_fn outputs y in
  let! _ := zero_grad in
  let! _ := backward loss in
  (* grad_sign = x_adv.grad.data.sign() *)
  let! g := get_grad x_adv in
  let grad_sign := t_sign g in
  (* x_adv = x_adv + self.alpha * grad_sign *)
  let! xa := get x_adv in
  let x_adv' := t_add (data xa) (t_scale (alpha self) grad_sign) in
  (* perturbation = torch.clamp(x_adv - x, min=-self.epsilon, max=self.epsilon) *)
  let! xo := get x in
  let perturbation :=
    t_clamp (- epsilon self) (epsilon self) (t_sub x_adv' (data xo)) in
  (* x_adv = torch.clamp(x + perturbation, 0, 1).detach() *)
  alloc (Tensor (t_clamp 0 1 (t_add (data xo) perturbation)) None false false).

(** [for _ in range(self.iters)]: no iteration when [iters <= 0]. *)
Definition perturb (self : t) (x y : loc) : M C loc :=
  let! x_adv := clone_detach x in
  repeat_m (Z.to_nat (iters self)) (step self x y) x_adv.

End Methods.
End BIMAttack.

(** ** The arithmetic of the elements *)

(** The elements of the tensors of the notebook are 32-bit floats
    ([torch.float32]): 24 significant bits, exponents down to that of the
    subnormal numbers, whose unit is [2^-149].  A float is the rational
    number it stands for.  The infinities and NaN are not numbers of this
    model: the statements keep the operands within [max_value], where no
    operation overflows. *)
Module Float32.

(** The exponent of [q > 0]: the [e] with [2^e ≤ q < 2^(e+1)]. *)
Definition ilog2 (q : Q) : Z :=
  let e := (Z.log2 (Qnum q) - Z.log2 (Zpos (Qden q)))%Z in
  if Qle_bool (2 ^ e) q then e else (e - 1)%Z.

(** The nearest integer, the even one of two that are as near. *)
Definition rne (m : Q) : Z :=
  let f := Qfloor m in
  match Qcompare (m - inject_Z f) (1 # 2) with
  | Lt => f
  | Gt => (f + 1)%Z
  | Eq => if Z.even f then f else (f + 1)%Z
  end.

(** The exponent of the unit in the last place of the floats near
    [q > 0]. *)
Definition ulp_exponent (q : Q) : Z := Z.max (ilog2 q - 23) (-149).

Definition round_pos (q : Q) : Q :=
  let ex := ulp_exponent q in
  inject_Z (rne (q / 2 ^ ex)) * 2 ^ ex.

(** The float nearest to [v], the one with an even last bit of two that are
    as near: the result of an operation whose exact value is [v]. *)
Definition round (v : Q) : Q :=
  let q := Qred v in
  match Qnum q with
  | Z0 => 0
  | Zpos _ => round_pos q
  | Zneg _ => - round_pos (- q)
  end.

(** The largest float. *)
Definition max_value : Q := (2 - 2 ^ (-23)) * 2 ^ 127.

Definition is_float (v : Q) : Prop := round v == v.

End Float32.

(** The operations on the elements that the attacks use: the conversion of
    a Python number to an element, and the sum, the difference and the
    product of two elements. *)
Record arithmetic := Arithmetic {
  of_number : Q → Q;
  add : Q → Q → Q;
  sub : Q → Q → Q;
  mul : Q → Q → Q;
}.

(** The arithmetic of the rational numbers, and that of the notebook's
    tensors, whose [dtype] is [torch.float32]: every operation is rounded. *)
Definition exact : arithmetic := Arithmetic (λ c, c) Qplus Qminus Qmult.

Definition float32 : arithmetic :=
  Arithmetic Float32.round
             (λ u v, Float32.round (u + v))
             (λ u v, Float32.round (u - v))
             (λ u v, Float32.round (u * v)).

(** ** The attacks in a given arithmetic *)

Module InArithmetic.
Section Methods.
Context {C : Classifier} (A : arithmetic).

(** [c * t], [a + b], [a - b] and [torch.clamp(t, lo, hi)] for tensors [t],
    [a], [b] and Python numbers [c], [lo], [hi]. *)
Definition t_scale (c : Q) (t : tensor) : tensor := tmap (mul A (of_number A c)) t.
Definition t_add (a b : tensor) : tensor := tzip (add A) a b.
Definition t_sub (a b : tensor) : tensor := tzip (sub A) a b.
Definition t_clamp (lo hi : Q) (t : tensor) : tensor :=
  tmap (λ v, clamp v (of_number A lo) (of_number A hi)) t.

(** [FGSMAttack.perturb]. *)
Definition FGSM_perturb (self : FGSMAttack.t) (x y : loc) : M C loc :=
  (* x_adv = x.clone().detach().requires_grad_(True) *)
  let! x_adv := clone_detach x in
  let! x_adv := set_requires_grad x_adv in
  (* outputs = self.model(x_adv) *)
  let! outputs := call_model x_adv in
  (* loss = self.loss_fn(outputs, y) *)
  let! loss := loss_fn outputs y in
  (* self.model.zero_grad() *)
  let! _ := zero_grad in
  (* loss.backward() *)
  let! _ := backward loss in
  (* grad_sign = x_adv.grad.data.sign() *)
  let! g := get_grad x_adv in
  let grad_sign := t_sign g in
  (* x_adv = x_adv + self.epsilon * grad_sign *)
  let! xo := get x_adv in
  let x_adv' := t_add (data xo) (t_scale (FGSMAttack.epsilon self) grad_sign) in
  (* x_adv = torch.clamp(x_adv, 0, 1) *)
  alloc (Tensor (t_clamp 0 1 x_adv') None true true).

(** The body of the loop of [BIMAttack.perturb]. *)
Definition BIM_step (self : BIMAttack.t) (x y : loc) (x_adv : loc) : M C loc :=
  (* x_adv.requires_grad = True *)
  let! x_adv := set_requires_grad x_adv in
  let! outputs := call_model x_adv in
  let! loss := loss_fn outputs y in
  let! _ := zero_grad in
  let! _ := backward loss in
  (* grad_sign = x_adv.grad.data.sign() *)
  let! g := get_grad x_adv in
  let grad_sign := t_sign g in
  (* x_adv = x_adv + self.alpha * grad_sign *)
  let! xa := get x_adv in
  let x_adv' := t_add (data xa) (t_scale (BIMAttack.alpha self) grad_sign) in
  (* perturbation = torch.clamp(x_adv - x, min=-self.epsilon, max=self.epsilon) *)
  let! xo := get x in
  let perturbation :=
    t_clamp (- BIMAttack.epsilon self) (BIMAttack.epsilon self)
            (t_sub x_adv' (data xo)) in
  (* x_adv = torch.clamp(x + perturbation, 0, 1).detach() *)
  alloc (Tensor (t_clamp 0 1 (t_add (data xo) perturbation)) None false false).

(** [BIMAttack.perturb], and its first [k] iterations. *)
Definition BIM_iterations (self : BIMAttack.t) (x y : loc) (k : nat) : M C loc :=
  let! x_adv := clone_detach x in
  repeat_m k (BIM_step self x y) x_adv.

Definition BIM_perturb (self : BIMAttack.t) (x y : loc) : M C loc :=
  BIM_iterations self x y (Z.to_nat (BIMAttack.iters self)).

(** The elements that [FGSM_perturb] computes from the input and its
    gradient, and those that one iteration of [BIM_perturb] computes from
    the input, the current [x_adv] and its gradient. *)
Definition FGSM_value (self : FGSMAttack.t) (x g : tensor) : tensor :=
  t_clamp 0 1 (t_add x (t_scale (FGSMAttack.epsilon self) (t_sign g))).

Definition BIM_value (self : BIMAttack.t) (x x_adv g : tensor) : tensor :=
  t_clamp 0 1
    (t_add x
       (t_clamp (- BIMAttack.epsilon self) (BIMAttack.epsilon self)
          (t_sub (t_add x_adv (t_scale (BIMAttack.alpha self) (t_sign g))) x))).

End Methods.
End InArithmetic.

(** ** [class GradCAM] *)

Module GradCAM.

(** *** The tensor operations of [generate] *)

Definition qsum (l : list Q) : Q := foldr Qplus 0 l.

(** The mean of one (height, width) plane.  (The mean of an empty plane,
    NaN in torch, is never used: the activation of the same layer then has
    empty planes as well, and [interpolate] refuses them.) *)
Definition plane_mean (p : plane) : Q :=
  qsum (concat p) / inject_Z (Z.of_nat (length (concat p))).

(** [g.mean(dim=[2, 3], keepdim=True)]: shape (B, C, 1, 1). *)
Definition t_mean_hw (g : tensor) : tensor :=
  fmap (M:=list) (fmap (M:=list) (λ p : plane, [[plane_mean p]])) g.

(** The sizes of the four dimensions of a tensor. *)
Definition shape (t : tensor) : list nat :=
  let img := hd [] t in
  let p := hd [] img in
  [length t; length img; length p; length (hd [] p)].

(** Two shapes broadcast when, dimension by dimension, the sizes are equal
    or one of them is one; torch raises [RuntimeError] on operands whose
    shapes do not. *)
Definition broadcastable (a b : tensor) : bool :=
  forallb (λ '(m, n), Nat.eqb m n || Nat.eqb m 1 || Nat.eqb n 1)
          (zip (shape a) (shape b)).

(** Broadcasting along one dimension: a dimension of size one is repeated.
    (Used on sizes that broadcast only: [generate] checks [broadcastable]
    before it multiplies.) *)
Definition bzip {A B D} (f : A → B → D) (la : list A) (lb : list B) : list D :=
  match la, lb with
  | [a], _ => fmap (f a) lb
  | _, [b] => fmap (λ a, f a b) la
  | _, _ => zip_with f la lb
  end.

(** [a * b] with broadcasting. *)
Definition t_bmul (a b : tensor) : tensor :=
  bzip (bzip (bzip (bzip Qmult))) a b.

Definition plane_add (p q : plane) : plane := zip_with (zip_with Qplus) p q.

Definition sum_planes (channels : list plane) : plane :=
  match channels with
  | [] => []
  | p :: ps => foldl plane_add p ps
  end.

(** [torch.sum(t, dim=1, keepdim=True)]: shape (B, 1, H, W). *)
Definition t_sum_channels (t : tensor) : tensor :=
  fmap (M:=list) (λ channels, [sum_planes channels]) t.

(** Bilinear resampling with [align_corners=False]: the source coordinate of
    output index [o], its two neighbours and their weights. *)
Definition source_index (in_size out_size o : nat) : Q :=
  Qmax 0 (inject_Z (Z.of_nat in_size) / inject_Z (Z.of_nat out_size)
          * (inject_Z (Z.of_nat o) + 0.5) - 0.5).

Definition taps (in_size out_size o : nat) : nat * nat * Q * Q :=
  let s := source_index in_size out_size o in
  let i0 := Nat.min (Z.to_nat (Qfloor s)) (in_size - 1) in
  let i1 := if Nat.ltb i0 (in_size - 1) then (i0 + 1)%nat else i0 in
  let l1 := Qmin (Qmax (s - inject_Z (Z.of_nat i0)) 0) 1 in
  (i0, i1, 1 - l1, l1).

Definition at2 (p : plane) (i j : nat) : Q := nth j (nth i p []) 0.

Definition resize_plane (out_h out_w : nat) (p : plane) : plane :=
  let in_h := length p in
  let in_w := length (hd [] p) in
  fmap (M:=list) (λ oh,
    let '(h0, h1, hl0, hl1) := taps in_h out_h oh in
    fmap (M:=list) (λ ow,
      let '(w0, w1, wl0, wl1) := taps in_w out_w ow in
      hl0 * (wl0 * at2 p h0 w0 + wl1 * at2 p h0 w1)
      + hl1 * (wl0 * at2 p h1 w0 + wl1 * at2 p h1 w1))
      (seq 0 out_w))
    (seq 0 out_h).

Definition q_min (l : list Q) : option Q :=
  match l with
  | [] => None
  | v :: l => Some (foldl Qmin v l)
  end.

Definition q_max (l : list Q) : option Q :=
  match l with
  | [] => None
  | v :: l => Some (foldl Qmax v l)
  end.

Section Methods.
Context {C : Classifier}.

(** [__init__]: both captures start as [None]; [_register_hooks] attaches
    the two hooks to [target_layer] (every instance in [cams] is hooked). *)
Definition init (target_layer : layer C) : M C loc := λ w,
  let l := fresh (dom (cams w)) in
  Ok (l, World (tensors w) (labels w)
               (<[l:=Cam target_layer None None]> (cams w))
               (model w) (default_generator w)).

Definition get_self (self : loc) : M C (gradcam C) := λ w,
  match cams w !! self with
  | Some cam => Ok (cam, w)
  | None => Raise NameError
  end.

(** [F.interpolate(t, size=size, mode='bilinear', align_corners=False)];
    empty input or output planes are refused. *)
Definition interpolate (size : nat * nat) (t : tensor) : M C tensor :=
  let '(in_h, in_w) := spatial_size t in
  if Nat.eqb in_h 0 || Nat.eqb in_w 0 || Nat.eqb size.1 0 || Nat.eqb size.2 0
  then raise RuntimeError
  else ret (fmap (M:=list) (fmap (M:=list) (resize_plane size.1 size.2)) t).

(** [t.min()] and [t.max()]: refused on a tensor without elements. *)
Definition t_min (t : tensor) : M C Q :=
  match q_min (flatten t) with
  | Some v => ret v
  | None => raise RuntimeError
  end.

Definition t_max (t : tensor) : M C Q :=
  match q_max (flatten t) with
  | Some v => ret v
  | None => raise RuntimeError
  end.

(** [t / d] for a scalar [d]; a zero divisor gives inf or NaN elements. *)
Definition div_scalar (t : tensor) (d : Q) : M C tensor :=
  if Qeq_bool d 0 then λ _, NotFinite else ret (tmap (λ v, v / d) t).

Definition generate (self : loc) (input_image : loc) (target_class : Z) : M C loc :=
  (* self.model.zero_grad() *)
  let! _ := zero_grad in
  (* output = self.model(input_image) *)
  let! output := call_model input_image in
  (* loss = output[0, target_class] *)
  let! loss := select_score output target_class in
  (* loss.backward(retain_graph=True) *)
  let! _ := backward loss in
  (* weights = self.gradients.mean(dim=[2, 3], keepdim=True) *)
  let! cam := get_self self in
  match gradients cam with
  | None => raise AttributeError
  | Some g =>
      let weights := t_mean_hw g in
      (* grad_cam_map = torch.sum(weights * self.activations, dim=1, keepdim=True) *)
      match activations cam with
      | None => raise TypeError
      | Some a =>
          if negb (broadcastable weights a) then raise RuntimeError else
          let grad_cam_map := t_sum_channels (t_bmul weights a) in
          (* grad_cam_map = F.relu(grad_cam_map) *)
          let grad_cam_map := t_relu grad_cam_map in
          (* grad_cam_map = F.interpolate(grad_cam_map, size=input_image.shape[2:], ...) *)
          let! img := get input_image in
          let! grad_cam_map := interpolate (spatial_size (data img)) grad_cam_map in
          (* grad_cam_map = (grad_cam_map - grad_cam_map.min())
                            / (grad_cam_map.max() - grad_cam_map.min() + 1e-8) *)
          let! mn := t_min grad_cam_map in
          let! mx := t_max grad_cam_map in
          let! mn' := t_min grad_cam_map in
          let! grad_cam_map :=
            div_scalar (tmap (λ v, v - mn) grad_cam_map) (mx - mn' + 1e-8) in
          alloc (Tensor grad_cam_map None false false)
      end
  end.

End Methods.
End GradCAM.

(** ** The accuracy functions *)

(** [torch.argmax] of one row: the index of the first maximal element; a
    row without elements is refused. *)
Fixpoint argmax_from (best : Q) (best_i i : nat) (row : list Q) : nat :=
  match row with
  | [] => best_i
  | v :: row =>
      if Qle_bool v best then argmax_from best best_i (S i) row
      else argmax_from v i (S i) row
  end.

Definition argmax (row : list Q) : option nat :=
  match row with
  | [] => None
  | v :: row => Some (argmax_from v 0 1 row)
  end.

Definition count_true (l : list bool) : nat :=
  length (filter (λ b : bool, b = true) l).

(** [(pred == y).sum().item()]: the comparison repeats a side of length
    one and refuses other lengths that differ. *)
Definition count_equal (pred : list nat) (y : list Z) : option nat :=
  if Nat.eqb (length pred) (length y) || Nat.eqb (length pred) 1 || Nat.eqb (length y) 1
  then Some (count_true (GradCAM.bzip (λ p l, Z.eqb (Z.of_nat p) l) pred y))
  else None.

(** The functions that end in a division of Python numbers have one more
    outcome, [ZeroDivisionError]. *)
Inductive py_outcome (A : Type) :=
  | Returns (a : A)
  | Raises (e : exn)
  | ZeroDivisionError
  | NonFinite.
Arguments Returns {A}.
Arguments Raises {A}.
Arguments ZeroDivisionError {A}.
Arguments NonFinite {A}.

Definition Py (C : Classifier) (A : Type) : Type := world C → py_outcome (A * world C).

Definition lift {C A} (c : M C A) : Py C A :=
  λ w, match c w with
       | Ok r => Returns r
       | Raise e => Raises e
       | NotFinite => NonFinite
       end.

Definition py_bind {C A B} (c : Py C A) (k : A → Py C B) : Py C B :=
  λ w, match c w with
       | Returns (a, w') => k a w'
       | Raises e => Raises e
       | ZeroDivisionError => ZeroDivisionError
       | NonFinite => NonFinite
       end.

Notation "'do!' x ':=' c 'in' k" := (py_bind c (λ x, k))
  (at level 10, x name, c at level 100, k at level 200).

(** [for item in items], threading the variables that the body updates. *)
Fixpoint for_each {C A B} (items : list A) (body : B → A → M C B) (acc : B) : M C B :=
  match items with
  | [] => ret acc
  | item :: items => let! acc := body acc item in for_each items body acc
  end.

(** A [DataLoader]: the batches (images, labels) that an iteration yields,
    in its order, and [len(dataloader.dataset)]. *)
Record dataloader := DataLoader {
  batches : list (loc * loc);
  dataset_len : nat;
}.

(** The [attack] argument: an instance of either class. *)
Inductive attack :=
  | FGSM (a : FGSMAttack.t)
  | BIM (a : BIMAttack.t).

Section Accuracy.
Context {C : Classifier}.

(** [model.eval()]. *)
Definition model_eval : M C unit := λ w,
  let md := model w in
  Ok (tt, set_model (Module (parameters md) (param_grads md) false (last_feature_map md)) w).

(** [model(x)] under [torch.no_grad()]: [CNN.forward] as in [call_model],
    but nothing is recorded: the cached feature map requires no gradient,
    and the value of the scores is all that is returned. *)
Definition call_model_no_grad (x : loc) : M C (list (list Q)) :=
  let! xo := get x in
  λ w,
    let md := model w in
    let '(m, gen) :=
      if training md
      then let '(m, gen) := draw_mask C (default_generator w) in (Some m, gen)
      else (None, default_generator w) in
    let θ := parameters md in
    let fm := Tensor (feature_map C θ m (data xo)) None false false in
    Ok (logits C θ m (data xo),
        World (tensors w) (labels w)
              (forward_hook θ m (data xo) <$> cams w)
              (Module θ (param_grads md) (training md) (Some fm))
              gen).

(** [(torch.argmax(out, dim=1) == y).sum().item()]. *)
Definition count_correct (out : list (list Q)) (y : list Z) : M C nat :=
  match mapM argmax out with
  | None => raise IndexError
  | Some pred =>
      match count_equal pred y with
      | Some n => ret n
      | None => raise RuntimeError
      end
  end.

(** [correct / len(dataloader.dataset)]. *)
Definition true_div (a b : nat) : Py C Q := λ w,
  if Nat.eqb b 0 then ZeroDivisionError
  else Returns (inject_Z (Z.of_nat a) / inject_Z (Z.of_nat b), w).

(** [x.to(device)], [y.to(device)]: the tensors are on the device. *)
Definition get_accuracy (dataloader : dataloader) : Py C Q :=
  (* model.eval() *)
  do! _ := lift model_eval in
  (* correct = 0; with torch.no_grad(): for x, y in dataloader: *)
  do! correct := lift (for_each (batches dataloader) (λ correct b,
    let! _ := get b.1 in
    let! y := get_labels b.2 in
    (* out = model(x) *)
    let! out := call_model_no_grad b.1 in
    (* correct += (torch.argmax(out, dim=1) == y).sum().item() *)
    let! n := count_correct out y in
    ret (correct + n)%nat) 0%nat) in
  (* return correct / len(dataloader.dataset) *)
  true_div correct (dataset_len dataloader).

(** [attack.perturb(x, y)], for an attack that was constructed on the model
    that is evaluated. *)
Definition attack_perturb (attack : attack) (x y : loc) : M C loc :=
  match attack with
  | FGSM self => FGSMAttack.perturb self x y
  | BIM self => BIMAttack.perturb self x y
  end.

Definition get_adversarial_accuracy (dataloader : dataloader) (attack : attack) : Py C Q :=
  (* model.eval() *)
  do! _ := lift model_eval in
  (* correct = 0; for x, y in dataloader: *)
  do! correct := lift (for_each (batches dataloader) (λ correct b,
    let! _ := get b.1 in
    let! y := get_labels b.2 in
    (* adv = attack.perturb(x, y) *)
    let! adv := attack_perturb attack b.1 b.2 in
    (* with torch.no_grad(): out = model(adv) *)
    let! out := call_model_no_grad adv in
    (* correct += (torch.argmax(out, dim=1) == y).sum().item() *)
    let! n := count_correct out y in
    ret (correct + n)%nat) 0%nat) in
  (* return correct / len(dataloader.dataset) *)
  true_div correct (dataset_len dataloader).

End Accuracy.

(** ** The procedures as the specification words them *)

(** The single step: [clip(x + ε · sign(grad), 0, 1)], element by element. *)
Definition clip_step (eps : Q) (x grad : tensor) : tensor :=
  tzip (λ xv gv, clamp (xv + eps * sign gv) 0 1) x grad.








(** ** A small classifier, for examples *)

(** Two classes; the score of class 0 of an image is
    [θ · Σ pattern(i, j) · feature], the score of class 1 its opposite; the
    feature map is the image after a dropout that keeps or drops every
    element; the loss of an image is the opposite of the score of its
    label. *)
Module Toy.

Definition pattern (i j : nat) : Q := inject_Z (Z.of_nat ((i + j) mod 3)) - 1.

Definition keep (m : option bool) : Q :=
  match m with
  | Some false => 0
  | _ => 1
  end.

(** The sign of the objective's dependence on the class-0 score of image
    [b]. *)
Definition direction (o : objective) (b : nat) : Q :=
  match o with
  | Loss y => if Z.eqb (nth b y 0%Z) 0 then -1 else 1
  | Score c => if Nat.eqb b 0 then (if Nat.eqb c 0 then 1 else -1) else 0
  end.

Definition pattern_like (c : nat → Q) (x : tensor) : tensor :=
  imap (λ b, fmap (M:=list) (imap (λ i, imap (λ j (_ : Q), c b * pattern i j)))) x.

Definition dot_pattern (img : list plane) : Q :=
  GradCAM.qsum ((λ p : plane,
    GradCAM.qsum (imap (λ i row, GradCAM.qsum (imap (λ j v, pattern i j * v) row)) p))
    <$> img).

Definition classifier : Classifier := {|
  params := Q;
  pgrads := Q;
  accumulate := Qplus;
  generator := nat;
  mask := bool;
  draw_mask := λ g, (Nat.even g, S g);
  layer := bool;
  feature_map := λ θ m x, tmap (Qmult (keep m)) x;
  logits := λ θ m x,
    (λ img, let s := θ * keep m * dot_pattern img in [s; - s]) <$> x;
  d_input := λ θ m x o, pattern_like (λ b, direction o b * θ * keep m) x;
  d_params := λ θ m x o,
    GradCAM.qsum (imap (λ b img, direction o b * keep m * dot_pattern img) x);
  d_feature := λ θ m x o, pattern_like (λ b, direction o b * θ) x;
  layer_output := λ θ m x (l : bool),
    if l then Some (tmap (Qmult (keep m)) x) else None;
  d_layer := λ θ m x o (l : bool),
    if l then Some (pattern_like (λ b, direction o b * θ) x) else None;
|}.

(** A 1×1×4×4 image with every element 0.5, label 0. *)
Definition image : tensor := [[ replicate 4 (replicate 4 0.5) ]].

Definition x : loc := 1%positive.
Definition y : loc := 1%positive.

Definition world0 (θ : Q) (train : bool) : world classifier :=
  World {[ x := Tensor image None false false ]}
        {[ y := [0%Z] ]}
        ∅
        (Module (θ : params classifier) None train None)
        (0%nat : generator classifier).

(** A 1×2×1×2 image and a [GradCAM] instance on the sub-module [l]; the
    sub-module [true] is the one whose output is the feature map, [false]
    is a module that the forward pass does not execute. *)
Definition photo : tensor := [[ [[0.2; 0.8]]; [[0.5; 0.1]] ]].

Definition cam : loc := 1%positive.

Definition world1 (θ : Q) (l : bool) : world classifier :=
  World {[ x := Tensor photo None false false ]}
        {[ y := [0%Z] ]}
        {[ cam := Cam (l : layer classifier) None None ]}
        (Module (θ : params classifier) None false None)
        (0%nat : generator classifier).

End Toy.

(** ** Vocabulary of the statements *)

Section Vocabulary.
Context {C : Classifier}.

(** The dropout mask of the next forward pass: none in evaluation mode, the
    next draw of the generator in training mode. *)
Definition mask_in_effect (w : world C) : option (mask C) :=
  if training (model w)
  then Some (draw_mask C (default_generator w)).1
  else None.

(** The generator after that forward pass. *)
Definition generator_after (w : world C) : generator C :=
  if training (model w)
  then (draw_mask C (default_generator w)).2
  else default_generator w.

(** The gradient of the loss [J(classifier(x), y)] with respect to [x], for
    the classifier as it stands in [w]. *)
Definition loss_gradient (w : world C) (x : tensor) (y : list Z) : tensor :=
  d_input C (parameters (model w)) (mask_in_effect w) x (Loss y).

(** The elements of the tensor that [r] refers to. *)
Definition value_at (w : world C) (r : loc) : option tensor :=
  data <$> tensors w !! r.

(** The elements computed by one iteration of [BIMAttack.perturb] from the
    input [x], the current [x_adv] and its gradient. *)
Definition BIM_update (self : BIMAttack.t) (x x_adv g : tensor) : tensor :=
  t_clamp 0 1
    (t_add x
       (t_clamp (- BIMAttack.epsilon self) (BIMAttack.epsilon self)
          (t_sub (t_add x_adv (t_scale (BIMAttack.alpha self) (t_sign g))) x))).

(** The first [k] iterations of [BIMAttack.perturb]. *)
Definition BIM_iterations (self : BIMAttack.t) (x y : loc) (k : nat) : M C loc :=
  let! x_adv := clone_detach x in
  repeat_m k (BIMAttack.step self x y) x_adv.

(** The state of the loop: the objects that existed at the call are as
    they were, the labels and the parameters too, and the loop variable is
    a new leaf without gradient whose elements satisfy [P]. *)
Definition BIM_state (P : tensor → Prop) (w0 : world C) (xa : loc) (w : world C) : Prop :=
  tensors w0 !! xa = None ∧
  (∃ xao, tensors w !! xa = Some xao ∧ grad xao = None ∧ grad_fn xao = false ∧
          P (data xao)) ∧
  (∀ l o, tensors w0 !! l = Some o → tensors w !! l = Some o) ∧
  labels w = labels w0 ∧
  parameters (model w) = parameters (model w0) ∧
  training (model w) = training (model w0).

(** The state of [gradcam] after the hooks of a pass on [x] that
    back-propagates the score of class [c]. *)
Definition captured (w : world C) (x : tensor) (c : nat) (cam : gradcam C) : gradcam C :=
  let θ := parameters (model w) in
  let m := mask_in_effect w in
  backward_hook θ m x (Score c) (forward_hook θ m x cam).

(** The outcome of the tensor computation of [GradCAM.generate], from the
    state of the instance after the hooks and the spatial size of the
    input. *)
Definition cam_value (size : nat * nat) (cam : gradcam C) : outcome tensor :=
  match gradients cam with
  | None => Raise AttributeError
  | Some g =>
      match activations cam with
      | None => Raise TypeError
      | Some a =>
          if negb (GradCAM.broadcastable (GradCAM.t_mean_hw g) a)
          then Raise RuntimeError
          else
          let m0 :=
            t_relu (GradCAM.t_sum_channels (GradCAM.t_bmul (GradCAM.t_mean_hw g) a)) in
          if Nat.eqb (spatial_size m0).1 0 || Nat.eqb (spatial_size m0).2 0
             || Nat.eqb size.1 0 || Nat.eqb size.2 0
          then Raise RuntimeError
          else
            let m1 :=
              fmap (M:=list) (fmap (M:=list) (GradCAM.resize_plane size.1 size.2)) m0 in
            match GradCAM.q_min (flatten m1), GradCAM.q_max (flatten m1) with
            | Some mn, Some mx =>
                if Qeq_bool (mx - mn + 1e-8) 0 then NotFinite
                else Ok (tmap (λ v, v / (mx - mn + 1e-8)) (tmap (λ v, v - mn) m1))
            | _, _ => Raise RuntimeError
            end
      end
  end.

(** The class that [output[0, target_class]] selects for the input [x]. *)
Definition selected_class (w : world C) (x : tensor) (target_class : Z) : option nat :=
  match logits C (parameters (model w)) (mask_in_effect w) x with
  | [] => None
  | row :: _ => py_index (length row) target_class
  end.

End Vocabulary.


(** No attribute of the module other than the gradient buffers of its
    parameters differs between [md] and [md']. *)
Definition only_gradient_buffers_differ {C} (md md' : module_state C) : Prop :=
  parameters md' = parameters md ∧
  training md' = training md ∧
  last_feature_map md' = last_feature_map md.

(** [p] has shape (h, w); [t] has shape (b, c, h, w). *)
Definition plane_shape (h w : nat) (p : plane) : Prop :=
  length p = h ∧ Forall (λ row : list Q, length row = w) p.

Definition has_shape (b c h w : nat) (t : tensor) : Prop :=
  length t = b ∧
  Forall (λ img : list plane, length img = c ∧ Forall (plane_shape h w) img) t.

(** ** Vocabulary of the further properties *)

Section Dependence.
Context {C : Classifier}.

(** The generator after one forward pass in mode [train]. *)
Definition advance (train : bool) (g : generator C) : generator C :=
  if train then (draw_mask C g).2 else g.

(** Two states of the program that may differ in the gradient buffers of
    the parameters, in the cached feature map, in the registered [GradCAM]
    instances and, in evaluation mode, in the state of the generator. *)
Definition agree (w1 w2 : world C) : Prop :=
  tensors w1 = tensors w2 ∧
  labels w1 = labels w2 ∧
  parameters (model w1) = parameters (model w2) ∧
  training (model w1) = training (model w2) ∧
  (training (model w1) = true → default_generator w1 = default_generator w2).

Definition same_outcome {A} (o1 o2 : outcome (A * world C)) : Prop :=
  match o1, o2 with
  | Ok (a1, w1), Ok (a2, w2) => a1 = a2 ∧ agree w1 w2
  | Raise e1, Raise e2 => e1 = e2
  | NotFinite, NotFinite => True
  | _, _ => False
  end.

Definition respects {A} (c : M C A) : Prop :=
  ∀ w1 w2, agree w1 w2 → same_outcome (c w1) (c w2).

(** The same for two states in any modes, and for the accuracy functions. *)
Definition agree_on_data (w1 w2 : world C) : Prop :=
  tensors w1 = tensors w2 ∧
  labels w1 = labels w2 ∧
  parameters (model w1) = parameters (model w2).

Definition same_result {A} (o1 o2 : py_outcome (A * world C)) : Prop :=
  match o1, o2 with
  | Returns (a1, w1), Returns (a2, w2) => a1 = a2 ∧ agree w1 w2
  | Raises e1, Raises e2 => e1 = e2
  | ZeroDivisionError, ZeroDivisionError => True
  | NonFinite, NonFinite => True
  | _, _ => False
  end.

(** The outcomes of two calls of [GradCAM.generate] have the same map. *)
Definition same_map (o1 o2 : outcome (loc * world C)) : Prop :=
  match o1, o2 with
  | Ok (r1, w1), Ok (r2, w2) => is_Some (value_at w1 r1) ∧ value_at w1 r1 = value_at w2 r2
  | Raise e1, Raise e2 => e1 = e2
  | NotFinite, NotFinite => True
  | _, _ => False
  end.

(** The batches of a loader exist and pair as many labels as images; the
    loader goes through its whole dataset. *)
Definition batch_in (w : world C) (b : loc * loc) : Prop :=
  ∃ xo yv, tensors w !! b.1 = Some xo ∧ labels w !! b.2 = Some yv ∧
           length (data xo) = length yv.

Definition batch_size (w : world C) (b : loc * loc) : nat :=
  match labels w !! b.2 with
  | Some yv => length yv
  | None => 0
  end.

Definition loads (w : world C) (dl : dataloader) : Prop :=
  Forall (batch_in w) (batches dl) ∧
  dataset_len dl = sum_list (batch_size w <$> batches dl).

(** The state of the loop of [get_accuracy]. *)
Definition clean_state (w0 w : world C) : Prop :=
  tensors w = tensors w0 ∧ labels w = labels w0 ∧
  parameters (model w) = parameters (model w0) ∧
  param_grads (model w) = param_grads (model w0) ∧
  training (model w) = false ∧
  default_generator w = default_generator w0.

(** The state of the loop of [get_adversarial_accuracy]. *)
Definition adversarial_state (w0 w : world C) : Prop :=
  (∀ l o, tensors w0 !! l = Some o → tensors w !! l = Some o) ∧
  labels w = labels w0 ∧
  parameters (model w) = parameters (model w0) ∧
  training (model w) = false ∧
  default_generator w = default_generator w0.

End Dependence.

(** The classifier gives every image one row of scores, with a class at
    least. *)
Definition scores_per_image (C : Classifier) : Prop :=
  ∀ θ m x, Forall2 (λ _ (row : list Q), row ≠ []) x (logits C θ m x).

(** The scores of the classifier depend on the elements of the input as
    rational numbers. *)
Definition scores_respect_eq (C : Classifier) : Prop :=
  ∀ θ m x x', teq x x' →
    Forall2 (Forall2 Qeq) (logits C θ m x) (logits C θ m x').

(** An attack without budget. *)
Definition zero_budget (a : attack) : Prop :=
  match a with
  | FGSM self => FGSMAttack.epsilon self == 0
  | BIM self =>
      0 <= BIMAttack.epsilon self ∧
      (BIMAttack.alpha self == 0 ∨ BIMAttack.epsilon self == 0)
  end.

Definition images_in_unit_range {C} (w : world C) (dl : dataloader) : Prop :=
  Forall (λ b : loc * loc, ∀ xo, tensors w !! b.1 = Some xo → in_unit_range (data xo))
         (batches dl).

(** ** Example data *)

Module Examples.

(** Two 1×1×3 images: the first is of class 0 for [θ = 1] and of class 1
    after a step of 0.1 against label 0; the second is of class 1. *)
Definition pair : tensor := [ [ [[0.45; 0; 0.55]] ]; [ [[1; 0; 0]] ] ].

Definition x2 : loc := 2%positive.
Definition y2 : loc := 2%positive.

Definition dataset (θ : Q) (train : bool) : world Toy.classifier :=
  World {[ Toy.x := Tensor Toy.image None false false;
           x2 := Tensor pair None false false ]}
        {[ Toy.y := [0%Z]; y2 := [0%Z; 1%Z] ]}
        ∅
        (Module (θ : params Toy.classifier) None train None)
        (0%nat : generator Toy.classifier).

Definition testloader : dataloader := DataLoader [(Toy.x, Toy.y); (x2, y2)] 3.

(** The same data with a [GradCAM] instance, gradient buffers and a
    generator in some state. *)
Definition instrumented (cam : gradcam Toy.classifier) (buffers : option Q)
    (train : bool) (gen : nat) : world Toy.classifier :=
  World {[ Toy.x := Tensor Toy.image None false false;
           x2 := Tensor pair None false false ]}
        {[ Toy.y := [0%Z]; y2 := [0%Z; 1%Z] ]}
        {[ Toy.cam := cam ]}
        (Module (1 : params Toy.classifier) (buffers : option (pgrads Toy.classifier))
                train
                (Some (Tensor Toy.photo (Some Toy.photo) true true)))
        (gen : generator Toy.classifier).

(** An instance on the sub-module [l], new or with captures of an earlier
    pass on [Toy.photo]. *)
Definition new_cam (l : bool) : gradcam Toy.classifier :=
  Cam (l : layer Toy.classifier) None None.

Definition used_cam (l : bool) : gradcam Toy.classifier :=
  Cam (l : layer Toy.classifier) (Some Toy.photo) (Some Toy.photo).

End Examples.

(** * Properties *)

(** ** The model on concrete values *)

(** Rounding to a float: 0.1 and the sum 0.5 + 0.1; two ties, which go to
    the even neighbour; the subnormal numbers; the largest float. *)
Example float32_examples :
  Float32.round 0.1 == 13421773 # 134217728 ∧
  Float32.round (0.5 + Float32.round 0.1) == 5033165 # 8388608 ∧
  Float32.round (0.5 - Float32.round 0.1) == 13421773 # 33554432 ∧
  Float32.round (1 + 2 ^ (-24)) == 1 ∧
  Float32.round (1 + 3 * 2 ^ (-24)) == 1 + 2 ^ (-22) ∧
  Float32.round (2 ^ (-150)) == 0 ∧
  Float32.round (3 * 2 ^ (-150)) == 2 ^ (-148) ∧
  Float32.round (- (1 # 3)) == - (11184811 # 33554432) ∧
  Float32.round Float32.max_value == Float32.max_value.
Proof. repeat split; vm_compute; reflexivity. Qed.

(** A gradient of two images does not broadcast with an activation of
    three. *)
Example broadcastable_examples :
  GradCAM.broadcastable (GradCAM.t_mean_hw [ [[[1; 2]]]; [[[3; 4]]] ])
                        [ [[[1; 2]]]; [[[3; 4]]]; [[[5; 6]]] ] = false ∧
  GradCAM.broadcastable (GradCAM.t_mean_hw [ [[[1; 2]]] ])
                        [ [[[1; 2]]]; [[[3; 4]]]; [[[5; 6]]] ] = true ∧
  GradCAM.broadcastable (GradCAM.t_mean_hw [ [[[1; 2]]; [[3; 4]]] ])
                        [ [[[1; 2]; [3; 4]]; [[5; 6]; [7; 8]]] ] = true.
Proof. repeat split; reflexivity. Qed.

Example clamp_examples :
  clamp 0.3 0 1 = 0.3 ∧ clamp (-2) 0 1 = 0 ∧ clamp 7 0 1 = 1 ∧
  clamp 0.3 0.1 (-0.1) = -0.1.
Proof. repeat split; reflexivity. Qed.

Example sign_examples : sign 0.25 = 1 ∧ sign 0 = 0 ∧ sign (-3) = -1.
Proof. repeat split; reflexivity. Qed.

Example py_index_examples :
  py_index 10 3 = Some 3%nat ∧ py_index 10 (-1) = Some 9%nat ∧
  py_index 10 10 = None ∧ py_index 10 (-11) = None.
Proof. repeat split; reflexivity. Qed.

(** Doubling the width of the row [0, 1]. *)
Example resize_plane_example :
  Forall2 (Forall2 Qeq) (GradCAM.resize_plane 1 4 [[0; 1]]) [[0; 0.25; 0.75; 1]].
Proof. vm_compute. repeat constructor. Qed.

Example generate_example :
  match GradCAM.generate Toy.cam Toy.x 1 (Toy.world1 1 true) with
  | Ok (r, w') =>
      ∃ out, value_at w' r = Some out ∧
             teq out [[ [[0; 0.1 / (0.1 + 1e-8)]] ]]
  | _ => False
  end.
Proof. vm_compute. eexists. split; [reflexivity|]. repeat constructor. Qed.

(** ** Scalars *)

Lemma sign_cases v : sign v = 1 ∨ sign v = 0 ∨ sign v = -1.
Proof. unfold sign. destruct (v ?= 0); auto. Qed.

Lemma sign_zero v : v == 0 → sign v = 0.
Proof. intros H. unfold sign. apply Qeq_alt in H. by rewrite H. Qed.

Lemma clamp_range v lo hi : lo <= hi → lo <= clamp v lo hi <= hi.
Proof.
  intros H. unfold clamp.
  destruct (Q.max_spec v lo) as [[? ?]|[? ?]];
    destruct (Q.min_spec (Qmax v lo) hi) as [[? ?]|[? ?]]; lra.
Qed.

Lemma clamp_unit v : 0 <= clamp v 0 1 <= 1.
Proof. apply clamp_range. lra. Qed.

Lemma clamp_id v lo hi : lo <= v <= hi → clamp v lo hi == v.
Proof.
  intros H. unfold clamp.
  destruct (Q.max_spec v lo) as [[? ?]|[? ?]];
    destruct (Q.min_spec (Qmax v lo) hi) as [[? ?]|[? ?]]; lra.
Qed.

(** A total perturbation projected into [-eps, eps] and added to a pixel of
    [0, 1] stays within [eps] of the pixel after the clamp to [0, 1]. *)
Lemma projected_step_bound eps x d :
  0 <= eps → 0 <= x <= 1 →
  Qabs (clamp (x + clamp d (- eps) eps) 0 1 - x) <= eps.
Proof.
  intros He Hx. apply Qabs_Qle_condition.
  pose proof (clamp_range d (- eps) eps ltac:(lra)) as Hd.
  set (p := clamp d (- eps) eps) in *. clearbody p.
  unfold clamp.
  destruct (Q.max_spec (x + p) 0) as [[? ?]|[? ?]];
    destruct (Q.min_spec (Qmax (x + p) 0) 1) as [[? ?]|[? ?]]; lra.
Qed.

Lemma signed_step_range eps g : 0 <= eps → - eps <= eps * sign g <= eps.
Proof. intros He. destruct (sign_cases g) as [-> | [-> | ->]]; lra. Qed.

Lemma single_step_bound eps x g :
  0 <= eps → 0 <= x <= 1 →
  Qabs (clamp (x + eps * sign g) 0 1 - x) <= eps.
Proof.
  intros He Hx. apply Qabs_Qle_condition.
  pose proof (signed_step_range eps g He) as Hd.
  set (p := eps * sign g) in *. clearbody p.
  unfold clamp.
  destruct (Q.max_spec (x + p) 0) as [[? ?]|[? ?]];
    destruct (Q.min_spec (Qmax (x + p) 0) 1) as [[? ?]|[? ?]]; lra.
Qed.

Lemma single_step_zero eps x g :
  eps == 0 → 0 <= x <= 1 → clamp (x + eps * sign g) 0 1 == x.
Proof.
  intros He Hx. rewrite clamp_id; destruct (sign_cases g) as [-> | [-> | ->]]; lra.
Qed.

(** One iteration with step [eps] from the input itself is the single
    step. *)
Lemma one_iteration_single_step eps x g :
  0 <= eps →
  clamp (x + clamp (x + eps * sign g - x) (- eps) eps) 0 1
  == clamp (x + eps * sign g) 0 1.
Proof.
  intros He.
  pose proof (signed_step_range eps g He) as Hd.
  assert (clamp (x + eps * sign g - x) (- eps) eps == eps * sign g) as E.
  { rewrite clamp_id; lra. }
  set (p := eps * sign g) in *. clearbody p.
  set (q := clamp (x + p - x) (- eps) eps) in *. clearbody q.
  unfold clamp.
  destruct (Q.max_spec (x + p) 0) as [[? ?]|[? ?]];
    destruct (Q.min_spec (Qmax (x + p) 0) 1) as [[? ?]|[? ?]];
    destruct (Q.max_spec (x + q) 0) as [[? ?]|[? ?]];
    destruct (Q.min_spec (Qmax (x + q) 0) 1) as [[? ?]|[? ?]]; lra.
Qed.

(** ** Rounding to 32-bit floats *)

Section Float32Facts.
Import Float32.

Lemma pow2_pos k : 0 < 2 ^ k.
Proof. by apply Qpower_0_lt. Qed.

Lemma pow2_add a b : 2 ^ (a + b) == 2 ^ a * 2 ^ b.
Proof. by apply Qpower_plus. Qed.

Lemma pow2_Z k : (0 <= k)%Z → 2 ^ k == inject_Z (2 ^ k).
Proof. intros H. symmetry. exact (Zpower_Qpower 2 k H). Qed.

Lemma pow2_le a b : (a <= b)%Z → 2 ^ a <= 2 ^ b.
Proof. intros H. by apply Qpower_le_compat_l. Qed.

Lemma pow2_ge_1 k : (0 <= k)%Z → 1 <= 2 ^ k.
Proof. intros H. change 1 with (2 ^ 0). by apply pow2_le. Qed.

Lemma Q_as_fraction (q : Q) : q * inject_Z (Zpos (Qden q)) == inject_Z (Qnum q).
Proof. destruct q as [n d]. unfold Qeq, Qmult, inject_Z. simpl. lia. Qed.

Lemma ilog2_spec q : 0 < q → 2 ^ ilog2 q <= q ∧ q < 2 ^ (ilog2 q + 1).
Proof.
  intros Hq.
  assert (0 < Qnum q)%Z as Hn by (destruct q; unfold Qlt in Hq; simpl in *; lia).
  pose proof (Z.log2_spec _ Hn) as [Hn1 Hn2].
  pose proof (Z.log2_spec (Zpos (Qden q)) eq_refl) as [Hd1 Hd2].
  pose proof (Z.log2_nonneg (Qnum q)) as Ha.
  pose proof (Z.log2_nonneg (Zpos (Qden q))) as Hb.
  set (a := Z.log2 (Qnum q)) in *. set (b := Z.log2 (Zpos (Qden q))) in *.
  pose proof (Q_as_fraction q) as Hf.
  set (N := inject_Z (Qnum q)) in *. set (D := inject_Z (Zpos (Qden q))) in *.
  assert (2 ^ a <= N) as HN1.
  { rewrite pow2_Z by done. subst N. by rewrite <- Zle_Qle. }
  assert (N < 2 ^ (a + 1)) as HN2.
  { rewrite pow2_Z by lia. subst N. by rewrite <- Zlt_Qlt. }
  assert (2 ^ b <= D) as HD1.
  { rewrite pow2_Z by done. subst D. by rewrite <- Zle_Qle. }
  assert (D < 2 ^ (b + 1)) as HD2.
  { rewrite pow2_Z by lia. subst D. by rewrite <- Zlt_Qlt. }
  assert (0 < D) as HD by (pose proof (pow2_pos b); lra).
  assert (2 ^ (a - b - 1) <= q) as Hlo.
  { apply (Qmult_le_r _ _ D HD). rewrite Hf.
    eapply Qle_trans; [|exact HN1].
    replace a with ((a - b - 1) + (b + 1))%Z at 2 by lia. rewrite pow2_add.
    pose proof (pow2_pos (a - b - 1)). nra. }
  assert (q < 2 ^ (a - b + 1)) as Hhi.
  { apply (Qmult_lt_r _ _ D HD). rewrite Hf.
    eapply Qlt_le_trans; [exact HN2|].
    replace (a + 1)%Z with ((a - b + 1) + b)%Z by lia. rewrite pow2_add.
    pose proof (pow2_pos (a - b + 1)). nra. }
  unfold ilog2. fold a b.
  destruct (Qle_bool (2 ^ (a - b)) q) eqn:E.
  - apply Qle_bool_iff in E. split; [exact E|exact Hhi].
  - split; [exact Hlo|].
    replace (a - b - 1 + 1)%Z with (a - b)%Z by lia.
    apply Qnot_le_lt. intros H. apply Qle_bool_iff in H. congruence.
Qed.

Lemma rne_cases m :
  let f := Qfloor m in
  (rne m = f ∧ m - inject_Z f <= 1 # 2) ∨
  (rne m = (f + 1)%Z ∧ 1 # 2 <= m - inject_Z f).
Proof.
  intros f. unfold rne. fold f.
  destruct (Qcompare (m - inject_Z f) (1 # 2)) eqn:E.
  - apply Qeq_alt in E. destruct (Z.even f); [left|right]; split; try done; lra.
  - apply Qlt_alt in E. left. split; [done|lra].
  - apply Qgt_alt in E. right. split; [done|lra].
Qed.

Lemma rne_error m : Qabs (inject_Z (rne m) - m) <= 1 # 2.
Proof.
  pose proof (Qfloor_le m) as H1. pose proof (Qlt_floor m) as H2.
  rewrite inject_Z_plus in H2. change (inject_Z 1) with 1 in H2.
  apply Qabs_Qle_condition.
  destruct (rne_cases m) as [[-> H]|[-> H]].
  - lra.
  - rewrite inject_Z_plus. change (inject_Z 1) with 1. lra.
Qed.

Lemma rne_ge m k : inject_Z k <= m → (k <= rne m)%Z.
Proof.
  intros H. apply Qfloor_resp_le in H. rewrite Qfloor_Z in H.
  destruct (rne_cases m) as [[-> _]|[-> _]]; lia.
Qed.

Lemma rne_le m k : m <= inject_Z k → (rne m <= k)%Z.
Proof.
  intros H. pose proof (Qfloor_le m) as H1.
  assert (Qfloor m <= k)%Z as Hf by (rewrite Zle_Qle; lra).
  destruct (rne_cases m) as [[-> _]|[-> Hm]]; [done|].
  destruct (Z.eq_dec (Qfloor m) k) as [E|E]; [|lia].
  rewrite E in Hm. lra.
Qed.

Lemma round_pos_eq q :
  round_pos q = inject_Z (rne (q / 2 ^ ulp_exponent q)) * 2 ^ ulp_exponent q.
Proof. reflexivity. Qed.

(** A multiple of the unit in the last place that is below (above) [q]
    is below (above) the rounded value. *)
Lemma round_pos_grid_ge q k :
  inject_Z k * 2 ^ ulp_exponent q <= q → inject_Z k * 2 ^ ulp_exponent q <= round_pos q.
Proof.
  intros H. rewrite round_pos_eq. pose proof (pow2_pos (ulp_exponent q)) as Hp.
  apply Qmult_le_compat_r; [|lra]. rewrite <- Zle_Qle. apply rne_ge.
  apply Qle_shift_div_l; done.
Qed.

Lemma round_pos_grid_le q k :
  q <= inject_Z k * 2 ^ ulp_exponent q → round_pos q <= inject_Z k * 2 ^ ulp_exponent q.
Proof.
  intros H. rewrite round_pos_eq. pose proof (pow2_pos (ulp_exponent q)) as Hp.
  apply Qmult_le_compat_r; [|lra]. rewrite <- Zle_Qle. apply rne_le.
  apply Qle_shift_div_r; done.
Qed.

Lemma round_pos_nonneg q : 0 < q → 0 <= round_pos q.
Proof.
  intros Hq. pose proof (round_pos_grid_ge q 0) as H.
  change (inject_Z 0) with 0 in H. rewrite Qmult_0_l in H. apply H. lra.
Qed.

Lemma ulp_bound q : 0 < q → 2 ^ ulp_exponent q <= 2 ^ (-23) * q + 2 ^ (-149).
Proof.
  intros Hq. destruct (ilog2_spec q Hq) as [Hlo _]. unfold ulp_exponent.
  pose proof (pow2_pos (-149)). pose proof (pow2_pos (-23)).
  destruct (Z.max_spec (ilog2 q - 23) (-149)) as [[_ ->]|[_ ->]].
  - nra.
  - replace (ilog2 q - 23)%Z with (-23 + ilog2 q)%Z by lia. rewrite pow2_add. nra.
Qed.

Lemma round_pos_error q :
  0 < q → Qabs (round_pos q - q) <= 2 ^ (-24) * q + 2 ^ (-150).
Proof.
  intros Hq. pose proof (ulp_bound q Hq) as Hu.
  pose proof (pow2_pos (ulp_exponent q)) as Hp.
  pose proof (rne_error (q / 2 ^ ulp_exponent q)) as He.
  rewrite round_pos_eq. set (u := 2 ^ ulp_exponent q) in *.
  set (k := inject_Z (rne (q / u))) in *.
  assert (q == q / u * u) as Hm by (field; lra).
  apply Qabs_Qle_condition in He. apply Qabs_Qle_condition.
  assert (2 ^ (-24) == (1 # 2) * 2 ^ (-23)) as -> by reflexivity.
  assert (2 ^ (-150) == (1 # 2) * 2 ^ (-149)) as -> by reflexivity.
  set (m := q / u) in *. clearbody m k u. nra.
Qed.

Lemma Qred_sign v :
  match Qnum (Qred v) with
  | Z0 => v == 0
  | Zpos _ => 0 < v
  | Zneg _ => v < 0
  end.
Proof.
  pose proof (Qred_correct v) as H. destruct (Qred v) as [n d]. simpl.
  destruct n; rewrite <- H; unfold Qeq, Qlt; simpl; lia.
Qed.

Lemma round_proper u v : u == v → round u = round v.
Proof. intros H. unfold round. by rewrite (Qred_complete _ _ H). Qed.

Lemma round_opp v : round (- v) == - round v.
Proof.
  unfold round. rewrite Qred_opp. destruct (Qred v) as [[|p|p] d].
  - reflexivity.
  - reflexivity.
  - change (round_pos (- (Z.neg p # d)) == - - round_pos (- (Z.neg p # d))).
    by rewrite Qopp_opp.
Qed.

Lemma round_0 : round 0 = 0.
Proof. reflexivity. Qed.

Lemma round_1 : round 1 == 1.
Proof. reflexivity. Qed.

Lemma round_nonneg v : 0 <= v → 0 <= round v.
Proof.
  intros Hv. unfold round. pose proof (Qred_sign v) as Hs.
  pose proof (Qred_correct v) as Hq.
  destruct (Qnum (Qred v)); [lra| |lra].
  apply round_pos_nonneg. by rewrite Hq.
Qed.

(** The error of one rounding: half a unit in the last place, which is at
    most [2^-24] of the value for the normal numbers and [2^-150] in
    absolute value for the subnormal ones. *)
Lemma round_error v : Qabs (round v - v) <= 2 ^ (-24) * Qabs v + 2 ^ (-150).
Proof.
  unfold round. pose proof (Qred_sign v) as Hs.
  pose proof (Qred_correct v) as Hq.
  destruct (Qnum (Qred v)).
  - rewrite Hs. vm_compute. discriminate.
  - rewrite (Qabs_pos v) by lra. rewrite <- Hq at 2 3.
    apply round_pos_error. by rewrite Hq.
  - rewrite (Qabs_neg v) by lra.
    assert (0 < - Qred v) as Hp by (rewrite Hq; lra).
    pose proof (round_pos_error _ Hp) as He.
    apply Qabs_Qle_condition in He. apply Qabs_Qle_condition.
    set (r := round_pos (- Qred v)) in *. clearbody r.
    rewrite Hq in He. lra.
Qed.


Lemma ulp_exponent_mono f q : 0 < f → f <= q → (ulp_exponent f <= ulp_exponent q)%Z.
Proof.
  intros Hf Hfq. assert (0 < q) as Hq by lra.
  destruct (ilog2_spec f Hf) as [Hf1 _]. destruct (ilog2_spec q Hq) as [_ Hq2].
  assert (ilog2 f < ilog2 q + 1)%Z.
  { apply (Qpower_lt_compat_l_inv 2); [lra|done]. }
  unfold ulp_exponent. lia.
Qed.

(** Rounding does not cross a number of the format. *)
Lemma round_pos_ge_float f q :
  0 < f → round_pos f == f → f <= q → f <= round_pos q.
Proof.
  intros Hf Hr Hfq. assert (0 < q) as Hq by lra.
  pose proof (ulp_exponent_mono f q Hf Hfq) as Hex.
  destruct (Z.eq_dec (ulp_exponent f) (ulp_exponent q)) as [E|E].
  - rewrite round_pos_eq, E in Hr. rewrite <- Hr at 1.
    apply round_pos_grid_ge. by rewrite Hr.
  - destruct (ilog2_spec f Hf) as [_ Hf2]. destruct (ilog2_spec q Hq) as [Hq1 _].
    unfold ulp_exponent in Hex, E.
    assert (ilog2 f + 1 <= ilog2 q)%Z as He by lia.
    assert (ulp_exponent q = ilog2 q - 23)%Z as Eq by (unfold ulp_exponent; lia).
    assert (2 ^ ilog2 q == inject_Z (2 ^ 23) * 2 ^ ulp_exponent q) as Hg.
    { rewrite Eq, <- pow2_Z by done. rewrite <- pow2_add. f_equiv. lia. }
    pose proof (round_pos_grid_ge q (2 ^ 23)) as H. rewrite <- Hg in H.
    specialize (H Hq1). pose proof (pow2_le _ _ He). lra.
Qed.

Lemma round_pos_le_float f q :
  0 < q → round_pos f == f → q <= f → round_pos q <= f.
Proof.
  intros Hq Hr Hqf. assert (0 < f) as Hf by lra.
  pose proof (ulp_exponent_mono q f Hq Hqf) as Hex.
  rewrite round_pos_eq in Hr.
  set (k := rne (f / 2 ^ ulp_exponent f)) in *.
  assert (f == inject_Z (k * 2 ^ (ulp_exponent f - ulp_exponent q)) * 2 ^ ulp_exponent q)
    as Hg.
  { rewrite inject_Z_mult, <- pow2_Z by lia. rewrite <- Qmult_assoc, <- pow2_add.
    rewrite <- Hr at 1. do 2 f_equiv. lia. }
  rewrite Hg. apply round_pos_grid_le. by rewrite <- Hg.
Qed.

Lemma round_of_pos v : 0 < v → round v = round_pos (Qred v).
Proof.
  intros Hv. unfold round. pose proof (Qred_sign v) as Hs.
  destruct (Qnum (Qred v)); [lra|done|lra].
Qed.

Lemma round_of_neg v : v < 0 → round v = - round_pos (- Qred v).
Proof.
  intros Hv. unfold round. pose proof (Qred_sign v) as Hs.
  destruct (Qnum (Qred v)); [lra|lra|done].
Qed.

Lemma round_ge f v : round f == f → f <= v → f <= round v.
Proof.
  intros Hf Hfv. pose proof (Qred_correct v) as Hqv. pose proof (Qred_correct f) as Hqf.
  destruct (Q_dec v 0) as [[Hv|Hv]|Hv].
  - rewrite (round_of_neg v) by lra.
    rewrite (round_of_neg f) in Hf by lra.
    assert (round_pos (- Qred v) <= - Qred f); [|lra].
    apply round_pos_le_float; lra.
  - rewrite round_of_pos by done. rewrite <- Hqv in Hv.
    destruct (Qlt_le_dec 0 f) as [Hp|Hn].
    + rewrite round_of_pos in Hf by done. rewrite <- Hqf.
      apply round_pos_ge_float; lra.
    + pose proof (round_pos_nonneg _ Hv). lra.
  - rewrite (round_proper v 0 Hv). rewrite round_0. lra.
Qed.

Lemma round_le f v : round f == f → v <= f → round v <= f.
Proof.
  intros Hf Hvf. pose proof (round_opp f) as Hof. pose proof (round_opp v) as Hov.
  assert (- f <= round (- v)); [|lra].
  apply round_ge; lra.
Qed.

End Float32Facts.

(** ** The steps of the attacks on 32-bit floats *)

Section Float32Attacks.
Import Float32.

(** The constants of the error bounds, as fractions. *)
Lemma float32_constants :
  2 ^ (-24) == 1 # 16777216 ∧ 2 ^ (-22) == 1 # 4194304 ∧
  0 <= 2 ^ (-150) <= 1 # 1000000000000000.
Proof. repeat split; vm_compute; discriminate. Qed.

Lemma float32_clamp_unit v : 0 <= clamp v (round 0) (round 1) <= 1.
Proof.
  pose proof round_1 as H1.
  pose proof (clamp_range v (round 0) (round 1)) as H. rewrite round_0 in *. lra.
Qed.

(** A pixel of [0, 1] plus a perturbation of size [round eps], up to one
    rounding, rounded and clamped to [0, 1], is within [eps + 2^-22] of the
    pixel. *)
Lemma float32_step_bound eps x p :
  0 <= eps → 0 <= x <= 1 →
  Qabs p <= round eps * (1 + 2 ^ (-24)) + 2 ^ (-150) →
  Qabs (clamp (round (x + p)) (round 0) (round 1) - x) <= eps + 2 ^ (-22).
Proof.
  intros He Hx Hp.
  pose proof (round_error eps) as Ee. rewrite (Qabs_pos eps) in Ee by done.
  pose proof (round_nonneg eps He) as He0.
  pose proof (round_error (x + p)) as Ev.
  pose proof (float32_clamp_unit (round (x + p))) as Hc.
  destruct float32_constants as (E24 & E22 & Hd).
  rewrite E24 in *. rewrite E22. clear E24 E22.
  set (d := 2 ^ (-150)) in *. clearbody d.
  set (e := round eps) in *. clearbody e.
  set (r := round (x + p)) in *. clearbody r.
  set (out := clamp r (round 0) (round 1)) in *.
  assert (out = clamp r (round 0) (round 1)) as Eout by reflexivity. clearbody out.
  apply Qabs_Qle_condition in Hp, Ee.
  assert (Qabs (x + p) <= 1 + (e * (1 + (1 # 16777216)) + d)) as Ha
    by (apply Qabs_Qle_condition; lra).
  set (a := Qabs (x + p)) in *. clearbody a.
  apply Qabs_Qle_condition in Ev. apply Qabs_Qle_condition.
  destruct (Qlt_le_dec eps (1 - (1 # 4194304))) as [Hs|Hs]; [|lra].
  pose proof round_1 as H1. rewrite round_0 in Eout.
  set (one := round 1) in *. clearbody one.
  subst out. unfold clamp in *.
  destruct (Q.max_spec r 0) as [[? Em]|[? Em]];
    destruct (Q.min_spec (Qmax r 0) one) as [[? En]|[? En]];
    rewrite En; rewrite ?Em; lra.
Qed.

(** The signed step of the single-step attack, in 32-bit floats. *)
Lemma float32_signed_step eps g :
  0 <= eps →
  Qabs (round (round eps * sign g)) <= round eps * (1 + 2 ^ (-24)) + 2 ^ (-150).
Proof.
  intros He. pose proof (round_nonneg eps He) as He0.
  pose proof (round_error (round eps * sign g)) as Ev.
  destruct float32_constants as (E24 & _ & Hd). rewrite E24 in *. clear E24.
  set (d := 2 ^ (-150)) in *. clearbody d.
  set (e := round eps) in *. clearbody e.
  assert (Qabs (e * sign g) <= e) as Ha.
  { apply Qabs_Qle_condition. destruct (sign_cases g) as [-> | [-> | ->]]; lra. }
  set (a := Qabs (e * sign g)) in *. clearbody a.
  assert (- e <= e * sign g <= e) as Hs
    by (destruct (sign_cases g) as [-> | [-> | ->]]; lra).
  set (s := e * sign g) in *. clearbody s.
  apply Qabs_Qle_condition in Ev. apply Qabs_Qle_condition. lra.
Qed.

(** The projection on the budget, in 32-bit floats. *)
Lemma float32_projection eps d :
  0 <= eps → Qabs (clamp d (round (- eps)) (round eps)) <= round eps.
Proof.
  intros He. pose proof (round_nonneg eps He) as He0.
  pose proof (round_opp eps) as Ho.
  apply Qabs_Qle_condition.
  pose proof (clamp_range d (round (- eps)) (round eps)). lra.
Qed.

Lemma float32_single_step_zero eps x g :
  eps == 0 → 0 <= x <= 1 → is_float x →
  clamp (round (x + round (round eps * sign g))) (round 0) (round 1) == x.
Proof.
  intros He Hx Hf. rewrite (round_proper eps 0 He), round_0.
  rewrite (round_proper (0 * sign g) 0) by ring. rewrite ?round_0.
  rewrite (round_proper (x + 0) x) by ring.
  pose proof round_1. rewrite clamp_id; [exact Hf|].
  unfold is_float in Hf. lra.
Qed.

(** One iteration, in 32-bit floats, moves an element of [0, 1] that is
    within [B] of the input to an element within [B + α], up to the five
    roundings of the iteration. *)
Lemma float32_iteration_bound eps alpha x t g B :
  0 <= eps → 0 <= alpha → 0 <= x <= 1 → 0 <= t <= 1 → Qabs (t - x) <= B →
  Qabs (clamp (round (x + clamp (round (round (t + round (round alpha * sign g)) - x))
                             (round (- eps)) (round eps)))
              (round 0) (round 1) - x)
  <= B + (alpha + 2 ^ (-21) * (1 + alpha)).
Proof.
  intros He Ha Hx Ht HB.
  pose proof (round_error alpha) as Ea. rewrite (Qabs_pos alpha) in Ea by done.
  pose proof (round_nonneg alpha Ha) as Ha0.
  pose proof (round_nonneg eps He) as He0.
  pose proof (round_opp eps) as Ho.
  set (a := round alpha) in *.
  pose proof (round_error (a * sign g)) as Es.
  assert (Qabs (a * sign g) <= a) as Hs
    by (apply Qabs_Qle_condition; destruct (sign_cases g) as [-> | [-> | ->]]; lra).
  assert (- a <= a * sign g <= a) as Hs'
    by (destruct (sign_cases g) as [-> | [-> | ->]]; lra).
  set (s := a * sign g) in *. set (s1 := round s) in *.
  pose proof (round_error (t + s1)) as Eu. set (u1 := round (t + s1)) in *.
  pose proof (round_error (u1 - x)) as Ed. set (dd := round (u1 - x)) in *.
  pose proof (clamp_range dd (round (- eps)) (round eps) ltac:(lra)) as Hp.
  assert (Qabs (clamp dd (round (- eps)) (round eps)) <= Qabs dd) as Hpd.
  { unfold clamp in *. apply Qabs_Qle_condition.
    destruct (Qlt_le_dec dd 0);
      try (rewrite (Qabs_neg dd) by lra); try (rewrite (Qabs_pos dd) by lra);
    destruct (Q.max_spec dd (round (- eps))) as [[? Em]|[? Em]];
      destruct (Q.min_spec (Qmax dd (round (- eps))) (round eps)) as [[? En]|[? En]];
      rewrite En; rewrite ?Em; lra. }
  set (p := clamp dd (round (- eps)) (round eps)) in *.
  pose proof (round_error (x + p)) as Er. set (r := round (x + p)) in *.
  pose proof (float32_clamp_unit r) as Hc.
  assert (Qabs (clamp r (round 0) (round 1) - x) <= Qabs (r - x)) as Hout.
  { pose proof round_1 as H1. rewrite round_0 in *. unfold clamp in *.
    apply Qabs_Qle_condition.
    destruct (Qlt_le_dec (r - x) 0);
      try (rewrite (Qabs_neg (r - x)) by lra); try (rewrite (Qabs_pos (r - x)) by lra);
    destruct (Q.max_spec r 0) as [[? Em]|[? Em]];
      destruct (Q.min_spec (Qmax r 0) (round 1)) as [[? En]|[? En]];
      rewrite En; rewrite ?Em; lra. }
  set (out := clamp r (round 0) (round 1)) in *.
  destruct float32_constants as (E24 & _ & Hd).
  assert (2 ^ (-21) == 1 # 2097152) as E21 by reflexivity.
  rewrite E24 in *. rewrite E21. clear E24 E21.
  set (d := 2 ^ (-150)) in *.
  clearbody out r p dd u1 s1 s a d.
  (* the absolute values, one after the other *)
  assert (Qabs (t - x) <= 1) as HT by (apply Qabs_Qle_condition; lra).
  set (T := Qabs (t - x)) in *.
  assert (0 <= T) as HT0 by apply Qabs_nonneg.
  set (As := Qabs s) in *.
  assert (Qabs s1 <= As + ((1 # 16777216) * As + d)) as Hs1.
  { apply Qabs_Qle_condition in Es. apply Qabs_Qle_condition.
    assert (- As <= s <= As) by (subst As; apply Qabs_Qle_condition; lra). lra. }
  set (S1 := Qabs s1) in *.
  assert (Qabs (t + s1) <= 1 + S1) as Hts.
  { assert (- S1 <= s1 <= S1) by (subst S1; apply Qabs_Qle_condition; lra).
    apply Qabs_Qle_condition. lra. }
  set (Ats := Qabs (t + s1)) in *.
  assert (Qabs (u1 - x) <= S1 + ((1 # 16777216) * Ats + d) + T) as Hux.
  { apply Qabs_Qle_condition in Eu.
    assert (- S1 <= s1 <= S1) by (subst S1; apply Qabs_Qle_condition; lra).
    assert (- T <= t - x <= T) by (subst T; apply Qabs_Qle_condition; lra).
    apply Qabs_Qle_condition. lra. }
  set (Aux := Qabs (u1 - x)) in *.
  assert (Qabs dd <= Aux + ((1 # 16777216) * Aux + d)) as Hdd.
  { apply Qabs_Qle_condition in Ed.
    assert (- Aux <= u1 - x <= Aux) by (subst Aux; apply Qabs_Qle_condition; lra).
    apply Qabs_Qle_condition. lra. }
  set (Ad := Qabs dd) in *. set (Ap := Qabs p) in *.
  assert (Qabs (x + p) <= 1 + Ap) as Hxp.
  { assert (- Ap <= p <= Ap) by (subst Ap; apply Qabs_Qle_condition; lra).
    apply Qabs_Qle_condition. lra. }
  set (Axp := Qabs (x + p)) in *.
  assert (Qabs (r - x) <= Ap + ((1 # 16777216) * Axp + d)) as Hrx.
  { apply Qabs_Qle_condition in Er.
    assert (- Ap <= p <= Ap) by (subst Ap; apply Qabs_Qle_condition; lra).
    apply Qabs_Qle_condition. lra. }
  set (Arx := Qabs (r - x)) in *.
  assert (0 <= As) by apply Qabs_nonneg.
  assert (0 <= S1) by apply Qabs_nonneg.
  assert (0 <= Aux) by apply Qabs_nonneg.
  assert (0 <= Ap) by apply Qabs_nonneg.
  apply Qabs_Qle_condition in Ea.
  clearbody T As S1 Ats Aux Ad Ap Axp Arx.
  eapply Qle_trans; [exact Hout|]. lra.
Qed.

End Float32Attacks.

(** ** Lists and tensors *)

Section Lifting.
Context {A B D E : Type}.

Lemma Forall_fmap_intro (P : B → Prop) (f : A → B) (l : list A) :
  (∀ x, P (f x)) → Forall P (f <$> l).
Proof. intros H. induction l; simpl; constructor; auto. Qed.

Lemma Forall_zip_with_intro (P : D → Prop) (f : A → B → D) l k :
  (∀ x y, P (f x y)) → Forall P (zip_with f l k).
Proof.
  intros H. revert k. induction l as [|x l IH]; intros [|y k]; simpl;
    constructor; auto.
Qed.

Lemma Forall2_fmap_r_intro (S' : A → B → Prop) (S : A → D → Prop) (f : B → D) l k :
  Forall2 S' l k → (∀ u v, S' u v → S u (f v)) → Forall2 S l (f <$> k).
Proof. intros H Hf. induction H; simpl; constructor; auto. Qed.


Lemma Forall2_zip_with_r_intro (S1 : A → B → Prop) (S2 : A → D → Prop)
    (S : A → E → Prop) (f : B → D → E) l k1 k2 :
  Forall2 S1 l k1 → Forall2 S2 l k2 →
  (∀ u v w, S1 u v → S2 u w → S u (f v w)) →
  Forall2 S l (zip_with f k1 k2).
Proof.
  intros H1. revert k2. induction H1; intros k2 H2 Hf; inversion H2; subst;
    simpl; constructor; auto.
Qed.

Lemma Forall2_weaken (R R' : A → B → Prop) l k :
  Forall2 R l k → (∀ u v, R u v → R' u v) → Forall2 R' l k.
Proof. intros H Hi. induction H; constructor; auto. Qed.

Lemma Forall2_swap (R : A → B → Prop) (R' : B → A → Prop) l k :
  Forall2 R l k → (∀ u v, R u v → R' v u) → Forall2 R' k l.
Proof. intros H Hi. induction H; constructor; auto. Qed.

Lemma Forall2_Forall_l_intro (R : A → B → Prop) (P : A → Prop) (R' : A → B → Prop) l k :
  Forall2 R l k → Forall P l → (∀ u v, R u v → P u → R' u v) → Forall2 R' l k.
Proof.
  intros H. induction H; intros HP Hi; inversion HP; subst; constructor; auto.
Qed.

Lemma fmap_fuse (f : B → D) (g : A → B) (F : A → D) (l : list A) :
  (∀ x, f (g x) = F x) → f <$> (g <$> l) = F <$> l.
Proof. intros H. induction l; simpl; f_equal; auto. Qed.

Lemma fmap_zip_with_fuse (f : A → B → D) (h : D → E) (F : A → B → E) l k :
  (∀ x z, h (f x z) = F x z) → h <$> zip_with f l k = zip_with F l k.
Proof.
  intros H. revert k. induction l as [|x l IH]; intros [|z k]; simpl;
    f_equal; auto.
Qed.

Lemma zip_with_fmap_r_fuse (f : A → B → D) (g : E → B) (F : A → E → D) l k :
  (∀ x z, f x (g z) = F x z) → zip_with f l (g <$> k) = zip_with F l k.
Proof.
  intros H. revert k. induction l as [|x l IH]; intros [|z k]; simpl;
    f_equal; auto.
Qed.

Lemma zip_with_diag_l_fuse (f : A → D → E) (g : A → B → D) (F : A → B → E) l k :
  (∀ x z, f x (g x z) = F x z) → zip_with f l (zip_with g l k) = zip_with F l k.
Proof.
  intros H. revert k. induction l as [|x l IH]; intros [|z k]; simpl;
    f_equal; auto.
Qed.

Lemma zip_with_diag_r_fuse (f : D → A → E) (g : A → B → D) (F : A → B → E) l k :
  (∀ x z, f (g x z) x = F x z) → zip_with f (zip_with g l k) l = zip_with F l k.
Proof.
  intros H. revert k. induction l as [|x l IH]; intros [|z k]; simpl;
    f_equal; auto.
Qed.

Lemma Forall2_zip_with_both (R : D → E → Prop) (f : A → B → D) (g : A → B → E) l k :
  (∀ x z, R (f x z) (g x z)) → Forall2 R (zip_with f l k) (zip_with g l k).
Proof.
  intros H. revert k. induction l as [|x l IH]; intros [|z k]; simpl;
    constructor; auto.
Qed.


End Lifting.

Lemma Forall2_diag {A} (R : A → A → Prop) (P : A → Prop) (l : list A) :
  Forall P l → (∀ u, P u → R u u) → Forall2 R l l.
Proof. intros H Hr. induction H; constructor; auto. Qed.

Lemma tall_tmap (P : Q → Prop) f t : (∀ v, P (f v)) → tall P (tmap f t).
Proof.
  intros H. unfold tall, tmap.
  do 3 (apply Forall_fmap_intro; intros ?). by apply Forall_fmap_intro.
Qed.

Lemma tall_weaken (P P' : Q → Prop) t : tall P t → (∀ v, P v → P' v) → tall P' t.
Proof.
  unfold tall. intros H Hi.
  eapply Forall_impl; [exact H|]; clear H.
  intros ? H; eapply Forall_impl; [exact H|]; clear H.
  intros ? H; eapply Forall_impl; [exact H|]; clear H.
  intros ? H; eapply Forall_impl; [exact H|]; clear H.
  exact Hi.
Qed.

Lemma tall2_tmap_r (S' S : Q → Q → Prop) f a b :
  tall2 S' a b → (∀ u v, S' u v → S u (f v)) → tall2 S a (tmap f b).
Proof.
  unfold tall2, tmap. intros H Hf. revert H.
  intros H; eapply Forall2_fmap_r_intro; [exact H|]; clear H.
  intros ?? H; eapply Forall2_fmap_r_intro; [exact H|]; clear H.
  intros ?? H; eapply Forall2_fmap_r_intro; [exact H|]; clear H.
  intros ?? H; eapply Forall2_fmap_r_intro; [exact H|]; clear H.
  exact Hf.
Qed.

Lemma tall2_tzip_r (S1 S2 S : Q → Q → Prop) f a b c :
  tall2 S1 a b → tall2 S2 a c →
  (∀ u v w, S1 u v → S2 u w → S u (f v w)) →
  tall2 S a (tzip f b c).
Proof.
  unfold tall2, tzip. intros H1 H2 Hf.
  eapply Forall2_zip_with_r_intro; [exact H1|exact H2|]; clear H1 H2.
  intros ??? H1 H2; eapply Forall2_zip_with_r_intro; [exact H1|exact H2|]; clear H1 H2.
  intros ??? H1 H2; eapply Forall2_zip_with_r_intro; [exact H1|exact H2|]; clear H1 H2.
  intros ??? H1 H2; eapply Forall2_zip_with_r_intro; [exact H1|exact H2|]; clear H1 H2.
  exact Hf.
Qed.

Lemma tall2_weaken (R R' : Q → Q → Prop) a b :
  tall2 R a b → (∀ u v, R u v → R' u v) → tall2 R' a b.
Proof.
  unfold tall2. intros H Hi.
  eapply Forall2_weaken; [exact H|]; clear H.
  intros ?? H; eapply Forall2_weaken; [exact H|]; clear H.
  intros ?? H; eapply Forall2_weaken; [exact H|]; clear H.
  intros ?? H; eapply Forall2_weaken; [exact H|]; clear H.
  exact Hi.
Qed.

Lemma tall2_swap (R R' : Q → Q → Prop) a b :
  tall2 R a b → (∀ u v, R u v → R' v u) → tall2 R' b a.
Proof.
  unfold tall2. intros H Hi.
  eapply Forall2_swap; [exact H|]; clear H.
  intros ?? H; eapply Forall2_swap; [exact H|]; clear H.
  intros ?? H; eapply Forall2_swap; [exact H|]; clear H.
  intros ?? H; eapply Forall2_swap; [exact H|]; clear H.
  exact Hi.
Qed.

Lemma tall2_with_left (R R' : Q → Q → Prop) (P : Q → Prop) a b :
  tall2 R a b → tall P a → (∀ u v, R u v → P u → R' u v) → tall2 R' a b.
Proof.
  unfold tall2, tall. intros H HP Hi.
  eapply Forall2_Forall_l_intro; [exact H|exact HP|]; clear H HP.
  intros ?? H HP; eapply Forall2_Forall_l_intro; [exact H|exact HP|]; clear H HP.
  intros ?? H HP; eapply Forall2_Forall_l_intro; [exact H|exact HP|]; clear H HP.
  intros ?? H HP; eapply Forall2_Forall_l_intro; [exact H|exact HP|]; clear H HP.
  exact Hi.
Qed.

Lemma tall2_refl (R : Q → Q → Prop) a : (∀ u, R u u) → tall2 R a a.
Proof.
  intros HR. unfold tall2.
  apply Forall2_diag with (P := λ _, True); [by apply Forall_true|]. intros ? _.
  apply Forall2_diag with (P := λ _, True); [by apply Forall_true|]. intros ? _.
  apply Forall2_diag with (P := λ _, True); [by apply Forall_true|]. intros ? _.
  apply Forall2_diag with (P := λ _, True); [by apply Forall_true|]. auto.
Qed.

Lemma same_shape_refl a : same_shape a a.
Proof. by apply tall2_refl. Qed.

Lemma teq_refl a : teq a a.
Proof. apply tall2_refl. intros. reflexivity. Qed.

(** Fusion of element-wise operations. *)
Lemma tmap_tmap f g (F : Q → Q) t :
  (∀ v, f (g v) = F v) → tmap f (tmap g t) = tmap F t.
Proof.
  intros H. unfold tmap.
  apply fmap_fuse; intros. apply fmap_fuse; intros.
  apply fmap_fuse; intros. by apply fmap_fuse.
Qed.

Lemma tzip_tmap_r f g (F : Q → Q → Q) a b :
  (∀ u v, f u (g v) = F u v) → tzip f a (tmap g b) = tzip F a b.
Proof.
  intros H. unfold tzip, tmap.
  apply zip_with_fmap_r_fuse; intros. apply zip_with_fmap_r_fuse; intros.
  apply zip_with_fmap_r_fuse; intros. by apply zip_with_fmap_r_fuse.
Qed.

Lemma tmap_tzip h f (F : Q → Q → Q) a b :
  (∀ u v, h (f u v) = F u v) → tmap h (tzip f a b) = tzip F a b.
Proof.
  intros H. unfold tzip, tmap.
  apply fmap_zip_with_fuse; intros. apply fmap_zip_with_fuse; intros.
  apply fmap_zip_with_fuse; intros. by apply fmap_zip_with_fuse.
Qed.

Lemma tzip_diag_l f g (F : Q → Q → Q) a b :
  (∀ u v, f u (g u v) = F u v) → tzip f a (tzip g a b) = tzip F a b.
Proof.
  intros H. unfold tzip.
  apply zip_with_diag_l_fuse; intros. apply zip_with_diag_l_fuse; intros.
  apply zip_with_diag_l_fuse; intros. by apply zip_with_diag_l_fuse.
Qed.

Lemma tzip_diag_r f g (F : Q → Q → Q) a b :
  (∀ u v, f (g u v) u = F u v) → tzip f (tzip g a b) a = tzip F a b.
Proof.
  intros H. unfold tzip.
  apply zip_with_diag_r_fuse; intros. apply zip_with_diag_r_fuse; intros.
  apply zip_with_diag_r_fuse; intros. by apply zip_with_diag_r_fuse.
Qed.

Lemma tall2_tzip_both (R : Q → Q → Prop) f g a b :
  (∀ u v, R (f u v) (g u v)) → tall2 R (tzip f a b) (tzip g a b).
Proof.
  intros H. unfold tall2, tzip.
  apply Forall2_zip_with_both; intros. apply Forall2_zip_with_both; intros.
  apply Forall2_zip_with_both; intros. by apply Forall2_zip_with_both.
Qed.

Lemma tall_tzip (P : Q → Prop) f a b : (∀ u v, P (f u v)) → tall P (tzip f a b).
Proof.
  intros H. unfold tall, tzip.
  apply Forall_zip_with_intro; intros. apply Forall_zip_with_intro; intros.
  apply Forall_zip_with_intro; intros. by apply Forall_zip_with_intro.
Qed.



(** The tensor expression of [FGSMAttack.perturb] is the element-wise
    formula. *)
Lemma single_step_fused eps x g :
  t_clamp 0 1 (t_add x (t_scale eps (t_sign g))) = clip_step eps x g.
Proof.
  unfold t_clamp, t_add, t_scale, t_sign, clip_step.
  rewrite (tmap_tmap _ _ (λ v, eps * sign v)) by done.
  rewrite (tzip_tmap_r _ _ (λ xv gv, xv + eps * sign gv)) by done.
  by apply tmap_tzip.
Qed.

(** One iteration from the input itself, element by element. *)
Lemma first_iteration_fused (self : BIMAttack.t) x g :
  BIM_update self x x g =
  tzip (λ xv gv,
          clamp (xv + clamp (xv + BIMAttack.alpha self * sign gv - xv)
                        (- BIMAttack.epsilon self) (BIMAttack.epsilon self)) 0 1)
       x g.
Proof.
  unfold BIM_update, t_clamp, t_add, t_sub, t_scale, t_sign.
  rewrite (tmap_tmap _ _ (λ v, BIMAttack.alpha self * sign v)) by done.
  rewrite (tzip_tmap_r Qplus (λ v, BIMAttack.alpha self * sign v)
             (λ xv gv, xv + BIMAttack.alpha self * sign gv)) by done.
  rewrite (tzip_diag_r _ _ (λ xv gv, xv + BIMAttack.alpha self * sign gv - xv))
    by done.
  rewrite (tmap_tzip (λ v, clamp v (- BIMAttack.epsilon self) (BIMAttack.epsilon self))
    (λ xv gv, xv + BIMAttack.alpha self * sign gv - xv)
    (λ xv gv, clamp (xv + BIMAttack.alpha self * sign gv - xv)
                (- BIMAttack.epsilon self) (BIMAttack.epsilon self))) by done.
  rewrite (tzip_diag_l _ _
    (λ xv gv, xv + clamp (xv + BIMAttack.alpha self * sign gv - xv)
                     (- BIMAttack.epsilon self) (BIMAttack.epsilon self))) by done.
  by apply tmap_tzip.
Qed.

(** Boolean equality of tensors is complete. *)
Lemma all2b_complete {A B} (R : A → B → Prop) (r : A → B → bool) l k :
  Forall2 R l k → (∀ u v, R u v → r u v = true) → all2b r l k = true.
Proof.
  intros H Hr. induction H; simpl; [done|]. rewrite Hr by done. done.
Qed.

Lemma teqb_complete a b : teq a b → teqb a b = true.
Proof.
  unfold teq, teqb, tall2, tall2b. intros H.
  eapply all2b_complete; [exact H|]; clear H.
  intros ?? H; eapply all2b_complete; [exact H|]; clear H.
  intros ?? H; eapply all2b_complete; [exact H|]; clear H.
  intros ?? H; eapply all2b_complete; [exact H|]; clear H.
  intros ?? H. by apply Qeq_bool_iff.
Qed.

Lemma all2b_sound {A B} (R : A → B → Prop) (r : A → B → bool) l k :
  (∀ u v, r u v = true → R u v) → all2b r l k = true → Forall2 R l k.
Proof.
  intros Hr. revert k. induction l as [|u l IH]; intros [|v k] H; simpl in H;
    try discriminate; constructor.
  - apply Hr. by destruct (r u v).
  - apply IH. by destruct (r u v).
Qed.

Lemma teqb_sound a b : teqb a b = true → teq a b.
Proof.
  unfold teq, teqb, tall2, tall2b.
  apply all2b_sound. intros ??. apply all2b_sound. intros ??.
  apply all2b_sound. intros ??. apply all2b_sound. intros ??.
  apply Qeq_bool_iff.
Qed.

(** Whether two tensors are within [eps] of each other, as a boolean. *)
Lemma withinb_complete eps a b :
  within eps a b → tall2b (λ u v, Qle_bool (Qabs (u - v)) eps) a b = true.
Proof.
  unfold within, tall2, tall2b. intros H.
  eapply all2b_complete; [exact H|]; clear H.
  intros ?? H; eapply all2b_complete; [exact H|]; clear H.
  intros ?? H; eapply all2b_complete; [exact H|]; clear H.
  intros ?? H; eapply all2b_complete; [exact H|]; clear H.
  intros ?? H. by apply Qle_bool_iff.
Qed.

Lemma tall2_trans (R1 R2 R : Q → Q → Prop) a b c :
  tall2 R1 a b → tall2 R2 b c → (∀ u v w, R1 u v → R2 v w → R u w) →
  tall2 R a c.
Proof.
  unfold tall2. intros H1 H2 HR. revert c H2.
  induction H1 as [|p1 p2 a b Hp _ IH]; intros c H2; inversion H2 as [|? p3 ? c' Hp' Hc']; subst;
    constructor; [clear IH H2 Hc'|by apply IH].
  revert p3 Hp'.
  induction Hp as [|q1 q2 ?? Hq _ IH]; intros p3 H2; inversion H2 as [|? q3 ? ? Hq' Hc']; subst;
    constructor; [clear IH H2 Hc'|by apply IH].
  revert q3 Hq'.
  induction Hq as [|r1 r2 ?? Hr _ IH]; intros q3 H2; inversion H2 as [|? r3 ? ? Hr' Hc']; subst;
    constructor; [clear IH H2 Hc'|by apply IH].
  revert r3 Hr'.
  induction Hr as [|???? Hs _ IH]; intros r3 H2; inversion H2; subst;
    constructor; eauto.
Qed.

Lemma same_shape_trans a b c : same_shape a b → same_shape b c → same_shape a c.
Proof. intros H1 H2. by eapply tall2_trans. Qed.

Lemma same_shape_of (R : Q → Q → Prop) a b : tall2 R a b → same_shape a b.
Proof. intros H. by eapply tall2_weaken. Qed.

Lemma same_shape_sym a b : same_shape a b → same_shape b a.
Proof. intros H. by eapply tall2_swap. Qed.

(** ** The values computed by the attacks *)

Lemma clamped_step_bound eps u v :
  0 <= u <= 1 → - eps <= v - u <= eps → Qabs (clamp v 0 1 - u) <= eps.
Proof.
  intros Hu Hv. apply Qabs_Qle_condition. unfold clamp.
  destruct (Q.max_spec v 0) as [[? ?]|[? ?]];
    destruct (Q.min_spec (Qmax v 0) 1) as [[? ?]|[? ?]]; lra.
Qed.

Lemma in_unit_range_diag x :
  in_unit_range x → tall2 (λ u v, u = v ∧ 0 <= u <= 1) x x.
Proof.
  intros Hx. eapply tall2_with_left; [apply (tall2_refl eq); done|exact Hx|].
  by intros ?? -> ?.
Qed.

Lemma clip_step_in_range eps x g : in_unit_range (clip_step eps x g).
Proof. apply tall_tzip. intros. apply clamp_unit. Qed.

Lemma clip_step_within eps x g :
  same_shape x g → 0 <= eps → in_unit_range x → within eps (clip_step eps x g) x.
Proof.
  intros Hs He Hx. unfold within.
  eapply tall2_swap with (R := λ u v, Qabs (v - u) <= eps); [|by intros].
  eapply tall2_tzip_r; [by apply in_unit_range_diag|exact Hs|].
  intros u v w [-> Hu] _. by apply single_step_bound.
Qed.

Lemma clip_step_zero eps x g :
  same_shape x g → eps == 0 → in_unit_range x → teq (clip_step eps x g) x.
Proof.
  intros Hs He Hx. unfold teq.
  eapply tall2_swap with (R := λ u v, v == u); [|by intros].
  eapply tall2_tzip_r; [by apply in_unit_range_diag|exact Hs|].
  intros u v w [-> Hu] _. by apply single_step_zero.
Qed.


Lemma BIM_update_in_range self x xa g : in_unit_range (BIM_update self x xa g).
Proof. apply tall_tmap. intros. apply clamp_unit. Qed.

Lemma BIM_update_within self x xa g :
  same_shape x xa → same_shape xa g →
  0 <= BIMAttack.epsilon self → in_unit_range x →
  within (BIMAttack.epsilon self) (BIM_update self x xa g) x.
Proof.
  intros Hxa Hg He Hx. unfold within, BIM_update.
  set (eps := BIMAttack.epsilon self) in *.
  eapply tall2_swap with (R := λ u v, Qabs (v - u) <= eps); [|by intros].
  unfold t_clamp at 1.
  eapply tall2_tmap_r with (S' := λ u v, 0 <= u <= 1 ∧ - eps <= v - u <= eps).
  2:{ intros u v [Hu Hv]. by apply clamped_step_bound. }
  unfold t_add at 1.
  eapply tall2_tzip_r with (S2 := λ _ w, - eps <= w <= eps);
    [by apply in_unit_range_diag| |].
  2:{ intros u v w [-> Hu] Hw. split; [done|lra]. }
  eapply tall2_tmap_r with (S' := λ _ _, True).
  2:{ intros u v _. apply clamp_range. lra. }
  eapply tall2_tzip_r with (S1 := λ _ _, True) (S2 := λ _ _, True);
    [|apply same_shape_refl|done].
  eapply tall2_tzip_r with (S1 := λ _ _, True) (S2 := λ _ _, True);
    [exact Hxa| |done].
  eapply tall2_tmap_r with (S' := λ _ _, True); [|done].
  eapply tall2_tmap_r with (S' := λ _ _, True); [|done].
  by eapply same_shape_trans.
Qed.

(** ** The values computed by the attacks on 32-bit floats *)

Section Float32Values.
Import Float32.

(** The element of the result of the single step, in 32-bit floats. *)
Lemma FGSM_value_float32 self x g :
  InArithmetic.FGSM_value float32 self x g =
  tzip (λ xv gv,
          clamp (round (xv + round (round (FGSMAttack.epsilon self) * sign gv)))
                (round 0) (round 1))
       x g.
Proof.
  unfold InArithmetic.FGSM_value, InArithmetic.t_clamp, InArithmetic.t_add,
    InArithmetic.t_scale, t_sign. cbn [of_number add mul float32].
  rewrite (tmap_tmap _ _ (λ v, round (round (FGSMAttack.epsilon self) * sign v)))
    by done.
  rewrite (tzip_tmap_r _ _
    (λ xv gv, round (xv + round (round (FGSMAttack.epsilon self) * sign gv))))
    by done.
  by apply tmap_tzip.
Qed.

Lemma FGSM_value_float32_in_range self x g :
  in_unit_range (InArithmetic.FGSM_value float32 self x g).
Proof. apply tall_tmap. intros. apply float32_clamp_unit. Qed.

Lemma FGSM_value_float32_within self x g :
  same_shape x g → 0 <= FGSMAttack.epsilon self → in_unit_range x →
  within (FGSMAttack.epsilon self + 2 ^ (-22))
         (InArithmetic.FGSM_value float32 self x g) x.
Proof.
  intros Hs He Hx. rewrite FGSM_value_float32. unfold within.
  eapply tall2_swap with (R := λ u v, Qabs (v - u) <= _); [|by intros].
  eapply tall2_tzip_r; [by apply in_unit_range_diag|exact Hs|].
  intros u v w [-> Hu] _. apply float32_step_bound; [done..|].
  by apply float32_signed_step.
Qed.

Lemma FGSM_value_float32_zero self x g :
  same_shape x g → FGSMAttack.epsilon self == 0 → in_unit_range x →
  tall is_float x → teq (InArithmetic.FGSM_value float32 self x g) x.
Proof.
  intros Hs He Hx Hf. rewrite FGSM_value_float32. unfold teq.
  eapply tall2_swap with (R := λ u v, v == u); [|by intros].
  eapply tall2_tzip_r with (S1 := λ u v, u = v ∧ 0 <= u <= 1 ∧ is_float u);
    [|exact Hs|].
  - eapply tall2_with_left; [by apply in_unit_range_diag|exact Hf|].
    intros u v [-> ?] ?. done.
  - intros u v w (-> & Hu & Hfu) _. by apply float32_single_step_zero.
Qed.

(** The element of one iteration, in 32-bit floats. *)
Lemma BIM_value_float32_in_range self x xa g :
  in_unit_range (InArithmetic.BIM_value float32 self x xa g).
Proof. apply tall_tmap. intros. apply float32_clamp_unit. Qed.

Lemma BIM_value_float32_within self x xa g :
  same_shape x xa → same_shape xa g →
  0 <= BIMAttack.epsilon self → in_unit_range x →
  within (BIMAttack.epsilon self + 2 ^ (-22))
         (InArithmetic.BIM_value float32 self x xa g) x.
Proof.
  intros Hxa Hg He Hx. unfold within, InArithmetic.BIM_value.
  set (eps := BIMAttack.epsilon self) in *.
  eapply tall2_swap with (R := λ u v, Qabs (v - u) <= eps + 2 ^ (-22)); [|by intros].
  unfold InArithmetic.t_clamp at 1.
  eapply tall2_tmap_r
    with (S' := λ u v, 0 <= u <= 1 ∧ ∃ p, Qabs p <= round eps ∧ v = round (u + p)).
  2:{ intros u v (Hu & p & Hp & ->). cbn [of_number float32].
      apply float32_step_bound; [done..|].
      pose proof (round_nonneg eps He). destruct float32_constants as (E24 & _ & Hd).
      rewrite E24. set (d := 2 ^ (-150)) in *. clearbody d.
      set (e := round eps) in *. clearbody e. lra. }
  unfold InArithmetic.t_add at 1.
  eapply tall2_tzip_r with (S2 := λ _ w, Qabs w <= round eps);
    [by apply in_unit_range_diag| |].
  2:{ intros u v w [-> Hu] Hw. split; [done|]. by exists w. }
  unfold InArithmetic.t_clamp at 1.
  eapply tall2_tmap_r with (S' := λ _ _, True).
  2:{ intros u v _. cbn [of_number float32]. by apply float32_projection. }
  eapply tall2_tzip_r with (S1 := λ _ _, True) (S2 := λ _ _, True);
    [|apply same_shape_refl|done].
  eapply tall2_tzip_r with (S1 := λ _ _, True) (S2 := λ _ _, True);
    [exact Hxa| |done].
  eapply tall2_tmap_r with (S' := λ _ _, True); [|done].
  eapply tall2_tmap_r with (S' := λ _ _, True); [|done].
  by eapply same_shape_trans.
Qed.

End Float32Values.

(** ** Running the primitives *)

Section Runs.
Context {C : Classifier}.

Lemma bind_ok {A B} (c : M C A) (k : A → M C B) w a w1 :
  c w = Ok (a, w1) → bind c k w = k a w1.
Proof. intros H. unfold bind. by rewrite H. Qed.

Lemma bind_raise {A B} (c : M C A) (k : A → M C B) w e :
  c w = Raise e → bind c k w = Raise e.
Proof. intros H. unfold bind. by rewrite H. Qed.

Lemma fresh_tensor_None (h : gmap loc tobj) : h !! fresh (dom h) = None.
Proof. apply not_elem_of_dom. apply is_fresh. Qed.

Lemma get_run l (w : world C) o : tensors w !! l = Some o → get l w = Ok (o, w).
Proof. intros H. unfold get. by rewrite H. Qed.

Lemma get_labels_run l (w : world C) yv :
  labels w !! l = Some yv → get_labels l w = Ok (yv, w).
Proof. intros H. unfold get_labels. by rewrite H. Qed.

Lemma clone_detach_run x (w : world C) xo :
  tensors w !! x = Some xo →
  clone_detach x w =
  Ok (fresh (dom (tensors w)),
      set_tensors (<[fresh (dom (tensors w)) := Tensor (data xo) None false false]>
                     (tensors w)) w).
Proof.
  intros H. unfold clone_detach. by rewrite (bind_ok _ _ _ _ _ (get_run _ _ _ H)).
Qed.

Lemma set_requires_grad_run l (w : world C) o :
  tensors w !! l = Some o →
  set_requires_grad l w =
  Ok (l, set_tensors (<[l := Tensor (data o) (grad o) true (grad_fn o)]> (tensors w)) w).
Proof.
  intros H. unfold set_requires_grad.
  by rewrite (bind_ok _ _ _ _ _ (get_run _ _ _ H)).
Qed.

Lemma call_model_run x (w : world C) xo :
  tensors w !! x = Some xo →
  call_model x w =
  Ok (Graph (parameters (model w)) (mask_in_effect w) x (data xo),
      World (tensors w) (labels w)
            (forward_hook (parameters (model w)) (mask_in_effect w) (data xo) <$> cams w)
            (Module (parameters (model w)) (param_grads (model w)) (training (model w))
               (Some (Tensor (feature_map C (parameters (model w)) (mask_in_effect w)
                                (data xo))
                             None true true)))
            (generator_after w)).
Proof.
  intros H. unfold call_model. rewrite (bind_ok _ _ _ _ _ (get_run _ _ _ H)).
  unfold mask_in_effect, generator_after.
  destruct (training (model w)); [destruct (draw_mask C (default_generator w))|];
    reflexivity.
Qed.

Lemma loss_fn_run g y (w : world C) yv :
  labels w !! y = Some yv → loss_fn g y w = Ok (Scalar g (Loss yv), w).
Proof.
  intros H. unfold loss_fn.
  by rewrite (bind_ok _ _ _ _ _ (get_labels_run _ _ _ H)).
Qed.

Lemma backward_run (s : scalar) (w : world C) xo :
  tensors w !! g_input (s_graph s) = Some xo →
  requires_grad xo = true → grad_fn xo = false →
  backward s w =
  let gr := s_graph s in
  let θ := g_params gr in
  let m := g_mask gr in
  let x := g_value gr in
  let o := s_objective s in
  Ok (tt,
      World (<[g_input gr := Tensor (data xo) (acc_grad (grad xo) (d_input C θ m x o))
                                    true false]> (tensors w))
            (labels w)
            (backward_hook θ m x o <$> cams w)
            (Module (parameters (model w))
               (acc_pgrad (param_grads (model w)) (d_params C θ m x o))
               (training (model w))
               (match last_feature_map (model w) with
                | Some f => Some (Tensor (data f) (acc_grad (grad f) (d_feature C θ m x o))
                                         (requires_grad f) (grad_fn f))
                | None => None
                end))
            (default_generator w)).
Proof. intros H Hr Hf. unfold backward. rewrite H, Hr, Hf. reflexivity. Qed.

Lemma get_grad_run l (w : world C) o g :
  tensors w !! l = Some o → grad o = Some g → get_grad l w = Ok (g, w).
Proof.
  intros H Hg. unfold get_grad. rewrite (bind_ok _ _ _ _ _ (get_run _ _ _ H)).
  by rewrite Hg.
Qed.

(** ** A call of [FGSMAttack.perturb] *)

Lemma FGSM_run (self : FGSMAttack.t) x y (w : world C) xo yv :
  tensors w !! x = Some xo → labels w !! y = Some yv →
  ∃ r w', FGSMAttack.perturb self x y w = Ok (r, w') ∧
    tensors w !! r = None ∧
    tensors w' !! r =
      Some (Tensor (clip_step (FGSMAttack.epsilon self) (data xo)
                      (loss_gradient w (data xo) yv)) None true true) ∧
    (∀ l o, tensors w !! l = Some o → tensors w' !! l = Some o) ∧
    labels w' = labels w ∧
    parameters (model w') = parameters (model w) ∧
    training (model w') = training (model w) ∧
    default_generator w' = generator_after w ∧
    last_feature_map (model w') =
      Some (Tensor (feature_map C (parameters (model w)) (mask_in_effect w) (data xo))
              (Some (d_feature C (parameters (model w)) (mask_in_effect w) (data xo)
                       (Loss yv))) true true).
Proof.
  intros Hx Hy. unfold FGSMAttack.perturb.
  erewrite bind_ok by (by apply clone_detach_run).
  erewrite bind_ok by (apply set_requires_grad_run; apply lookup_insert_eq).
  erewrite bind_ok by (apply call_model_run; apply lookup_insert_eq).
  erewrite bind_ok by (by apply loss_fn_run).
  erewrite bind_ok by reflexivity.
  erewrite bind_ok
    by (eapply backward_run; [apply lookup_insert_eq|reflexivity|reflexivity]).
  erewrite bind_ok by (eapply get_grad_run; [apply lookup_insert_eq|reflexivity]).
  erewrite bind_ok by (eapply get_run; apply lookup_insert_eq).
  match goal with
  | |- ∃ r w', alloc ?o ?W = _ ∧ _ => set (W1 := W); set (O := o)
  end.
  exists (fresh (dom (tensors W1))),
    (set_tensors (<[fresh (dom (tensors W1)) := O]> (tensors W1)) W1).
  split; [reflexivity|].
  assert (tensors W1 !! fresh (dom (tensors W1)) = None) as Hr
    by apply fresh_tensor_None.
  set (r := fresh (dom (tensors W1))) in *.
  assert (∀ l o, tensors w !! l = Some o → tensors W1 !! l = Some o) as Hold.
  { intros l o Hl. subst W1. cbn.
    assert (fresh (dom (tensors w)) ≠ l)
      by (intros <-; rewrite fresh_tensor_None in Hl; done).
    by rewrite !lookup_insert_ne. }
  assert (tensors w !! r = None) as Hr'.
  { destruct (tensors w !! r) eqn:E; [|done]. apply Hold in E. congruence. }
  split; [done|]. split.
  { cbn. rewrite lookup_insert_eq. subst O. f_equal. f_equal.
    apply single_step_fused. }
  split.
  { intros l o Hl. cbn [tensors set_tensors].
    rewrite lookup_insert_ne by congruence. auto. }
  done.
Qed.

(** ** The loop of [BIMAttack.perturb] *)

Lemma BIM_step_run (self : BIMAttack.t) x y xa (w : world C) xo xao yv :
  tensors w !! x = Some xo → tensors w !! xa = Some xao → x ≠ xa →
  grad xao = None → grad_fn xao = false → labels w !! y = Some yv →
  ∃ r w', BIMAttack.step self x y xa w = Ok (r, w') ∧
    tensors w !! r = None ∧
    tensors w' !! r =
      Some (Tensor (BIM_update self (data xo) (data xao) (loss_gradient w (data xao) yv))
              None false false) ∧
    (∀ l o, l ≠ xa → tensors w !! l = Some o → tensors w' !! l = Some o) ∧
    labels w' = labels w ∧
    parameters (model w') = parameters (model w) ∧
    training (model w') = training (model w) ∧
    default_generator w' = generator_after w.
Proof.
  intros Hx Hxa Hne Hg Hf Hy. unfold BIMAttack.step.
  erewrite bind_ok by (by apply set_requires_grad_run).
  erewrite bind_ok by (apply call_model_run; apply lookup_insert_eq).
  erewrite bind_ok by (by apply loss_fn_run).
  erewrite bind_ok by reflexivity.
  erewrite bind_ok
    by (eapply backward_run; [apply lookup_insert_eq|reflexivity|exact Hf]).
  erewrite bind_ok
    by (eapply get_grad_run; [apply lookup_insert_eq|cbn; rewrite Hg; reflexivity]).
  erewrite bind_ok by (eapply get_run; apply lookup_insert_eq).
  erewrite bind_ok
    by (eapply get_run; cbn; rewrite !lookup_insert_ne by congruence; exact Hx).
  match goal with
  | |- ∃ r w', alloc ?o ?W = _ ∧ _ => set (W1 := W); set (O := o)
  end.
  exists (fresh (dom (tensors W1))),
    (set_tensors (<[fresh (dom (tensors W1)) := O]> (tensors W1)) W1).
  split; [reflexivity|].
  assert (tensors W1 !! fresh (dom (tensors W1)) = None) as Hr
    by apply fresh_tensor_None.
  set (r := fresh (dom (tensors W1))) in *.
  assert (∀ l o, l ≠ xa → tensors w !! l = Some o → tensors W1 !! l = Some o) as Hold.
  { intros l o Hl Hlo. subst W1. cbn. by rewrite !lookup_insert_ne. }
  assert (tensors w !! r = None) as Hr'.
  { destruct (decide (r = xa)) as [->|Hra].
    - subst W1. cbn in Hr. by rewrite lookup_insert_eq in Hr.
    - destruct (tensors w !! r) eqn:E; [|done]. apply Hold in E; congruence. }
  split; [done|]. split.
  { cbn. rewrite lookup_insert_eq. subst O. reflexivity. }
  split.
  { intros l o Hl Hlo. cbn [tensors set_tensors].
    rewrite lookup_insert_ne by congruence. auto. }
  done.
Qed.

(** A loop whose body keeps an invariant runs to its end and keeps it. *)
Lemma repeat_m_invariant {A} (I : A → world C → Prop) (body : A → M C A) :
  (∀ a w, I a w → ∃ a' w', body a w = Ok (a', w') ∧ I a' w') →
  ∀ k a w, I a w → ∃ a' w', repeat_m k body a w = Ok (a', w') ∧ I a' w'.
Proof.
  intros Hbody k. induction k as [|k IH]; intros a w HI.
  - exists a, w. by split.
  - destruct (Hbody a w HI) as (a1 & w1 & E & HI1).
    destruct (IH a1 w1 HI1) as (a2 & w2 & E2 & HI2).
    exists a2, w2. split; [|done]. cbn. by rewrite (bind_ok _ _ _ _ _ E).
Qed.

(** The loop unrolled at its end: [k + 1] iterations are [k] iterations and
    one more execution of the body. *)
Lemma repeat_m_last {A} (body : A → M C A) k a :
  ∀ w, repeat_m (S k) body a w = (let! a' := repeat_m k body a in body a') w.
Proof.
  revert a. induction k as [|k IH]; intros a w.
  - cbn. unfold bind, ret. destruct (body a w) as [[??]| |]; reflexivity.
  - specialize (IH). cbn in *. unfold bind in *.
    destruct (body a w) as [[a1 w1]| |]; try reflexivity. apply IH.
Qed.

Lemma BIM_step_state (self : BIMAttack.t) (I P : tensor → Prop) x y (w0 : world C) xo yv :
  tensors w0 !! x = Some xo → labels w0 !! y = Some yv →
  (∀ t (w' : world C), I t → P (BIM_update self (data xo) t (loss_gradient w' t yv))) →
  ∀ xa w, BIM_state I w0 xa w →
  ∃ r w', BIMAttack.step self x y xa w = Ok (r, w') ∧ BIM_state P w0 r w'.
Proof.
  intros Hx Hy HP xa w (Hxa0 & (xao & Hxa & Hg & Hf & HI) & Hold & Hl & Hp & Ht).
  assert (x ≠ xa) as Hne by congruence.
  destruct (BIM_step_run self x y xa w xo xao yv) as
    (r & w' & E & Hr & Hv & Hold' & Hl' & Hp' & Ht' & _); auto.
  { by rewrite Hl. }
  exists r, w'. split; [done|]. repeat split.
  - destruct (tensors w0 !! r) eqn:E0; [|done]. apply Hold in E0. congruence.
  - eexists. split; [exact Hv|]. cbn. auto.
  - intros l o Hlo. apply Hold'; [congruence|auto].
  - congruence.
  - congruence.
  - congruence.
Qed.

Lemma BIM_clone_state (x : loc) (w : world C) xo :
  tensors w !! x = Some xo →
  ∃ xa w1, clone_detach x w = Ok (xa, w1) ∧ BIM_state (λ t, t = data xo) w xa w1 ∧
           mask_in_effect w1 = mask_in_effect w.
Proof.
  intros Hx. eexists _, _. split; [by apply clone_detach_run|].
  split; [|reflexivity].
  assert (tensors w !! fresh (dom (tensors w)) = None) as Hfr
    by apply fresh_tensor_None.
  repeat split; cbn.
  - done.
  - eexists. split; [apply lookup_insert_eq|]. done.
  - intros l o Hl. rewrite lookup_insert_ne by congruence. done.
Qed.

(** The state after the clone and [k] iterations, for a property [P] that
    every iteration establishes from a property [I] that holds of the input
    and follows from [P]. *)
Lemma BIM_run (self : BIMAttack.t) (I P : tensor → Prop) x y (w : world C) xo yv k :
  tensors w !! x = Some xo → labels w !! y = Some yv →
  I (data xo) → (∀ t, P t → I t) →
  (∀ t (w' : world C), I t → P (BIM_update self (data xo) t (loss_gradient w' t yv))) →
  ∃ r w', BIM_iterations self x y k w = Ok (r, w') ∧
          BIM_state (if k is O then I else P) w r w'.
Proof.
  intros Hx Hy HI HPI Hstep. unfold BIM_iterations.
  destruct (BIM_clone_state x w xo Hx) as (xa & w1 & E & Hst & _).
  rewrite (bind_ok _ _ _ _ _ E).
  assert (BIM_state I w xa w1) as Hst1.
  { destruct Hst as (? & (xao & ? & ? & ? & Hd) & ?). split; [done|].
    split; [|done]. exists xao. rewrite Hd. auto. }
  destruct k as [|k].
  - exists xa, w1. by split.
  - cbn. destruct (BIM_step_state self I P x y w xo yv Hx Hy Hstep xa w1 Hst1)
      as (r1 & w2 & E1 & Hst2).
    rewrite (bind_ok _ _ _ _ _ E1).
    apply repeat_m_invariant; [|done].
    intros a w' Ha. eapply BIM_step_state; eauto.
    destruct Ha as (? & (xao & ? & ? & ? & ?) & ?). split; [done|].
    split; [exists xao; auto|done].
Qed.

End Runs.

(** ** The attacks in a given arithmetic *)

(** With the exact arithmetic these are the methods of the two classes. *)
Lemma FGSM_perturb_exact {C : Classifier} :
  InArithmetic.FGSM_perturb (C:=C) exact = FGSMAttack.perturb.
Proof. reflexivity. Qed.

Lemma BIM_perturb_exact {C : Classifier} :
  InArithmetic.BIM_perturb (C:=C) exact = BIMAttack.perturb.
Proof. reflexivity. Qed.

Section RunsInArithmetic.
Context {C : Classifier} (A : arithmetic).

Lemma FGSM_run_in (self : FGSMAttack.t) x y (w : world C) xo yv :
  tensors w !! x = Some xo → labels w !! y = Some yv →
  ∃ r w', InArithmetic.FGSM_perturb A self x y w = Ok (r, w') ∧
    value_at w' r =
      Some (InArithmetic.FGSM_value A self (data xo) (loss_gradient w (data xo) yv)).
Proof.
  intros Hx Hy. unfold InArithmetic.FGSM_perturb.
  erewrite bind_ok by (by apply clone_detach_run).
  erewrite bind_ok by (apply set_requires_grad_run; apply lookup_insert_eq).
  erewrite bind_ok by (apply call_model_run; apply lookup_insert_eq).
  erewrite bind_ok by (by apply loss_fn_run).
  erewrite bind_ok by reflexivity.
  erewrite bind_ok
    by (eapply backward_run; [apply lookup_insert_eq|reflexivity|reflexivity]).
  erewrite bind_ok by (eapply get_grad_run; [apply lookup_insert_eq|reflexivity]).
  erewrite bind_ok by (eapply get_run; apply lookup_insert_eq).
  eexists _, _. split; [reflexivity|].
  unfold value_at. cbn. rewrite lookup_insert_eq. reflexivity.
Qed.

Lemma BIM_step_run_in (self : BIMAttack.t) x y xa (w : world C) xo xao yv :
  tensors w !! x = Some xo → tensors w !! xa = Some xao → x ≠ xa →
  grad xao = None → grad_fn xao = false → labels w !! y = Some yv →
  ∃ r w', InArithmetic.BIM_step A self x y xa w = Ok (r, w') ∧
    tensors w !! r = None ∧
    tensors w' !! r =
      Some (Tensor (InArithmetic.BIM_value A self (data xo) (data xao)
                      (loss_gradient w (data xao) yv))
              None false false) ∧
    (∀ l o, l ≠ xa → tensors w !! l = Some o → tensors w' !! l = Some o) ∧
    labels w' = labels w ∧
    parameters (model w') = parameters (model w) ∧
    training (model w') = training (model w).
Proof.
  intros Hx Hxa Hne Hg Hf Hy. unfold InArithmetic.BIM_step.
  erewrite bind_ok by (by apply set_requires_grad_run).
  erewrite bind_ok by (apply call_model_run; apply lookup_insert_eq).
  erewrite bind_ok by (by apply loss_fn_run).
  erewrite bind_ok by reflexivity.
  erewrite bind_ok
    by (eapply backward_run; [apply lookup_insert_eq|reflexivity|exact Hf]).
  erewrite bind_ok
    by (eapply get_grad_run; [apply lookup_insert_eq|cbn; rewrite Hg; reflexivity]).
  erewrite bind_ok by (eapply get_run; apply lookup_insert_eq).
  erewrite bind_ok
    by (eapply get_run; cbn; rewrite !lookup_insert_ne by congruence; exact Hx).
  match goal with
  | |- ∃ r w', alloc ?o ?W = _ ∧ _ => set (W1 := W); set (O := o)
  end.
  exists (fresh (dom (tensors W1))),
    (set_tensors (<[fresh (dom (tensors W1)) := O]> (tensors W1)) W1).
  split; [reflexivity|].
  assert (tensors W1 !! fresh (dom (tensors W1)) = None) as Hr
    by apply fresh_tensor_None.
  set (r := fresh (dom (tensors W1))) in *.
  assert (∀ l o, l ≠ xa → tensors w !! l = Some o → tensors W1 !! l = Some o) as Hold.
  { intros l o Hl Hlo. subst W1. cbn. by rewrite !lookup_insert_ne. }
  assert (tensors w !! r = None) as Hr'.
  { destruct (decide (r = xa)) as [->|Hra].
    - subst W1. cbn in Hr. by rewrite lookup_insert_eq in Hr.
    - destruct (tensors w !! r) eqn:E; [|done]. apply Hold in E; congruence. }
  split; [done|]. split.
  { cbn. rewrite lookup_insert_eq. subst O. reflexivity. }
  split.
  { intros l o Hl Hlo. cbn [tensors set_tensors].
    rewrite lookup_insert_ne by congruence. auto. }
  done.
Qed.

Lemma BIM_step_state_in (self : BIMAttack.t) (I P : tensor → Prop) x y (w0 : world C)
    xo yv :
  tensors w0 !! x = Some xo → labels w0 !! y = Some yv →
  (∀ t (w' : world C), I t →
     P (InArithmetic.BIM_value A self (data xo) t (loss_gradient w' t yv))) →
  ∀ xa w, BIM_state I w0 xa w →
  ∃ r w', InArithmetic.BIM_step A self x y xa w = Ok (r, w') ∧ BIM_state P w0 r w'.
Proof.
  intros Hx Hy HP xa w (Hxa0 & (xao & Hxa & Hg & Hf & HI) & Hold & Hl & Hp & Ht).
  assert (x ≠ xa) as Hne by congruence.
  destruct (BIM_step_run_in self x y xa w xo xao yv) as
    (r & w' & E & Hr & Hv & Hold' & Hl' & Hp' & Ht'); auto.
  { by rewrite Hl. }
  exists r, w'. split; [done|]. repeat split.
  - destruct (tensors w0 !! r) eqn:E0; [|done]. apply Hold in E0. congruence.
  - eexists. split; [exact Hv|]. cbn. auto.
  - intros l o Hlo. apply Hold'; [congruence|auto].
  - congruence.
  - congruence.
  - congruence.
Qed.

(** The state after the clone and [k] iterations, for a property [P] that
    every iteration establishes from a property [I] that holds of the input
    and follows from [P]. *)
Lemma BIM_run_in (self : BIMAttack.t) (I P : tensor → Prop) x y (w : world C) xo yv k :
  tensors w !! x = Some xo → labels w !! y = Some yv →
  I (data xo) → (∀ t, P t → I t) →
  (∀ t (w' : world C), I t →
     P (InArithmetic.BIM_value A self (data xo) t (loss_gradient w' t yv))) →
  ∃ r w', InArithmetic.BIM_iterations A self x y k w = Ok (r, w') ∧
          BIM_state (if k is O then I else P) w r w'.
Proof.
  intros Hx Hy HI HPI Hstep. unfold InArithmetic.BIM_iterations.
  destruct (BIM_clone_state x w xo Hx) as (xa & w1 & E & Hst & _).
  rewrite (bind_ok _ _ _ _ _ E).
  assert (BIM_state I w xa w1) as Hst1.
  { destruct Hst as (? & (xao & ? & ? & ? & Hd) & ?). split; [done|].
    split; [|done]. exists xao. rewrite Hd. auto. }
  destruct k as [|k].
  - exists xa, w1. by split.
  - cbn. destruct (BIM_step_state_in self I P x y w xo yv Hx Hy Hstep xa w1 Hst1)
      as (r1 & w2 & E1 & Hst2).
    rewrite (bind_ok _ _ _ _ _ E1).
    apply repeat_m_invariant; [|done].
    intros a w' Ha. eapply BIM_step_state_in; eauto.
    destruct Ha as (? & (xao & ? & ? & ? & ?) & ?). split; [done|].
    split; [exists xao; auto|done].
Qed.

End RunsInArithmetic.

(** ** The example classifier *)

Lemma Forall2_imap_r {A B} (R : A → B → Prop) (f : nat → A → B) (l : list A) :
  (∀ i u, R u (f i u)) → Forall2 R l (imap f l).
Proof.
  revert f. induction l as [|u l IH]; intros f H; simpl; constructor; auto.
  apply IH. intros. apply H.
Qed.

Lemma Toy_pattern_like_shape c x : same_shape x (Toy.pattern_like c x).
Proof.
  unfold same_shape, tall2, Toy.pattern_like.
  apply Forall2_imap_r. intros b img.
  eapply Forall2_fmap_r_intro; [apply (Forall2_diag eq (λ _, True));
    [by apply Forall_true|done]|].
  intros p ? <-. apply Forall2_imap_r. intros i row.
  apply Forall2_imap_r. done.
Qed.

Lemma Toy_grad_shaped : grad_shaped Toy.classifier.
Proof. intros θ m x o. apply Toy_pattern_like_shape. Qed.

Lemma Toy_image_in_unit_range : in_unit_range Toy.image.
Proof.
  unfold in_unit_range, tall, Toy.image. simpl.
  repeat constructor; unfold Qle; simpl; lia.
Qed.

Lemma Toy_image_floats : tall Float32.is_float Toy.image.
Proof. unfold tall, Toy.image. simpl. repeat constructor. Qed.

(** * The attacks *)



(** C3, amended.  In 32-bit floats, for [0 ≤ ε] in the range of the floats
    and an input of floats in [0, 1], the result of [FGSMAttack.perturb] is
    within [ε + 2^-22] of the input, element by element, and has its elements
    in [0, 1]; with [ε = 0] it equals the input. *)
Theorem FGSM_perturb_float32_bounded (C : Classifier) (self : FGSMAttack.t)
    (x y : loc) (w : world C) (xo : tobj) (yv : list Z) :
  grad_shaped C →
  0 <= FGSMAttack.epsilon self <= Float32.max_value →
  in_unit_range (data xo) → tall Float32.is_float (data xo) →
  tensors w !! x = Some xo → labels w !! y = Some yv →
  ∃ r w' out, InArithmetic.FGSM_perturb float32 self x y w = Ok (r, w') ∧
    value_at w' r = Some out ∧
    within (FGSMAttack.epsilon self + 2 ^ (-22)) out (data xo) ∧
    in_unit_range out ∧
    (FGSMAttack.epsilon self == 0 → teq out (data xo)).
Proof.
  intros HC [He _] Hu Hf Hx Hy.
  destruct (FGSM_run_in float32 self x y w xo yv Hx Hy) as (r & w' & E & Hv).
  eexists r, w', _. split; [exact E|]. split; [exact Hv|].
  split; [|split].
  - apply FGSM_value_float32_within; [apply HC|done..].
  - apply FGSM_value_float32_in_range.
  - intros H0. apply FGSM_value_float32_zero; [apply HC|done..].
Qed.

Lemma FGSM_perturb_float32_bounded_witness :
  ∃ r w' out,
    InArithmetic.FGSM_perturb float32 (FGSMAttack.New 0.1) Toy.x Toy.y
      (Toy.world0 1 false) = Ok (r, w') ∧
    value_at w' r = Some out ∧
    within (0.1 + 2 ^ (-22)) out Toy.image ∧
    in_unit_range out ∧
    (0.1 == 0 → teq out Toy.image).
Proof.
  apply (FGSM_perturb_float32_bounded Toy.classifier (FGSMAttack.New 0.1)
           Toy.x Toy.y (Toy.world0 1 false)
           (Tensor Toy.image None false false) [0%Z]).
  - exact Toy_grad_shaped.
  - split; vm_compute; discriminate.
  - exact Toy_image_in_unit_range.
  - exact Toy_image_floats.
  - reflexivity.
  - reflexivity.
Defined.

(** C3 as stated fails in the arithmetic of the code: on the image with
    every element 0.5 and with [ε = 0.1], the elements that move up become
    0.5 + 0.1 rounded to a float, 0.60000002384185791015625, which is more
    than [ε] away from 0.5. *)
Lemma FGSM_perturb_float32_counterexample :
  ∃ r w' out,
    in_unit_range Toy.image ∧ tall Float32.is_float Toy.image ∧
    InArithmetic.FGSM_perturb float32 (FGSMAttack.New 0.1) Toy.x Toy.y
      (Toy.world0 1 false) = Ok (r, w') ∧
    value_at w' r = Some out ∧
    teq out
      [[ [[5033165 # 8388608; 0.5; 13421773 # 33554432; 5033165 # 8388608];
          [0.5; 13421773 # 33554432; 5033165 # 8388608; 0.5];
          [13421773 # 33554432; 5033165 # 8388608; 0.5; 13421773 # 33554432];
          [5033165 # 8388608; 0.5; 13421773 # 33554432; 5033165 # 8388608]] ]] ∧
    ¬ within 0.1 out Toy.image.
Proof.
  destruct (FGSM_run_in (C:=Toy.classifier) float32 (FGSMAttack.New 0.1) Toy.x Toy.y
              (Toy.world0 1 false) (Tensor Toy.image None false false) [0%Z])
    as (r & w' & E & Hv); [reflexivity|reflexivity|].
  eexists r, w', _.
  split; [exact Toy_image_in_unit_range|]. split; [exact Toy_image_floats|].
  split; [exact E|]. split; [exact Hv|]. split.
  - unfold teq, tall2. vm_compute. repeat constructor.
  - intros H. apply withinb_complete in H. vm_compute in H. discriminate H.
Qed.

(** The result of the loop, read from its final state. *)
Lemma BIM_state_value {C : Classifier} (P : tensor → Prop) (w0 w : world C) r :
  BIM_state P w0 r w → ∃ out, value_at w r = Some out ∧ P out.
Proof.
  intros (_ & (xao & Hr & _ & _ & HP) & _). exists (data xao).
  split; [|exact HP]. unfold value_at. by rewrite Hr.
Qed.

Lemma BIM_perturb_iterations {C : Classifier} (self : BIMAttack.t) x y :
  BIMAttack.perturb (C:=C) self x y
  = BIM_iterations self x y (Z.to_nat (BIMAttack.iters self)).
Proof. reflexivity. Qed.

(** C2, amended.  In 32-bit floats, for [0 ≤ ε] and a step size in the range
    of the floats and an input of floats in [0, 1], after every iteration of
    [BIMAttack.perturb], and so for its result when there is at least one
    iteration, [x_adv] is within [ε + 2^-22] of the input, element by
    element, and has its elements in [0, 1]. *)
Theorem BIM_perturb_float32_invariant (C : Classifier) (self : BIMAttack.t)
    (x y : loc) (w : world C) (xo : tobj) (yv : list Z) :
  grad_shaped C →
  0 <= BIMAttack.epsilon self <= Float32.max_value →
  Qabs (BIMAttack.alpha self) <= Float32.max_value →
  in_unit_range (data xo) → tall Float32.is_float (data xo) →
  tensors w !! x = Some xo → labels w !! y = Some yv →
  (∀ k, (1 ≤ k)%nat →
     ∃ r w' out, InArithmetic.BIM_iterations float32 self x y k w = Ok (r, w') ∧
       value_at w' r = Some out ∧
       within (BIMAttack.epsilon self + 2 ^ (-22)) out (data xo) ∧
       in_unit_range out) ∧
  ((1 ≤ BIMAttack.iters self)%Z →
     ∃ r w' out, InArithmetic.BIM_perturb float32 self x y w = Ok (r, w') ∧
       value_at w' r = Some out ∧
       within (BIMAttack.epsilon self + 2 ^ (-22)) out (data xo) ∧
       in_unit_range out).
Proof.
  intros HC [He _] _ Hu _ Hx Hy.
  assert (∀ k, (1 ≤ k)%nat →
     ∃ r w' out, InArithmetic.BIM_iterations float32 self x y k w = Ok (r, w') ∧
       value_at w' r = Some out ∧
       within (BIMAttack.epsilon self + 2 ^ (-22)) out (data xo) ∧
       in_unit_range out) as Hk.
  { intros k Hk.
    destruct (BIM_run_in float32 self (same_shape (data xo))
                (λ t, within (BIMAttack.epsilon self + 2 ^ (-22)) t (data xo) ∧
                      in_unit_range t)
                x y w xo yv k Hx Hy) as (r & w' & E & Hst).
    - apply same_shape_refl.
    - intros t [Ht _]. apply same_shape_sym. by eapply same_shape_of.
    - intros t w1 Ht. split; [|apply BIM_value_float32_in_range].
      apply BIM_value_float32_within; [done|apply HC|done..].
    - destruct k as [|k]; [lia|].
      destruct (BIM_state_value _ _ _ _ Hst) as (out & Hv & Hw & Hr).
      by exists r, w', out. }
  split; [exact Hk|].
  intros HN. unfold InArithmetic.BIM_perturb. apply Hk. lia.
Qed.

Lemma BIM_perturb_float32_invariant_witness :
  ∃ r w' out,
    InArithmetic.BIM_perturb float32 (BIMAttack.New 0.1 0.04 5) Toy.x Toy.y
      (Toy.world0 1 true) = Ok (r, w') ∧
    value_at w' r = Some out ∧ within (0.1 + 2 ^ (-22)) out Toy.image ∧
    in_unit_range out.
Proof.
  apply (BIM_perturb_float32_invariant Toy.classifier (BIMAttack.New 0.1 0.04 5)
           Toy.x Toy.y (Toy.world0 1 true)
           (Tensor Toy.image None false false) [0%Z]).
  - exact Toy_grad_shaped.
  - split; vm_compute; discriminate.
  - vm_compute; discriminate.
  - exact Toy_image_in_unit_range.
  - exact Toy_image_floats.
  - reflexivity.
  - reflexivity.
  - simpl. lia.
Defined.

(** C2 as stated fails in the arithmetic of the code: on the image with
    every element 0.5, with [ε = 0.1], [α = 0.04] and 5 iterations, the
    elements that move up end at 0.5 plus the float of 0.1, rounded to a
    float: 0.60000002384185791015625, more than [ε] away from 0.5. *)
Lemma BIM_perturb_float32_counterexample :
  ∃ r w' out,
    in_unit_range Toy.image ∧ tall Float32.is_float Toy.image ∧
    InArithmetic.BIM_perturb float32 (BIMAttack.New 0.1 0.04 5) Toy.x Toy.y
      (Toy.world0 1 false) = Ok (r, w') ∧
    value_at w' r = Some out ∧
    teq out
      [[ [[5033165 # 8388608; 0.5; 13421773 # 33554432; 5033165 # 8388608];
          [0.5; 13421773 # 33554432; 5033165 # 8388608; 0.5];
          [13421773 # 33554432; 5033165 # 8388608; 0.5; 13421773 # 33554432];
          [5033165 # 8388608; 0.5; 13421773 # 33554432; 5033165 # 8388608]] ]] ∧
    ¬ within 0.1 out Toy.image.
Proof.
  assert (match InArithmetic.BIM_perturb float32 (BIMAttack.New 0.1 0.04 5) Toy.x Toy.y
                  (Toy.world0 1 false) with
          | Ok (r, w') =>
              match value_at w' r with
              | Some out =>
                  teqb out
                    [[ [[5033165 # 8388608; 0.5; 13421773 # 33554432; 5033165 # 8388608];
                        [0.5; 13421773 # 33554432; 5033165 # 8388608; 0.5];
                        [13421773 # 33554432; 5033165 # 8388608; 0.5;
                         13421773 # 33554432];
                        [5033165 # 8388608; 0.5; 13421773 # 33554432;
                         5033165 # 8388608]] ]] = true ∧
                  tall2b (λ u v, Qle_bool (Qabs (u - v)) 0.1) out Toy.image = false
              | None => False
              end
          | _ => False
          end) as H by (vm_compute; split; reflexivity).
  destruct (InArithmetic.BIM_perturb float32 (BIMAttack.New 0.1 0.04 5) Toy.x Toy.y
              (Toy.world0 1 false)) as [[r w']| |] eqn:E; [|destruct H..].
  destruct (value_at w' r) as [out|] eqn:Ev; [|destruct H]. destruct H as [H1 H2].
  exists r, w', out.
  split; [exact Toy_image_in_unit_range|]. split; [exact Toy_image_floats|].
  split; [reflexivity|]. split; [exact Ev|]. split.
  - by apply teqb_sound.
  - intros H. apply withinb_complete in H. congruence.
Qed.

(** The first iteration of [BIMAttack.perturb]. *)
Lemma BIM_first_iteration {C : Classifier} (self : BIMAttack.t) x y (w : world C) xo yv :
  tensors w !! x = Some xo → labels w !! y = Some yv →
  ∃ r w', BIM_iterations self x y 1 w = Ok (r, w') ∧
    value_at w' r =
      Some (BIM_update self (data xo) (data xo) (loss_gradient w (data xo) yv)).
Proof.
  intros Hx Hy. unfold BIM_iterations.
  destruct (BIM_clone_state x w xo Hx)
    as (xa & w1 & E & (Hxa & (xao & Hxao & Hg & Hf & Hd) & Hold & Hl & Hp & Ht) & Hm).
  rewrite (bind_ok _ _ _ _ _ E). cbn.
  destruct (BIM_step_run self x y xa w1 xo xao yv)
    as (r & w' & E1 & _ & Hv & _); auto.
  { congruence. }
  { by rewrite Hl. }
  rewrite (bind_ok _ _ _ _ _ E1). exists r, w'. split; [reflexivity|].
  unfold value_at. rewrite Hv. cbn. rewrite Hd.
  unfold loss_gradient. by rewrite Hm, Hp.
Qed.

(** C4.  For a budget [ε ≥ 0], [BIMAttack.perturb] with one iteration and
    step size [ε] returns the same elements as [FGSMAttack.perturb] with the
    same [ε] on the same input, labels and classifier. *)
Theorem BIM_one_iteration_is_FGSM (C : Classifier) (eps : Q)
    (x y : loc) (w : world C) (xo : tobj) (yv : list Z) :
  0 <= eps →
  tensors w !! x = Some xo → labels w !! y = Some yv →
  ∃ r1 w1 out1 r2 w2 out2,
    FGSMAttack.perturb (FGSMAttack.New eps) x y w = Ok (r1, w1) ∧
    value_at w1 r1 = Some out1 ∧
    BIMAttack.perturb (BIMAttack.New eps eps 1) x y w = Ok (r2, w2) ∧
    value_at w2 r2 = Some out2 ∧
    teq out2 out1.
Proof.
  intros He Hx Hy.
  destruct (FGSM_run (FGSMAttack.New eps) x y w xo yv Hx Hy)
    as (r1 & w1 & E1 & _ & Hv1 & _).
  destruct (BIM_first_iteration (BIMAttack.New eps eps 1) x y w xo yv Hx Hy)
    as (r2 & w2 & E2 & Hv2).
  eexists r1, w1, _, r2, w2, _. split; [exact E1|]. split.
  { unfold value_at. rewrite Hv1. reflexivity. }
  split; [exact E2|]. split; [exact Hv2|].
  rewrite first_iteration_fused. cbn. unfold clip_step, teq.
  apply tall2_tzip_both. intros u v. by apply one_iteration_single_step.
Qed.

Lemma BIM_one_iteration_is_FGSM_witness :
  ∃ r1 w1 out1 r2 w2 out2,
    FGSMAttack.perturb (FGSMAttack.New 0.1) Toy.x Toy.y (Toy.world0 1 false)
    = Ok (r1, w1) ∧
    value_at w1 r1 = Some out1 ∧
    BIMAttack.perturb (BIMAttack.New 0.1 0.1 1) Toy.x Toy.y (Toy.world0 1 false)
    = Ok (r2, w2) ∧
    value_at w2 r2 = Some out2 ∧
    teq out2 out1.
Proof.
  apply (BIM_one_iteration_is_FGSM Toy.classifier 0.1 Toy.x Toy.y
           (Toy.world0 1 false) (Tensor Toy.image None false false) [0%Z]).
  - unfold Qle. simpl. lia.
  - reflexivity.
  - reflexivity.
Defined.

(** C10.  Whatever the elements of the input, the budget and the step size,
    every element of the result of [FGSMAttack.perturb], and of
    [BIMAttack.perturb] with at least one iteration, lies in [0, 1]. *)
Theorem attacks_result_in_unit_range (C : Classifier)
    (x y : loc) (w : world C) (xo : tobj) (yv : list Z) :
  tensors w !! x = Some xo → labels w !! y = Some yv →
  (∀ self : FGSMAttack.t,
     ∃ r w' out, FGSMAttack.perturb self x y w = Ok (r, w') ∧
       value_at w' r = Some out ∧ in_unit_range out) ∧
  (∀ self : BIMAttack.t, (1 ≤ BIMAttack.iters self)%Z →
     ∃ r w' out, BIMAttack.perturb self x y w = Ok (r, w') ∧
       value_at w' r = Some out ∧ in_unit_range out).
Proof.
  intros Hx Hy. split.
  - intros self.
    destruct (FGSM_run self x y w xo yv Hx Hy) as (r & w' & E & _ & Hv & _).
    eexists r, w', _. split; [exact E|]. split.
    { unfold value_at. rewrite Hv. reflexivity. }
    apply clip_step_in_range.
  - intros self HN. rewrite BIM_perturb_iterations.
    destruct (BIM_run self (λ _, True) in_unit_range x y w xo yv
                (Z.to_nat (BIMAttack.iters self)) Hx Hy) as (r & w' & E & Hst);
      [done|done|intros; apply BIM_update_in_range|].
    destruct (Z.to_nat (BIMAttack.iters self)) as [|k] eqn:Ek; [lia|].
    destruct (BIM_state_value _ _ _ _ Hst) as (out & Hv & Hr).
    by exists r, w', out.
Qed.

Lemma attacks_result_in_unit_range_witness :
  (∃ r w' out,
     FGSMAttack.perturb (FGSMAttack.New 3) Toy.x Toy.y
       (World {[ Toy.x := Tensor [[ [[-2; 0.5]; [7; 1]] ]] None false false ]}
              {[ Toy.y := [1%Z] ]} ∅ (Module (1 : params Toy.classifier) None true None)
              (0%nat : generator Toy.classifier))
     = Ok (r, w') ∧ value_at w' r = Some out ∧ in_unit_range out) ∧
  (∃ r w' out,
     BIMAttack.perturb (BIMAttack.New (-2) 5 4) Toy.x Toy.y
       (World {[ Toy.x := Tensor [[ [[-2; 0.5]; [7; 1]] ]] None false false ]}
              {[ Toy.y := [1%Z] ]} ∅ (Module (1 : params Toy.classifier) None true None)
              (0%nat : generator Toy.classifier))
     = Ok (r, w') ∧ value_at w' r = Some out ∧ in_unit_range out).
Proof.
  destruct (attacks_result_in_unit_range Toy.classifier Toy.x Toy.y
           (World {[ Toy.x := Tensor [[ [[-2; 0.5]; [7; 1]] ]] None false false ]}
              {[ Toy.y := [1%Z] ]} ∅ (Module (1 : params Toy.classifier) None true None)
              (0%nat : generator Toy.classifier))
           (Tensor [[ [[-2; 0.5]; [7; 1]] ]] None false false) [1%Z]) as [HF HB];
    [reflexivity|reflexivity|].
  split.
  - apply (HF (FGSMAttack.New 3)).
  - apply (HB (BIMAttack.New (-2) 5 4)). simpl. lia.
Defined.

(** * Grad-CAM *)

Section GradCAMRuns.
Context {C : Classifier}.

(** [backward] always returns; it changes no element of a tensor. *)
Lemma backward_total (s : scalar) (w : world C) :
  ∃ w', backward s w = Ok (tt, w') ∧
    cams w' =
      backward_hook (g_params (s_graph s)) (g_mask (s_graph s)) (g_value (s_graph s))
        (s_objective s) <$> cams w ∧
    (∀ l, data <$> tensors w' !! l = data <$> tensors w !! l).
Proof.
  unfold backward. eexists. split; [reflexivity|]. split; [reflexivity|].
  intros l. cbn.
  destruct (tensors w !! g_input (s_graph s)) as [xo|] eqn:E; [|done].
  destruct (requires_grad xo && negb (grad_fn xo)); [|done].
  destruct (decide (l = g_input (s_graph s))) as [->|Hne].
  - rewrite lookup_insert_eq, E. reflexivity.
  - by rewrite lookup_insert_ne.
Qed.

Lemma select_score_run (g : graph) (c : Z) (w : world C) row rest k :
  logits C (g_params g) (g_mask g) (g_value g) = row :: rest →
  py_index (length row) c = Some k →
  select_score g c w = Ok (Scalar g (Score k), w).
Proof. intros Hl Hk. unfold select_score. rewrite Hl, Hk. reflexivity. Qed.

Lemma select_score_raise (g : graph) (c : Z) (w : world C) :
  match logits C (g_params g) (g_mask g) (g_value g) with
  | [] => None
  | row :: _ => py_index (length row) c
  end = None →
  select_score g c w = Raise IndexError.
Proof.
  intros H. unfold select_score.
  destruct (logits C (g_params g) (g_mask g) (g_value g)); [done|].
  by rewrite H.
Qed.

(** A call of [generate] on an image and a class that [output] has: the
    outcome is that of the tensor computation on the captured state. *)
Lemma generate_run self img c (w : world C) io cam k :
  tensors w !! img = Some io → cams w !! self = Some cam →
  selected_class w (data io) c = Some k →
  match cam_value (spatial_size (data io)) (captured w (data io) k cam) with
  | Ok t => ∃ r w', GradCAM.generate self img c w = Ok (r, w') ∧
                    value_at w' r = Some t
  | Raise e => GradCAM.generate self img c w = Raise e
  | NotFinite => GradCAM.generate self img c w = NotFinite
  end.
Proof.
  intros Himg Hcam Hk. unfold GradCAM.generate.
  erewrite bind_ok by reflexivity.
  erewrite bind_ok by (by apply call_model_run).
  unfold selected_class in Hk.
  destruct (logits C (parameters (model w)) (mask_in_effect w) (data io))
    as [|row rest] eqn:Hl; [done|].
  erewrite bind_ok by (eapply select_score_run; [exact Hl|exact Hk]).
  match goal with
  | |- context [bind (backward ?s) _ ?W] =>
      destruct (backward_total s W) as (w3 & E3 & Hc3 & Hd3)
  end.
  rewrite (bind_ok _ _ _ _ _ E3). cbn in Hc3, Hd3.
  assert (cams w3 !! self = Some (captured w (data io) k cam)) as Hself.
  { rewrite Hc3, !lookup_fmap, Hcam. reflexivity. }
  erewrite bind_ok by (unfold GradCAM.get_self; rewrite Hself; reflexivity).
  unfold cam_value.
  destruct (gradients (captured w (data io) k cam)) as [g|]; [|reflexivity].
  destruct (activations (captured w (data io) k cam)) as [a|]; [|reflexivity].
  destruct (GradCAM.broadcastable (GradCAM.t_mean_hw g) a); [|reflexivity].
  cbn [negb].
  destruct (tensors w3 !! img) as [io3|] eqn:Himg3.
  2:{ specialize (Hd3 img). rewrite Himg3, Himg in Hd3. done. }
  assert (data io3 = data io) as Hio.
  { specialize (Hd3 img). rewrite Himg3, Himg in Hd3. by injection Hd3. }
  rewrite (bind_ok _ _ _ _ _ (get_run _ _ _ Himg3)). rewrite Hio.
  set (m0 := t_relu (GradCAM.t_sum_channels (GradCAM.t_bmul (GradCAM.t_mean_hw g) a))).
  unfold GradCAM.interpolate.
  destruct (spatial_size m0) as [in_h in_w] eqn:Hsz. cbn [fst snd].
  destruct (Nat.eqb in_h 0 || Nat.eqb in_w 0
            || Nat.eqb (spatial_size (data io)).1 0
            || Nat.eqb (spatial_size (data io)).2 0); [reflexivity|].
  erewrite bind_ok by reflexivity.
  set (m1 := fmap (fmap (GradCAM.resize_plane _ _)) m0).
  unfold GradCAM.t_min, GradCAM.t_max.
  destruct (GradCAM.q_min (flatten m1)) as [mn|] eqn:Hmn; [|reflexivity].
  erewrite bind_ok by reflexivity.
  destruct (GradCAM.q_max (flatten m1)) as [mx|] eqn:Hmx; [|reflexivity].
  erewrite bind_ok by reflexivity.
  erewrite bind_ok by reflexivity.
  unfold GradCAM.div_scalar.
  destruct (Qeq_bool (mx - mn + 1e-8) 0); [reflexivity|].
  erewrite bind_ok by reflexivity.
  eexists _, _. split; [reflexivity|].
  unfold value_at. cbn. by rewrite lookup_insert_eq.
Qed.

(** Otherwise the call raises [NameError] or [IndexError]. *)
Lemma generate_no_input self img c (w : world C) :
  tensors w !! img = None → GradCAM.generate self img c w = Raise NameError.
Proof.
  intros H. unfold GradCAM.generate.
  erewrite bind_ok by reflexivity.
  apply bind_raise. unfold call_model. apply bind_raise.
  unfold get. cbn. by rewrite H.
Qed.

Lemma generate_no_class self img c (w : world C) io :
  tensors w !! img = Some io → selected_class w (data io) c = None →
  GradCAM.generate self img c w = Raise IndexError.
Proof.
  intros Himg Hk. unfold GradCAM.generate.
  erewrite bind_ok by reflexivity.
  erewrite bind_ok by (by apply call_model_run).
  apply bind_raise. by apply select_score_raise.
Qed.

Lemma generate_no_self self img c (w : world C) io k :
  tensors w !! img = Some io → selected_class w (data io) c = Some k →
  cams w !! self = None →
  GradCAM.generate self img c w = Raise NameError.
Proof.
  intros Himg Hk Hcam. unfold GradCAM.generate.
  erewrite bind_ok by reflexivity.
  erewrite bind_ok by (by apply call_model_run).
  unfold selected_class in Hk.
  destruct (logits C (parameters (model w)) (mask_in_effect w) (data io))
    as [|row rest] eqn:Hl; [done|].
  erewrite bind_ok by (eapply select_score_run; [exact Hl|exact Hk]).
  match goal with
  | |- context [bind (backward ?s) _ ?W] =>
      destruct (backward_total s W) as (w3 & E3 & Hc3 & Hd3)
  end.
  rewrite (bind_ok _ _ _ _ _ E3). cbn in Hc3.
  apply bind_raise. unfold GradCAM.get_self.
  by rewrite Hc3, !lookup_fmap, Hcam.
Qed.

End GradCAMRuns.

(** ** Minimum, maximum and normalization *)

Lemma Qmin_cases u v : Qmin u v = u ∨ Qmin u v = v.
Proof. unfold Qmin, GenericMinMax.gmin. destruct (u ?= v); auto. Qed.

Lemma Qmax_cases u v : Qmax u v = u ∨ Qmax u v = v.
Proof. unfold Qmax, GenericMinMax.gmax. destruct (u ?= v); auto. Qed.

Lemma foldl_Qmin_le l v :
  foldl Qmin v l <= v ∧ Forall (λ u, foldl Qmin v l <= u) l.
Proof.
  revert v. induction l as [|u l IH]; intros v; simpl.
  - split; [lra|constructor].
  - destruct (IH (Qmin v u)) as [H1 H2].
    pose proof (Q.le_min_l v u). pose proof (Q.le_min_r v u).
    split; [lra|]. constructor; [lra|exact H2].
Qed.

Lemma foldl_Qmax_ge l v :
  v <= foldl Qmax v l ∧ Forall (λ u, u <= foldl Qmax v l) l.
Proof.
  revert v. induction l as [|u l IH]; intros v; simpl.
  - split; [lra|constructor].
  - destruct (IH (Qmax v u)) as [H1 H2].
    pose proof (Q.le_max_l v u). pose proof (Q.le_max_r v u).
    split; [lra|]. constructor; [lra|exact H2].
Qed.

Lemma foldl_Qmin_elem l v : foldl Qmin v l ∈ v :: l.
Proof.
  revert v. induction l as [|u l IH]; intros v; simpl; [by left|].
  specialize (IH (Qmin v u)). apply elem_of_cons in IH as [E|Hin].
  - rewrite E. destruct (Qmin_cases v u) as [-> | ->]; [by left|right; by left].
  - right. by right.
Qed.

Lemma foldl_Qmax_elem l v : foldl Qmax v l ∈ v :: l.
Proof.
  revert v. induction l as [|u l IH]; intros v; simpl; [by left|].
  specialize (IH (Qmax v u)). apply elem_of_cons in IH as [E|Hin].
  - rewrite E. destruct (Qmax_cases v u) as [-> | ->]; [by left|right; by left].
  - right. by right.
Qed.

Lemma q_min_le l mn : GradCAM.q_min l = Some mn → Forall (λ u, mn <= u) l.
Proof.
  destruct l as [|v l]; [done|]. intros [= <-].
  destruct (foldl_Qmin_le l v). by constructor.
Qed.

Lemma q_max_ge l mx : GradCAM.q_max l = Some mx → Forall (λ u, u <= mx) l.
Proof.
  destruct l as [|v l]; [done|]. intros [= <-].
  destruct (foldl_Qmax_ge l v). by constructor.
Qed.

Lemma q_min_elem l mn : GradCAM.q_min l = Some mn → mn ∈ l.
Proof. destruct l as [|v l]; [done|]. intros [= <-]. apply foldl_Qmin_elem. Qed.

Lemma q_max_elem l mx : GradCAM.q_max l = Some mx → mx ∈ l.
Proof. destruct l as [|v l]; [done|]. intros [= <-]. apply foldl_Qmax_elem. Qed.

Lemma q_min_le_max l mn mx :
  GradCAM.q_min l = Some mn → GradCAM.q_max l = Some mx → mn <= mx.
Proof.
  intros Hmn Hmx. pose proof (q_min_elem _ _ Hmn) as Hin.
  pose proof (q_max_ge _ _ Hmx) as Hall.
  rewrite Forall_forall in Hall. by apply Hall.
Qed.

Lemma tall_flatten (P : Q → Prop) t : tall P t ↔ Forall P (flatten t).
Proof.
  unfold tall, flatten. rewrite !Forall_concat. reflexivity.
Qed.

Lemma tall_tmap_impl (P P' : Q → Prop) f t :
  tall P' t → (∀ v, P' v → P (f v)) → tall P (tmap f t).
Proof.
  unfold tall, tmap. intros H Hf.
  apply Forall_fmap. eapply Forall_impl; [exact H|]; clear H. intros ? H.
  apply Forall_fmap. eapply Forall_impl; [exact H|]; clear H. intros ? H.
  apply Forall_fmap. eapply Forall_impl; [exact H|]; clear H. intros ? H.
  apply Forall_fmap. eapply Forall_impl; [exact H|]; clear H. exact Hf.
Qed.

(** The stability constant keeps the divisor positive. *)
Lemma stabilized_divisor_positive mn mx : mn <= mx → 0 < mx - mn + 1e-8.
Proof. intros H. assert (0 < 1e-8) by (unfold Qlt; simpl; lia). lra. Qed.

Lemma normalized_in_unit_range mn mx v :
  mn <= v <= mx → 0 <= (v - mn) / (mx - mn + 1e-8) <= 1.
Proof.
  intros [H1 H2].
  assert (0 < mx - mn + 1e-8) as Hd by (apply stabilized_divisor_positive; lra).
  assert (0 < 1e-8) by (unfold Qlt; simpl; lia).
  split.
  - apply Qle_shift_div_l; [exact Hd|lra].
  - apply Qle_shift_div_r; [exact Hd|lra].
Qed.

Section CamValue.
Context {C : Classifier}.

(** The result of the tensor computation is a normalized map. *)
Lemma cam_value_Ok_inv size (cam : gradcam C) t :
  cam_value size cam = Ok t →
  ∃ g a m1 mn mx,
    gradients cam = Some g ∧ activations cam = Some a ∧
    m1 = fmap (M:=list) (fmap (M:=list) (GradCAM.resize_plane size.1 size.2))
           (t_relu (GradCAM.t_sum_channels (GradCAM.t_bmul (GradCAM.t_mean_hw g) a))) ∧
    GradCAM.q_min (flatten m1) = Some mn ∧ GradCAM.q_max (flatten m1) = Some mx ∧
    t = tmap (λ v, v / (mx - mn + 1e-8)) (tmap (λ v, v - mn) m1).
Proof.
  unfold cam_value. intros H.
  destruct (gradients cam) as [g|]; [|done].
  destruct (activations cam) as [a|]; [|done].
  destruct (GradCAM.broadcastable _ _); [|done]. cbn [negb] in H.
  destruct (_ || _); [done|].
  destruct (GradCAM.q_min _) as [mn|] eqn:Hmn; [|done].
  destruct (GradCAM.q_max _) as [mx|] eqn:Hmx; [|done].
  destruct (Qeq_bool _ _); [done|].
  injection H as <-. by eexists g, a, _, mn, mx.
Qed.

Lemma cam_value_in_unit_range size (cam : gradcam C) t :
  cam_value size cam = Ok t → in_unit_range t.
Proof.
  intros H. destruct (cam_value_Ok_inv _ _ _ H)
    as (g & a & m1 & mn & mx & _ & _ & _ & Hmn & Hmx & ->).
  rewrite (tmap_tmap _ _ (λ v, (v - mn) / (mx - mn + 1e-8))) by done.
  apply tall_tmap_impl with (P' := λ v, mn <= v <= mx).
  - apply tall_flatten. apply Forall_and. split.
    + by apply q_min_le.
    + by apply q_max_ge.
  - intros v Hv. by apply normalized_in_unit_range.
Qed.

(** The division of the normalization never has a zero divisor. *)
Lemma cam_value_finite size (cam : gradcam C) : cam_value size cam ≠ NotFinite.
Proof.
  unfold cam_value.
  destruct (gradients cam) as [g|]; [|done].
  destruct (activations cam) as [a|]; [|done].
  destruct (GradCAM.broadcastable _ _); [|done]. cbn [negb].
  destruct (_ || _); [done|].
  destruct (GradCAM.q_min _) as [mn|] eqn:Hmn; [|done].
  destruct (GradCAM.q_max _) as [mx|] eqn:Hmx; [|done].
  destruct (Qeq_bool _ _) eqn:E; [|done].
  apply Qeq_bool_eq in E.
  pose proof (stabilized_divisor_positive mn mx (q_min_le_max _ _ _ Hmn Hmx)).
  lra.
Qed.

End CamValue.

(** ** A gradient that is zero everywhere *)

Lemma Forall_zip_with_l {A B D} (P1 : A → Prop) (P : D → Prop) (f : A → B → D) l k :
  Forall P1 l → (∀ x y, P1 x → P (f x y)) → Forall P (zip_with f l k).
Proof.
  intros H Hf. revert k. induction H; intros [|y k]; simpl; constructor; auto.
Qed.

Lemma Forall_zip_with_both {A B D} (P1 : A → Prop) (P2 : B → Prop) (P : D → Prop)
    (f : A → B → D) l k :
  Forall P1 l → Forall P2 k → (∀ x y, P1 x → P2 y → P (f x y)) →
  Forall P (zip_with f l k).
Proof.
  intros H. revert k. induction H; intros k Hk Hf; destruct Hk; simpl;
    constructor; auto.
Qed.

Lemma Forall_fmap_impl {A B} (P1 : A → Prop) (P : B → Prop) (f : A → B) l :
  Forall P1 l → (∀ x, P1 x → P (f x)) → Forall P (f <$> l).
Proof. intros H Hf. induction H; simpl; constructor; auto. Qed.

Lemma Forall_bzip_l {A B D} (P1 : A → Prop) (P : D → Prop) (f : A → B → D) la lb :
  Forall P1 la → (∀ x y, P1 x → P (f x y)) → Forall P (GradCAM.bzip f la lb).
Proof.
  intros H Hf. unfold GradCAM.bzip.
  destruct la as [|a [|a' la]].
  - destruct lb as [|b [|b' lb]]; constructor.
  - inversion H; subst. apply Forall_fmap_intro. auto.
  - destruct lb as [|b [|b' lb]].
    + constructor.
    + eapply Forall_fmap_impl; [exact H|]. auto.
    + eapply Forall_zip_with_l; [exact H|]. auto.
Qed.

Lemma Forall_nth_default {A} (P : A → Prop) l d i :
  Forall P l → P d → P (nth i l d).
Proof.
  intros H Hd. revert i. induction H; intros [|i]; simpl; auto.
Qed.

Lemma qsum_zero l : Forall is_zero l → GradCAM.qsum l == 0.
Proof.
  unfold is_zero. induction 1 as [|v l Hv _ IH]; simpl; [reflexivity|].
  rewrite Hv, IH. reflexivity.
Qed.

Lemma plane_mean_zero p : Forall (Forall is_zero) p → GradCAM.plane_mean p == 0.
Proof.
  intros H. unfold GradCAM.plane_mean, Qdiv.
  rewrite qsum_zero; [ring|]. by apply Forall_concat.
Qed.

Lemma t_mean_hw_zero g : tall is_zero g → tall is_zero (GradCAM.t_mean_hw g).
Proof.
  unfold tall, GradCAM.t_mean_hw. intros H.
  eapply Forall_fmap_impl; [exact H|]; clear H. intros img H.
  eapply Forall_fmap_impl; [exact H|]; clear H. intros p H.
  repeat constructor. by apply plane_mean_zero.
Qed.

Lemma t_bmul_zero wts a : tall is_zero wts → tall is_zero (GradCAM.t_bmul wts a).
Proof.
  unfold tall, GradCAM.t_bmul. intros H.
  eapply Forall_bzip_l; [exact H|]; clear H. intros ?? H.
  eapply Forall_bzip_l; [exact H|]; clear H. intros ?? H.
  eapply Forall_bzip_l; [exact H|]; clear H. intros ?? H.
  eapply Forall_bzip_l; [exact H|]; clear H. intros u v H.
  unfold is_zero in *. rewrite H. ring.
Qed.

Lemma plane_add_zero p q :
  Forall (Forall is_zero) p → Forall (Forall is_zero) q →
  Forall (Forall is_zero) (GradCAM.plane_add p q).
Proof.
  intros Hp Hq. unfold GradCAM.plane_add.
  eapply Forall_zip_with_both; [exact Hp|exact Hq|]. intros r1 r2 H1 H2.
  eapply Forall_zip_with_both; [exact H1|exact H2|]. intros u v Hu Hv.
  unfold is_zero in *. rewrite Hu, Hv. reflexivity.
Qed.

Lemma sum_planes_zero channels :
  Forall (Forall (Forall is_zero)) channels →
  Forall (Forall is_zero) (GradCAM.sum_planes channels).
Proof.
  unfold GradCAM.sum_planes. destruct 1 as [|p ps Hp Hps]; [constructor|].
  revert p Hp. induction Hps as [|q ps Hq _ IH]; intros p Hp; simpl; [done|].
  apply IH. by apply plane_add_zero.
Qed.

Lemma t_sum_channels_zero t : tall is_zero t → tall is_zero (GradCAM.t_sum_channels t).
Proof.
  unfold tall, GradCAM.t_sum_channels. intros H.
  eapply Forall_fmap_impl; [exact H|]; clear H. intros img H.
  constructor; [|constructor]. by apply sum_planes_zero.
Qed.

Lemma t_relu_zero t : tall is_zero t → tall is_zero (t_relu t).
Proof.
  intros H. eapply tall_tmap_impl; [exact H|]. intros v Hv.
  unfold is_zero, relu in *.
  destruct (Q.max_spec v 0) as [[? ?]|[? ?]]; lra.
Qed.

Lemma at2_zero p i j : Forall (Forall is_zero) p → is_zero (GradCAM.at2 p i j).
Proof.
  intros H. unfold GradCAM.at2.
  apply Forall_nth_default; [|reflexivity].
  apply (Forall_nth_default (Forall is_zero)); [exact H|constructor].
Qed.

Lemma resize_plane_zero h w p :
  Forall (Forall is_zero) p → Forall (Forall is_zero) (GradCAM.resize_plane h w p).
Proof.
  intros H. unfold GradCAM.resize_plane.
  apply Forall_fmap_intro. intros oh.
  destruct (GradCAM.taps (length p) h oh) as [[[h0 h1] hl0] hl1].
  apply Forall_fmap_intro. intros ow.
  destruct (GradCAM.taps (length (hd [] p)) w ow) as [[[w0 w1] wl0] wl1].
  pose proof (at2_zero p h0 w0 H) as E1. pose proof (at2_zero p h0 w1 H) as E2.
  pose proof (at2_zero p h1 w0 H) as E3. pose proof (at2_zero p h1 w1 H) as E4.
  unfold is_zero in *. rewrite E1, E2, E3, E4. ring.
Qed.

Lemma resized_zero size t :
  tall is_zero t →
  tall is_zero (fmap (M:=list) (fmap (M:=list) (GradCAM.resize_plane size.1 size.2)) t).
Proof.
  unfold tall. intros H.
  eapply Forall_fmap_impl; [exact H|]; clear H. intros img H.
  eapply Forall_fmap_impl; [exact H|]; clear H. intros p H.
  by apply resize_plane_zero.
Qed.

(** With a captured gradient that is zero everywhere the map is zero
    everywhere. *)
Lemma cam_value_zero_gradient {C : Classifier} size (cam : gradcam C) g t :
  gradients cam = Some g → tall is_zero g →
  cam_value size cam = Ok t → tall is_zero t.
Proof.
  intros Hg Hz H. destruct (cam_value_Ok_inv _ _ _ H)
    as (g' & a & m1 & mn & mx & Hg' & _ & Hm1 & Hmn & Hmx & ->).
  rewrite Hg in Hg'. injection Hg' as <-.
  assert (tall is_zero m1) as Hz1.
  { subst m1. apply resized_zero, t_relu_zero, t_sum_channels_zero, t_bmul_zero,
      t_mean_hw_zero, Hz. }
  assert (is_zero mn) as Hmn0.
  { apply tall_flatten in Hz1. rewrite Forall_forall in Hz1.
    apply Hz1. by apply q_min_elem. }
  rewrite (tmap_tmap _ _ (λ v, (v - mn) / (mx - mn + 1e-8))) by done.
  eapply tall_tmap_impl; [exact Hz1|]. intros v Hv.
  unfold is_zero, Qdiv in *. rewrite Hv, Hmn0. ring.
Qed.

(** ** The reference algorithm *)







Lemma Forall2_fmap_both {A A' B D} (R' : A → A' → Prop) (R : B → D → Prop)
    (f : A → B) (g : A' → D) l k :
  Forall2 R' l k → (∀ x y, R' x y → R (f x) (g y)) → Forall2 R (f <$> l) (g <$> k).
Proof. intros H Hf. induction H; simpl; constructor; auto. Qed.


Lemma zip_with_ext_Forall2 {A B D} (R : A → B → Prop) (f g : A → B → D) l k :
  Forall2 R l k → (∀ x y, R x y → f x y = g x y) → zip_with f l k = zip_with g l k.
Proof. intros H Hf. induction H; simpl; f_equal; auto. Qed.


Lemma bzip_same_length {A B D} (f : A → B → D) la lb :
  length la = length lb → GradCAM.bzip f la lb = zip_with f la lb.
Proof.
  destruct la as [|a [|a' la]]; destruct lb as [|b [|b' lb]]; simpl; intros H;
    try lia; reflexivity.
Qed.


(** *** Sums *)

Lemma qsum_proper l k : Forall2 Qeq l k → GradCAM.qsum l == GradCAM.qsum k.
Proof. induction 1 as [|u v l k E _ IH]; simpl; [reflexivity|]. by rewrite E, IH. Qed.





(** *** Planes *)





























Section Reference.
Context {C : Classifier}.


End Reference.

(** C5.  Every element of a map that [GradCAM.generate] returns lies in
    [0, 1]; the normalization never divides by zero, because of the
    constant 1e-8 (without it the divisor of a uniform map is zero); and when
    the gradient captured at the designated layer is zero everywhere the
    returned map is zero everywhere. *)
Theorem generate_map_normalized (C : Classifier) (self img : loc) (c : Z) (w : world C) :
  (∀ r w', GradCAM.generate self img c w = Ok (r, w') →
     ∃ out, value_at w' r = Some out ∧ in_unit_range out) ∧
  GradCAM.generate self img c w ≠ NotFinite ∧
  (∀ (t : tensor) (mn mx : Q), mx == mn →
     GradCAM.div_scalar (tmap (λ v, v - mn) t) (mx - mn) w = NotFinite) ∧
  (∀ io cam k g r w',
     tensors w !! img = Some io → cams w !! self = Some cam →
     selected_class w (data io) c = Some k →
     gradients (captured w (data io) k cam) = Some g → tall is_zero g →
     GradCAM.generate self img c w = Ok (r, w') →
     ∃ out, value_at w' r = Some out ∧ tall is_zero out).
Proof.
  assert (∀ r w', GradCAM.generate self img c w = Ok (r, w') →
    ∃ io cam k t, tensors w !! img = Some io ∧ cams w !! self = Some cam ∧
      selected_class w (data io) c = Some k ∧
      cam_value (spatial_size (data io)) (captured w (data io) k cam) = Ok t ∧
      value_at w' r = Some t) as Hinv.
  { intros r w' E.
    destruct (tensors w !! img) as [io|] eqn:Himg.
    2:{ rewrite generate_no_input in E by done. done. }
    destruct (selected_class w (data io) c) as [k|] eqn:Hk.
    2:{ rewrite (generate_no_class _ _ _ _ io) in E by done. done. }
    destruct (cams w !! self) as [cam|] eqn:Hcam.
    2:{ rewrite (generate_no_self _ _ _ _ io k) in E by done. done. }
    pose proof (generate_run self img c w io cam k Himg Hcam Hk) as Hrun.
    destruct (cam_value _ _) as [t| |] eqn:Hv.
    - destruct Hrun as (r0 & w0 & E0 & Hval). rewrite E0 in E.
      injection E as <- <-. by exists io, cam, k, t.
    - rewrite Hrun in E. done.
    - rewrite Hrun in E. done. }
  split; [|split; [|split]].
  - intros r w' E. destruct (Hinv r w' E) as (io & cam & k & t & _ & _ & _ & Hv & Hval).
    exists t. split; [exact Hval|]. by eapply cam_value_in_unit_range.
  - intros E.
    destruct (tensors w !! img) as [io|] eqn:Himg.
    2:{ rewrite generate_no_input in E by done. done. }
    destruct (selected_class w (data io) c) as [k|] eqn:Hk.
    2:{ rewrite (generate_no_class _ _ _ _ io) in E by done. done. }
    destruct (cams w !! self) as [cam|] eqn:Hcam.
    2:{ rewrite (generate_no_self _ _ _ _ io k) in E by done. done. }
    pose proof (generate_run self img c w io cam k Himg Hcam Hk) as Hrun.
    destruct (cam_value _ _) as [t| |] eqn:Hv.
    + destruct Hrun as (r0 & w0 & E0 & _). rewrite E0 in E. done.
    + rewrite Hrun in E. done.
    + by apply cam_value_finite in Hv.
  - intros t mn mx Hm. unfold GradCAM.div_scalar.
    assert (mx - mn == 0) as E by lra. apply Qeq_eq_bool in E. by rewrite E.
  - intros io cam k g r w' Himg Hcam Hk Hg Hz E.
    destruct (Hinv r w' E) as (io' & cam' & k' & t & Himg' & Hcam' & Hk' & Hv & Hval).
    rewrite Himg in Himg'. injection Himg' as <-.
    rewrite Hcam in Hcam'. injection Hcam' as <-.
    rewrite Hk in Hk'. injection Hk' as <-.
    exists t. split; [exact Hval|]. by eapply cam_value_zero_gradient.
Qed.

Lemma generate_map_normalized_witness :
  match GradCAM.generate Toy.cam Toy.x 1 (Toy.world1 0 true) with
  | Ok (r, w') =>
      ∃ out, value_at w' r = Some out ∧ in_unit_range out ∧ tall is_zero out
  | _ => False
  end.
Proof.
  pose proof (generate_map_normalized Toy.classifier Toy.cam Toy.x 1
                (Toy.world1 0 true)) as (Hrange & _ & _ & Hzero).
  destruct (GradCAM.generate Toy.cam Toy.x 1 (Toy.world1 0 true))
    as [[r w']| |] eqn:E.
  - destruct (Hrange r w' eq_refl) as (out & Hout & Hr).
    destruct (Hzero (Tensor Toy.photo None false false)
                (Cam (true : layer Toy.classifier) None None) 1%nat
                [[ [[0; 0]]; [[0; 0]] ]] r w') as (out' & Hout' & Hz).
    + reflexivity.
    + reflexivity.
    + reflexivity.
    + vm_compute. reflexivity.
    + unfold tall, is_zero. repeat constructor.
    + reflexivity.
    + exists out. rewrite Hout in Hout'. injection Hout' as <-. auto.
  - vm_compute in E. discriminate E.
  - vm_compute in E. discriminate E.
Defined.



(** C7.  On an image and a class that the output has: when the forward and
    backward pass of the call does not execute the designated layer and a
    capture is absent, [GradCAM.generate] raises ([AttributeError] for the
    gradient, which is read first, [TypeError] for the activation) and
    returns no map; when the pass executes the layer, neither error is
    raised. *)
Theorem generate_data_unavailable (C : Classifier) (self img : loc) (c : Z)
    (w : world C) (io : tobj) (cam : gradcam C) (k : nat) :
  tensors w !! img = Some io → cams w !! self = Some cam →
  selected_class w (data io) c = Some k →
  (layer_output C (parameters (model w)) (mask_in_effect w) (data io)
     (target_layer cam) = None →
   d_layer C (parameters (model w)) (mask_in_effect w) (data io) (Score k)
     (target_layer cam) = None →
   (gradients cam = None →
      GradCAM.generate self img c w = Raise AttributeError) ∧
   (gradients cam = None ∨ activations cam = None →
      ∃ e, GradCAM.generate self img c w = Raise e ∧
           (e = AttributeError ∨ e = TypeError))) ∧
  (is_Some (layer_output C (parameters (model w)) (mask_in_effect w) (data io)
              (target_layer cam)) →
   is_Some (d_layer C (parameters (model w)) (mask_in_effect w) (data io) (Score k)
              (target_layer cam)) →
   GradCAM.generate self img c w ≠ Raise AttributeError ∧
   GradCAM.generate self img c w ≠ Raise TypeError).
Proof.
  intros Himg Hcam Hk.
  pose proof (generate_run self img c w io cam k Himg Hcam Hk) as Hrun.
  split.
  - intros Hout Hgrad.
    assert (captured w (data io) k cam = cam) as Hcap.
    { unfold captured, forward_hook. rewrite Hout.
      unfold backward_hook. by rewrite Hgrad. }
    rewrite Hcap in Hrun. unfold cam_value in Hrun.
    assert (gradients cam = None →
            GradCAM.generate self img c w = Raise AttributeError) as Hg.
    { intros Hn. by rewrite Hn in Hrun. }
    split; [exact Hg|].
    intros [Hn|Hn]; [exists AttributeError; auto|].
    destruct (gradients cam) as [g|] eqn:Eg.
    + rewrite Hn in Hrun. exists TypeError. auto.
    + exists AttributeError. auto.
  - intros [a Ha] [g Hg].
    assert (gradients (captured w (data io) k cam) = Some g ∧
            activations (captured w (data io) k cam) = Some a) as [Hcg Hca].
    { unfold captured, forward_hook. rewrite Ha.
      unfold backward_hook. cbn. rewrite Hg. done. }
    unfold cam_value in Hrun. rewrite Hcg, Hca in Hrun.
    destruct (GradCAM.broadcastable _ _); [|rewrite Hrun; done].
    cbn [negb] in Hrun.
    destruct (_ || _); [rewrite Hrun; done|].
    destruct (GradCAM.q_min _); [|rewrite Hrun; done].
    destruct (GradCAM.q_max _); [|rewrite Hrun; done].
    destruct (Qeq_bool _ _); [rewrite Hrun; done|].
    destruct Hrun as (r & w' & -> & _). done.
Qed.

Lemma generate_data_unavailable_witness :
  GradCAM.init (false : layer Toy.classifier)
    (World {[ Toy.x := Tensor Toy.photo None false false ]} {[ Toy.y := [0%Z] ]} ∅
           (Module (1 : params Toy.classifier) None false None)
           (0%nat : generator Toy.classifier))
  = Ok (Toy.cam, Toy.world1 1 false) ∧
  GradCAM.generate Toy.cam Toy.x 0 (Toy.world1 1 false) = Raise AttributeError ∧
  GradCAM.generate Toy.cam Toy.x 0 (Toy.world1 1 true) ≠ Raise AttributeError ∧
  GradCAM.generate Toy.cam Toy.x 0 (Toy.world1 1 true) ≠ Raise TypeError.
Proof.
  split; [vm_compute; reflexivity|]. split.
  - apply (generate_data_unavailable Toy.classifier Toy.cam Toy.x 0
             (Toy.world1 1 false) (Tensor Toy.photo None false false)
             (Cam (false : layer Toy.classifier) None None) 0%nat);
      reflexivity.
  - apply (generate_data_unavailable Toy.classifier Toy.cam Toy.x 0
             (Toy.world1 1 true) (Tensor Toy.photo None false false)
             (Cam (true : layer Toy.classifier) None None) 0%nat);
      try reflexivity; eexists; reflexivity.
Defined.

(** * Frame and determinism of the attacks *)

(** C8, amended.  A call of [FGSMAttack.perturb] or [BIMAttack.perturb]
    returns a new tensor, leaves every tensor that existed at the call (the
    input among them) and the labels as they were, and leaves the parameters
    and the mode of the classifier as they were: of the attributes of the
    module only the gradient buffers and the cached [last_feature_map] may
    differ. *)
Theorem attacks_frame (C : Classifier)
    (x y : loc) (w : world C) (xo : tobj) (yv : list Z) :
  tensors w !! x = Some xo → labels w !! y = Some yv →
  (∀ self : FGSMAttack.t,
     ∃ r w', FGSMAttack.perturb self x y w = Ok (r, w') ∧
       tensors w !! r = None ∧
       (∀ l o, tensors w !! l = Some o → tensors w' !! l = Some o) ∧
       labels w' = labels w ∧
       parameters (model w') = parameters (model w) ∧
       training (model w') = training (model w)) ∧
  (∀ self : BIMAttack.t,
     ∃ r w', BIMAttack.perturb self x y w = Ok (r, w') ∧
       tensors w !! r = None ∧
       (∀ l o, tensors w !! l = Some o → tensors w' !! l = Some o) ∧
       labels w' = labels w ∧
       parameters (model w') = parameters (model w) ∧
       training (model w') = training (model w)).
Proof.
  intros Hx Hy. split.
  - intros self.
    destruct (FGSM_run self x y w xo yv Hx Hy)
      as (r & w' & E & Hr & _ & Hold & Hl & Hp & Ht & _).
    by exists r, w'.
  - intros self. rewrite BIM_perturb_iterations.
    destruct (BIM_run self (λ _, True) (λ _, True) x y w xo yv
                (Z.to_nat (BIMAttack.iters self)) Hx Hy)
      as (r & w' & E & Hr & _ & Hold & Hl & Hp & Ht); [done..|].
    by exists r, w'.
Qed.

Lemma attacks_frame_witness :
  (∃ r w',
     FGSMAttack.perturb (FGSMAttack.New 0.1) Toy.x Toy.y (Toy.world0 1 true)
     = Ok (r, w') ∧
     r ≠ Toy.x ∧
     tensors w' !! Toy.x = Some (Tensor Toy.image None false false) ∧
     labels w' = labels (Toy.world0 1 true) ∧
     parameters (model w') = parameters (model (Toy.world0 1 true))) ∧
  (∃ r w',
     BIMAttack.perturb (BIMAttack.New 0.1 0.04 3) Toy.x Toy.y (Toy.world0 1 true)
     = Ok (r, w') ∧
     r ≠ Toy.x ∧
     tensors w' !! Toy.x = Some (Tensor Toy.image None false false) ∧
     labels w' = labels (Toy.world0 1 true) ∧
     parameters (model w') = parameters (model (Toy.world0 1 true))).
Proof.
  destruct (attacks_frame Toy.classifier Toy.x Toy.y (Toy.world0 1 true)
              (Tensor Toy.image None false false) [0%Z]) as [HF HB];
    [reflexivity|reflexivity|].
  split.
  - destruct (HF (FGSMAttack.New 0.1)) as (r & w' & E & Hr & Hold & Hl & Hp & _).
    exists r, w'. split; [exact E|]. split; [|split; [|split]].
    + intros ->. vm_compute in Hr. discriminate Hr.
    + apply Hold. reflexivity.
    + exact Hl.
    + exact Hp.
  - destruct (HB (BIMAttack.New 0.1 0.04 3)) as (r & w' & E & Hr & Hold & Hl & Hp & _).
    exists r, w'. split; [exact E|]. split; [|split; [|split]].
    + intros ->. vm_compute in Hr. discriminate Hr.
    + apply Hold. reflexivity.
    + exact Hl.
    + exact Hp.
Defined.

(** C8 as stated fails: the call also overwrites the feature map that
    [CNN.forward] caches in [self.last_feature_map]. *)
Lemma attacks_frame_counterexample :
  ∃ r w',
    FGSMAttack.perturb (FGSMAttack.New 0.1) Toy.x Toy.y (Toy.world0 1 false)
    = Ok (r, w') ∧
    ¬ only_gradient_buffers_differ (model (Toy.world0 1 false)) (model w').
Proof.
  destruct (FGSM_run (C:=Toy.classifier) (FGSMAttack.New 0.1) Toy.x Toy.y
              (Toy.world0 1 false) (Tensor Toy.image None false false) [0%Z])
    as (r & w' & E & _ & _ & _ & _ & _ & _ & _ & Hfm);
    [reflexivity|reflexivity|].
  exists r, w'. split; [exact E|].
  intros (_ & _ & H). rewrite Hfm in H. discriminate H.
Qed.

(** C9, amended.  With the classifier in evaluation mode, two successive
    calls of [FGSMAttack.perturb] on the same input and labels return the
    same elements. *)
Theorem FGSM_perturb_deterministic_eval (C : Classifier) (self : FGSMAttack.t)
    (x y : loc) (w : world C) (xo : tobj) (yv : list Z) :
  training (model w) = false →
  tensors w !! x = Some xo → labels w !! y = Some yv →
  ∃ r1 w1 r2 w2 out,
    FGSMAttack.perturb self x y w = Ok (r1, w1) ∧
    FGSMAttack.perturb self x y w1 = Ok (r2, w2) ∧
    value_at w1 r1 = Some out ∧
    value_at w2 r2 = Some out.
Proof.
  intros Hmode Hx Hy.
  destruct (FGSM_run self x y w xo yv Hx Hy)
    as (r1 & w1 & E1 & _ & Hv1 & Hold & Hl & Hp & Ht & _).
  assert (tensors w1 !! x = Some xo) as Hx1 by auto.
  assert (labels w1 !! y = Some yv) as Hy1 by (by rewrite Hl).
  destruct (FGSM_run self x y w1 xo yv Hx1 Hy1)
    as (r2 & w2 & E2 & _ & Hv2 & _).
  eexists r1, w1, r2, w2, _. split; [exact E1|]. split; [exact E2|].
  split.
  - unfold value_at. rewrite Hv1. reflexivity.
  - unfold value_at. rewrite Hv2. cbn. do 2 f_equal.
    unfold loss_gradient, mask_in_effect. by rewrite Hp, Ht, Hmode.
Qed.

Lemma FGSM_perturb_deterministic_eval_witness :
  ∃ r1 w1 r2 w2 out,
    FGSMAttack.perturb (FGSMAttack.New 0.1) Toy.x Toy.y (Toy.world0 1 false)
    = Ok (r1, w1) ∧
    FGSMAttack.perturb (FGSMAttack.New 0.1) Toy.x Toy.y w1 = Ok (r2, w2) ∧
    value_at w1 r1 = Some out ∧
    value_at w2 r2 = Some out.
Proof.
  apply (FGSM_perturb_deterministic_eval Toy.classifier (FGSMAttack.New 0.1)
           Toy.x Toy.y (Toy.world0 1 false)
           (Tensor Toy.image None false false) [0%Z]); reflexivity.
Defined.

(** C9 as stated fails: in training mode [nn.Dropout] draws a new mask at
    every forward pass, and two calls against the same parameters return
    different elements. *)
Lemma FGSM_perturb_deterministic_counterexample :
  ∃ r1 w1 out1 r2 w2 out2,
    FGSMAttack.perturb (FGSMAttack.New 0.1) Toy.x Toy.y (Toy.world0 1 true)
    = Ok (r1, w1) ∧
    FGSMAttack.perturb (FGSMAttack.New 0.1) Toy.x Toy.y w1 = Ok (r2, w2) ∧
    parameters (model w1) = parameters (model (Toy.world0 1 true)) ∧
    value_at w1 r1 = Some out1 ∧
    value_at w2 r2 = Some out2 ∧
    teq out1
      [[ [[0.6; 0.5; 0.4; 0.6]; [0.5; 0.4; 0.6; 0.5];
          [0.4; 0.6; 0.5; 0.4]; [0.6; 0.5; 0.4; 0.6]] ]] ∧
    teq out2 Toy.image ∧
    ¬ teq out1 out2.
Proof.
  destruct (FGSM_run (C:=Toy.classifier) (FGSMAttack.New 0.1) Toy.x Toy.y
              (Toy.world0 1 true) (Tensor Toy.image None false false) [0%Z])
    as (r1 & w1 & E1 & _ & Hv1 & Hold & Hl & Hp & Ht & Hgen & _);
    [reflexivity|reflexivity|].
  assert (tensors w1 !! Toy.x = Some (Tensor Toy.image None false false)) as Hx1
    by (apply Hold; reflexivity).
  assert (labels w1 !! Toy.y = Some [0%Z]) as Hy1 by (rewrite Hl; reflexivity).
  destruct (FGSM_run (FGSMAttack.New 0.1) Toy.x Toy.y w1 _ _ Hx1 Hy1)
    as (r2 & w2 & E2 & _ & Hv2 & _).
  eexists r1, w1, _, r2, w2, _. split; [exact E1|]. split; [exact E2|].
  split; [exact Hp|]. split.
  { unfold value_at. rewrite Hv1. reflexivity. }
  split.
  { unfold value_at. rewrite Hv2. reflexivity. }
  unfold loss_gradient, mask_in_effect. rewrite Hp, Ht, Hgen. cbn [data].
  split; [|split].
  - unfold teq, tall2. vm_compute. repeat constructor.
  - unfold teq, tall2. vm_compute. repeat constructor.
  - intros H. apply teqb_complete in H. vm_compute in H. discriminate H.
Qed.

(** * Further properties *)

(** ** The example classifier and the example data *)

Lemma Toy_scores_per_image : scores_per_image Toy.classifier.
Proof.
  intros θ m x. cbn.
  eapply Forall2_fmap_r_intro with (S' := eq).
  - apply Forall2_diag with (P := λ _, True); [by apply Forall_true|done].
  - by intros.
Qed.

Lemma Forall2_imap_both {A B A' B'} (R : A → A' → Prop) (R' : B → B' → Prop)
    (f : nat → A → B) (g : nat → A' → B') l k :
  Forall2 R l k → (∀ i u v, R u v → R' (f i u) (g i v)) →
  Forall2 R' (imap f l) (imap g k).
Proof.
  intros H. revert f g. induction H as [|u v l k Huv _ IH]; intros f g Hf; cbn;
    constructor; [by apply Hf|].
  apply IH. intros. by apply Hf.
Qed.

Lemma Toy_dot_pattern_proper img img' :
  Forall2 (Forall2 (Forall2 Qeq)) img img' →
  Toy.dot_pattern img == Toy.dot_pattern img'.
Proof.
  intros H. unfold Toy.dot_pattern. apply qsum_proper.
  eapply Forall2_fmap_both; [exact H|]. intros p p' Hp. cbn.
  apply qsum_proper. eapply Forall2_imap_both; [exact Hp|].
  intros i row row' Hrow. cbn.
  apply qsum_proper. eapply Forall2_imap_both; [exact Hrow|].
  intros j u v Huv. cbn. by rewrite Huv.
Qed.

Lemma Toy_scores_respect_eq : scores_respect_eq Toy.classifier.
Proof.
  intros θ m x x' H. cbn.
  eapply Forall2_fmap_both; [exact H|]. intros img img' Himg. cbn.
  pose proof (Toy_dot_pattern_proper img img' Himg) as E.
  repeat constructor; by rewrite E.
Qed.

Lemma Examples_loads train : loads (Examples.dataset 1 train) Examples.testloader.
Proof.
  split; [|reflexivity].
  constructor; [|constructor; [|constructor]].
  - exists (Tensor Toy.image None false false), [0%Z]. by repeat split.
  - exists (Tensor Examples.pair None false false), [0%Z; 1%Z]. by repeat split.
Qed.

Lemma Examples_images_in_unit_range train :
  images_in_unit_range (Examples.dataset 1 train) Examples.testloader.
Proof.
  constructor; [|constructor; [|constructor]]; intros xo H; vm_compute in H;
    injection H as <-.
  - exact Toy_image_in_unit_range.
  - unfold in_unit_range, tall, Examples.pair. cbn.
    repeat constructor; unfold Qle; simpl; lia.
Qed.

(** The clean accuracy on the example data is 2/3; an attack of either
    class with budget 0.1 brings it to 1/3. *)
Example accuracy_examples :
  match get_accuracy Examples.testloader (Examples.dataset 1 true),
        get_adversarial_accuracy Examples.testloader (FGSM (FGSMAttack.New 0.1))
          (Examples.dataset 1 true),
        get_adversarial_accuracy Examples.testloader (BIM (BIMAttack.New 0.1 0.04 3))
          (Examples.dataset 1 true) with
  | Returns (clean, _), Returns (fgsm, _), Returns (bim, _) =>
      clean = 2 # 3 ∧ fgsm = 1 # 3 ∧ bim = 1 # 3
  | _, _, _ => False
  end.
Proof. vm_compute. repeat split. Qed.

(** * What the attacks depend on *)

Section Respects.
Context {C : Classifier}.

Lemma agree_refl (w : world C) : agree w w.
Proof. by repeat split. Qed.

Lemma respects_ret {A} (a : A) : respects (C:=C) (ret a).
Proof. intros w1 w2 H. by split. Qed.

Lemma respects_raise {A} e : respects (C:=C) (A:=A) (raise e).
Proof. intros w1 w2 H. reflexivity. Qed.

Lemma respects_bind {A B} (c : M C A) (k : A → M C B) :
  respects c → (∀ a, respects (k a)) → respects (bind c k).
Proof.
  intros Hc Hk w1 w2 H. specialize (Hc w1 w2 H). unfold bind, same_outcome in *.
  destruct (c w1) as [[a1 w1']| |], (c w2) as [[a2 w2']| |]; try done.
  destruct Hc as [-> Hw]. by apply Hk.
Qed.

Lemma respects_get l : respects (C:=C) (get l).
Proof.
  intros w1 w2 H. unfold get, same_outcome. pose proof H as (Ht & _). rewrite Ht.
  destruct (tensors w2 !! l); [|done]. by split.
Qed.

Lemma respects_get_labels l : respects (C:=C) (get_labels l).
Proof.
  intros w1 w2 H. unfold get_labels, same_outcome. pose proof H as (_ & Hl & _).
  rewrite Hl. destruct (labels w2 !! l); [|done]. by split.
Qed.

Lemma respects_alloc o : respects (C:=C) (alloc o).
Proof.
  intros w1 w2 (Ht & Hl & Hp & Hm & Hg). unfold alloc. cbn. rewrite Ht.
  by repeat split.
Qed.

Lemma respects_clone_detach l : respects (C:=C) (clone_detach l).
Proof.
  apply respects_bind; [apply respects_get|]. intros o. apply respects_alloc.
Qed.

Lemma respects_set_requires_grad l : respects (C:=C) (set_requires_grad l).
Proof.
  apply respects_bind; [apply respects_get|]. intros o.
  intros w1 w2 (Ht & Hl & Hp & Hm & Hg). cbn. rewrite Ht. by repeat split.
Qed.

Lemma agree_mask (w1 w2 : world C) : agree w1 w2 → mask_in_effect w1 = mask_in_effect w2.
Proof.
  intros (Ht & Hl & Hp & Hm & Hg). unfold mask_in_effect. rewrite <- Hm.
  destruct (training (model w1)); [|done]. by rewrite Hg.
Qed.

Lemma respects_call_model l : respects (C:=C) (call_model l).
Proof.
  intros w1 w2 H. pose proof (agree_mask _ _ H) as Hmask.
  destruct H as (Ht & Hl & Hp & Hm & Hg). unfold same_outcome.
  destruct (tensors w1 !! l) as [o|] eqn:E.
  - rewrite (call_model_run l w1 o E).
    rewrite Ht in E. rewrite (call_model_run l w2 o E).
    rewrite Hmask, Hp. split; [done|]. repeat split; cbn; try done.
    intros Htr. unfold generator_after. rewrite <- Hm, Htr. by rewrite Hg.
  - unfold call_model. rewrite bind_raise with (e := NameError).
    2:{ unfold get. by rewrite E. }
    rewrite Ht in E. rewrite bind_raise with (e := NameError); [done|].
    unfold get. by rewrite E.
Qed.

Lemma respects_loss_fn g y : respects (C:=C) (loss_fn g y).
Proof.
  apply respects_bind; [apply respects_get_labels|]. intros. apply respects_ret.
Qed.

Lemma respects_zero_grad : respects (C:=C) zero_grad.
Proof. intros w1 w2 (Ht & Hl & Hp & Hm & Hg). by repeat split. Qed.

Lemma respects_backward s : respects (C:=C) (backward s).
Proof.
  intros w1 w2 (Ht & Hl & Hp & Hm & Hg). unfold backward. cbn. rewrite Ht.
  by repeat split.
Qed.

Lemma respects_get_grad l : respects (C:=C) (get_grad l).
Proof.
  apply respects_bind; [apply respects_get|]. intros o.
  destruct (grad o); [apply respects_ret|apply respects_raise].
Qed.

Lemma respects_repeat_m {A} (body : A → M C A) n :
  (∀ a, respects (body a)) → ∀ a, respects (repeat_m n body a).
Proof.
  intros Hb. induction n as [|n IH]; intros a; cbn.
  - apply respects_ret.
  - apply respects_bind; [apply Hb|apply IH].
Qed.

Lemma respects_for_each {A B} (body : B → A → M C B) items :
  (∀ acc a, respects (body acc a)) → ∀ acc, respects (for_each items body acc).
Proof.
  intros Hb. induction items as [|i items IH]; intros acc; cbn.
  - apply respects_ret.
  - apply respects_bind; [apply Hb|apply IH].
Qed.

Lemma respects_FGSM self x y : respects (C:=C) (FGSMAttack.perturb self x y).
Proof.
  unfold FGSMAttack.perturb.
  apply respects_bind; [apply respects_clone_detach|intros].
  apply respects_bind; [apply respects_set_requires_grad|intros].
  apply respects_bind; [apply respects_call_model|intros].
  apply respects_bind; [apply respects_loss_fn|intros].
  apply respects_bind; [apply respects_zero_grad|intros].
  apply respects_bind; [apply respects_backward|intros].
  apply respects_bind; [apply respects_get_grad|intros].
  apply respects_bind; [apply respects_get|intros].
  apply respects_alloc.
Qed.

Lemma respects_BIM_step self x y xa : respects (C:=C) (BIMAttack.step self x y xa).
Proof.
  unfold BIMAttack.step.
  apply respects_bind; [apply respects_set_requires_grad|intros].
  apply respects_bind; [apply respects_call_model|intros].
  apply respects_bind; [apply respects_loss_fn|intros].
  apply respects_bind; [apply respects_zero_grad|intros].
  apply respects_bind; [apply respects_backward|intros].
  apply respects_bind; [apply respects_get_grad|intros].
  apply respects_bind; [apply respects_get|intros].
  apply respects_bind; [apply respects_get|intros].
  apply respects_alloc.
Qed.

Lemma respects_BIM self x y : respects (C:=C) (BIMAttack.perturb self x y).
Proof.
  unfold BIMAttack.perturb.
  apply respects_bind; [apply respects_clone_detach|intros].
  apply respects_repeat_m. intros. apply respects_BIM_step.
Qed.

Lemma respects_attack a x y : respects (C:=C) (attack_perturb a x y).
Proof. destruct a; [apply respects_FGSM|apply respects_BIM]. Qed.

End Respects.

(** X1.  The outcome of [FGSMAttack.perturb] and of [BIMAttack.perturb], that
    is the tensor returned or the exception raised and the tensors, the
    labels, the parameters and the mode afterwards, does not depend on the
    gradient buffers of the parameters, on the cached [last_feature_map], on
    the registered [GradCAM] instances nor, in evaluation mode, on the state
    of the generator at the call. *)
Theorem attacks_ignore_buffers (C : Classifier) (a : attack) (x y : loc) (w1 w2 : world C) :
  agree w1 w2 →
  same_outcome (attack_perturb a x y w1) (attack_perturb a x y w2).
Proof.
  intros H. destruct a as [self|self].
  - by apply (respects_FGSM self x y).
  - by apply (respects_BIM self x y).
Qed.

Lemma attacks_ignore_buffers_witness :
  same_outcome
    (attack_perturb (BIM (BIMAttack.New 0.1 0.04 3)) Toy.x Toy.y
       (Examples.dataset 1 false))
    (attack_perturb (BIM (BIMAttack.New 0.1 0.04 3)) Toy.x Toy.y
       (Examples.instrumented (Examples.used_cam true) (Some 5) false 7)).
Proof.
  apply attacks_ignore_buffers.
  split; [reflexivity|]. split; [reflexivity|]. split; [reflexivity|].
  split; [reflexivity|]. cbn. intros H. discriminate H.
Defined.

(** * More about the attacks *)

(** ** The direction and the size of the single step *)

Lemma sign_pos g : 0 < g → sign g = 1.
Proof.
  intros H. unfold sign. assert ((g ?= 0) = Gt) as E by (by apply Qgt_alt).
  by rewrite E.
Qed.

Lemma sign_neg g : g < 0 → sign g = -1.
Proof.
  intros H. unfold sign. assert ((g ?= 0) = Lt) as E by (by apply Qlt_alt).
  by rewrite E.
Qed.

(** A relation between the result of a binary operation and its second
    operand. *)
Lemma tall2_tzip_l (S R : Q → Q → Prop) f a b :
  tall2 S a b → (∀ u v, S u v → R (f u v) v) → tall2 R (tzip f a b) b.
Proof.
  intros H Hf.
  eapply tall2_swap with (R := λ v d, R d v); [|by intros].
  eapply tall2_tzip_r with (S1 := λ v u, S u v) (S2 := eq).
  - eapply tall2_swap; [exact H|]. by intros.
  - by apply tall2_refl.
  - intros v u ? Hs <-. by apply Hf.
Qed.

Section Float32Direction.
Import Float32.

(** The direction of the single step, in 32-bit floats: rounding does not
    cross the pixel, which is a float. *)
Lemma float32_single_step_direction eps x g :
  0 <= eps → 0 <= x <= 1 → is_float x →
  let d := clamp (round (x + round (round eps * sign g))) (round 0) (round 1) - x in
  (0 < g → 0 <= d <= eps + 2 ^ (-22)) ∧
  (g < 0 → - (eps + 2 ^ (-22)) <= d <= 0) ∧
  (g == 0 → d == 0).
Proof.
  intros He Hx Hf d.
  pose proof (float32_step_bound eps x _ He Hx (float32_signed_step eps g He)) as Hb.
  fold d in Hb. apply Qabs_Qle_condition in Hb.
  pose proof (round_nonneg eps He) as He0. pose proof round_1 as H1.
  assert (∀ r, x <= r → x <= clamp r (round 0) (round 1)) as Hup.
  { intros r Hr. rewrite round_0. unfold clamp.
    destruct (Q.max_spec r 0) as [[? Em]|[? Em]];
      destruct (Q.min_spec (Qmax r 0) (round 1)) as [[? En]|[? En]];
      rewrite En; rewrite ?Em; lra. }
  assert (∀ r, r <= x → clamp r (round 0) (round 1) <= x) as Hdown.
  { intros r Hr. rewrite round_0. unfold clamp.
    destruct (Q.max_spec r 0) as [[? Em]|[? Em]];
      destruct (Q.min_spec (Qmax r 0) (round 1)) as [[? En]|[? En]];
      rewrite En; rewrite ?Em; lra. }
  split; [|split]; intros Hg.
  - split; [|lra]. subst d. rewrite (sign_pos g Hg).
    assert (0 <= round (round eps * 1)) as Hp by (apply round_nonneg; lra).
    specialize (Hup (round (x + round (round eps * 1)))).
    assert (x <= round (x + round (round eps * 1))) by (apply round_ge; [done|lra]).
    lra.
  - split; [lra|]. subst d. rewrite (sign_neg g Hg).
    assert (round (round eps * -1) <= 0) as Hp.
    { apply round_le; [by rewrite round_0|lra]. }
    specialize (Hdown (round (x + round (round eps * -1)))).
    assert (round (x + round (round eps * -1)) <= x) by (apply round_le; [done|lra]).
    lra.
  - subst d. rewrite (sign_zero g Hg).
    rewrite (round_proper (round eps * 0) 0) by ring. rewrite ?round_0.
    rewrite (round_proper (x + 0) x) by ring.
    rewrite clamp_id; unfold is_float in Hf; lra.
Qed.

Lemma FGSM_value_float32_direction self x g :
  same_shape x g → 0 <= FGSMAttack.epsilon self → in_unit_range x → tall is_float x →
  tall2 (λ d gv, (0 < gv → 0 <= d <= FGSMAttack.epsilon self + 2 ^ (-22)) ∧
                 (gv < 0 → - (FGSMAttack.epsilon self + 2 ^ (-22)) <= d <= 0) ∧
                 (gv == 0 → d == 0))
        (t_sub (InArithmetic.FGSM_value float32 self x g) x) g.
Proof.
  intros Hs He Hx Hf. rewrite FGSM_value_float32. unfold t_sub.
  rewrite (tzip_diag_r Qminus _
    (λ xv gv, clamp (round (xv + round (round (FGSMAttack.epsilon self) * sign gv)))
                    (round 0) (round 1) - xv)) by done.
  eapply tall2_tzip_l with (S := λ u _, 0 <= u <= 1 ∧ is_float u).
  - eapply tall2_with_left with (P := λ u, 0 <= u <= 1 ∧ is_float u); [exact Hs| |].
    + unfold in_unit_range, tall in *. 
      eapply Forall_impl; [apply Forall_and; split; [exact Hx|exact Hf]|].
      intros ? [H1 H2]. eapply Forall_impl; [apply Forall_and; split; [exact H1|exact H2]|].
      clear H1 H2. intros ? [H1 H2].
      eapply Forall_impl; [apply Forall_and; split; [exact H1|exact H2]|].
      clear H1 H2. intros ? [H1 H2].
      eapply Forall_impl; [apply Forall_and; split; [exact H1|exact H2]|].
      by intros ? [??].
    + by intros.
  - intros u v [Hu Hfu]. by apply float32_single_step_direction.
Qed.

End Float32Direction.

(** X2.  In 32-bit floats, for [0 ≤ ε] in the range of the floats and an
    input of floats in [0, 1], the perturbation [x_adv - x] that
    [FGSMAttack.perturb] returns follows the sign of the gradient of the
    loss, element by element: it is in [0, ε + 2^-22] where the gradient is
    positive, in [-(ε + 2^-22), 0] where it is negative, and zero where the
    gradient is zero. *)
Theorem FGSM_perturb_follows_gradient (C : Classifier) (self : FGSMAttack.t)
    (x y : loc) (w : world C) (xo : tobj) (yv : list Z) :
  grad_shaped C →
  0 <= FGSMAttack.epsilon self <= Float32.max_value →
  in_unit_range (data xo) → tall Float32.is_float (data xo) →
  tensors w !! x = Some xo → labels w !! y = Some yv →
  ∃ r w' out, InArithmetic.FGSM_perturb float32 self x y w = Ok (r, w') ∧
    value_at w' r = Some out ∧
    tall2 (λ d g, (0 < g → 0 <= d <= FGSMAttack.epsilon self + 2 ^ (-22)) ∧
                  (g < 0 → - (FGSMAttack.epsilon self + 2 ^ (-22)) <= d <= 0) ∧
                  (g == 0 → d == 0))
          (t_sub out (data xo)) (loss_gradient w (data xo) yv).
Proof.
  intros HC [He _] Hu Hf Hx Hy.
  destruct (FGSM_run_in float32 self x y w xo yv Hx Hy) as (r & w' & E & Hv).
  eexists r, w', _. split; [exact E|]. split; [exact Hv|].
  apply FGSM_value_float32_direction; [apply HC|done..].
Qed.

Lemma FGSM_perturb_follows_gradient_witness :
  ∃ r w' out,
    InArithmetic.FGSM_perturb float32 (FGSMAttack.New 0.1) Toy.x Toy.y
      (Toy.world0 1 false) = Ok (r, w') ∧
    value_at w' r = Some out ∧
    tall2 (λ d g, (0 < g → 0 <= d <= 0.1 + 2 ^ (-22)) ∧
                  (g < 0 → - (0.1 + 2 ^ (-22)) <= d <= 0) ∧
                  (g == 0 → d == 0))
          (t_sub out Toy.image) (loss_gradient (Toy.world0 1 false) Toy.image [0%Z]).
Proof.
  apply (FGSM_perturb_follows_gradient Toy.classifier (FGSMAttack.New 0.1)
           Toy.x Toy.y (Toy.world0 1 false)
           (Tensor Toy.image None false false) [0%Z]).
  - exact Toy_grad_shaped.
  - split; vm_compute; discriminate.
  - exact Toy_image_in_unit_range.
  - exact Toy_image_floats.
  - reflexivity.
  - reflexivity.
Defined.

(** ** The state that a call of [FGSMAttack.perturb] leaves *)

Section AttackEffects.
Context {C : Classifier}.

Lemma FGSM_exact (self : FGSMAttack.t) x y (w : world C) xo yv :
  tensors w !! x = Some xo → labels w !! y = Some yv →
  let θ := parameters (model w) in
  let m := mask_in_effect w in
  let X := data xo in
  let g := d_input C θ m X (Loss yv) in
  let l := fresh (dom (tensors w)) in
  let h := <[l := Tensor X (Some g) true false]>
             (<[l := Tensor X None true false]>
                (<[l := Tensor X None false false]> (tensors w))) in
  let r := fresh (dom h) in
  FGSMAttack.perturb self x y w =
  Ok (r, World (<[r := Tensor (t_clamp 0 1 (t_add X (t_scale (FGSMAttack.epsilon self)
                                                      (t_sign g))))
                        None true true]> h)
               (labels w)
               (backward_hook θ m X (Loss yv) <$> (forward_hook θ m X <$> cams w))
               (Module θ (Some (d_params C θ m X (Loss yv))) (training (model w))
                  (Some (Tensor (feature_map C θ m X) (Some (d_feature C θ m X (Loss yv)))
                           true true)))
               (generator_after w)).
Proof.
  intros Hx Hy. cbv zeta. unfold FGSMAttack.perturb.
  erewrite bind_ok by (by apply clone_detach_run).
  erewrite bind_ok by (apply set_requires_grad_run; apply lookup_insert_eq).
  erewrite bind_ok by (apply call_model_run; apply lookup_insert_eq).
  erewrite bind_ok by (by apply loss_fn_run).
  erewrite bind_ok by reflexivity.
  erewrite bind_ok
    by (eapply backward_run; [apply lookup_insert_eq|reflexivity|reflexivity]).
  erewrite bind_ok by (eapply get_grad_run; [apply lookup_insert_eq|reflexivity]).
  erewrite bind_ok by (eapply get_run; apply lookup_insert_eq).
  reflexivity.
Qed.

Lemma BIM_state_weaken (P P' : tensor → Prop) (w0 : world C) xa w :
  BIM_state P w0 xa w → (∀ t, P t → P' t) → BIM_state P' w0 xa w.
Proof.
  intros (? & (xao & ? & ? & ? & ?) & ?) HP. split; [done|].
  split; [exists xao; auto|done].
Qed.

Lemma BIM_iterations_succ (self : BIMAttack.t) x y k (w : world C) :
  BIM_iterations self x y (S k) w
  = (let! r := BIM_iterations self x y k in BIMAttack.step self x y r) w.
Proof.
  unfold BIM_iterations, bind.
  destruct (clone_detach x w) as [[xa w1]| |]; [|reflexivity..].
  by rewrite repeat_m_last.
Qed.

(** The loop variable after [k] iterations is a detached leaf, and every
    iteration has run one forward pass. *)
Lemma BIM_loop_effects (self : BIMAttack.t) x y (w : world C) xo yv k :
  tensors w !! x = Some xo → labels w !! y = Some yv →
  ∃ r w' out, BIM_iterations self x y k w = Ok (r, w') ∧
    BIM_state (λ _, True) w r w' ∧
    tensors w' !! r = Some (Tensor out None false false) ∧
    default_generator w' = Nat.iter k (advance (training (model w))) (default_generator w).
Proof.
  intros Hx Hy. induction k as [|k IH].
  - destruct (BIM_clone_state x w xo Hx) as (xa & w1 & E & Hst & _).
    exists xa, w1, (data xo). split; [|split; [|split]].
    + unfold BIM_iterations. rewrite (bind_ok _ _ _ _ _ E). reflexivity.
    + by eapply BIM_state_weaken.
    + rewrite (clone_detach_run _ _ _ Hx) in E. injection E as <- <-.
      cbn. by rewrite lookup_insert_eq.
    + rewrite (clone_detach_run _ _ _ Hx) in E. by injection E as <- <-.
  - destruct IH as (r & w1 & out & E & Hst & Hr & Hgen).
    rewrite BIM_iterations_succ, (bind_ok _ _ _ _ _ E).
    pose proof Hst as (Hr0 & _ & Hold & Hl & Hp & Ht).
    assert (x ≠ r) as Hne by congruence.
    destruct (BIM_step_run self x y r w1 xo _ yv (Hold _ _ Hx) Hr Hne eq_refl eq_refl)
      as (r' & w' & E' & Hr' & Hv' & Hold' & Hl' & Hp' & Ht' & Hg').
    { by rewrite Hl. }
    eexists r', w', _. split; [exact E'|]. split; [|split; [exact Hv'|]].
    + split.
      { destruct (tensors w !! r') eqn:E0; [|done]. apply Hold in E0. congruence. }
      split; [eexists; split; [exact Hv'|done]|].
      split; [|split; [congruence|split; congruence]].
      intros l o Hlo. apply Hold'; [congruence|auto].
    + rewrite Hg'. unfold generator_after. rewrite Ht, Hgen. reflexivity.
Qed.

End AttackEffects.

(** X4.  After [FGSMAttack.perturb] the gradient buffers of the parameters
    hold the gradient of the loss of this call alone, whatever they held
    before ([model.zero_grad()] precedes [loss.backward()]), and the leaf
    [x_adv], a new tensor, holds the gradient of that loss with respect to
    the input, with nothing accumulated. *)
Theorem FGSM_perturb_gradient_buffers (C : Classifier) (self : FGSMAttack.t)
    (x y : loc) (w : world C) (xo : tobj) (yv : list Z) :
  tensors w !! x = Some xo → labels w !! y = Some yv →
  ∃ r w', FGSMAttack.perturb self x y w = Ok (r, w') ∧
    param_grads (model w') =
      Some (d_params C (parameters (model w)) (mask_in_effect w) (data xo) (Loss yv)) ∧
    ∃ x_adv, tensors w !! x_adv = None ∧ x_adv ≠ r ∧
      tensors w' !! x_adv =
        Some (Tensor (data xo) (Some (loss_gradient w (data xo) yv)) true false).
Proof.
  intros Hx Hy. pose proof (FGSM_exact self x y w xo yv Hx Hy) as E. cbv zeta in E.
  eexists _, _. split; [exact E|]. split; [reflexivity|].
  exists (fresh (dom (tensors w))). split; [apply fresh_tensor_None|].
  match goal with |- _ ≠ fresh (dom ?h) ∧ _ => set (H := h) end.
  assert (fresh (dom (tensors w)) ≠ fresh (dom H)) as Hne.
  { intros Heq. pose proof (fresh_tensor_None H) as Hn. rewrite <- Heq in Hn.
    subst H. by rewrite lookup_insert_eq in Hn. }
  split; [exact Hne|]. cbn. rewrite lookup_insert_ne by congruence.
  subst H. by rewrite lookup_insert_eq.
Qed.

Lemma FGSM_perturb_gradient_buffers_witness :
  ∃ r w',
    FGSMAttack.perturb (FGSMAttack.New 0.1) Toy.x Toy.y
      (Examples.instrumented (Examples.used_cam true) (Some 5) false 7) = Ok (r, w') ∧
    param_grads (model w') =
      Some (d_params Toy.classifier 1 None Toy.image (Loss [0%Z])) ∧
    ∃ x_adv,
      tensors (Examples.instrumented (Examples.used_cam true) (Some 5) false 7) !! x_adv
      = None ∧ x_adv ≠ r ∧
      tensors w' !! x_adv =
        Some (Tensor Toy.image
                (Some (d_input Toy.classifier 1 None Toy.image (Loss [0%Z]))) true false).
Proof.
  apply (FGSM_perturb_gradient_buffers Toy.classifier (FGSMAttack.New 0.1)
           Toy.x Toy.y (Examples.instrumented (Examples.used_cam true) (Some 5) false 7)
           (Tensor Toy.image None false false) [0%Z]); reflexivity.
Defined.

(** X5.  The hooks of a [GradCAM] instance stay on its layer: a call of
    [FGSMAttack.perturb] whose passes execute that layer replaces both
    captures of the instance, by the activation of the layer on the attacked
    batch and by the gradient of the loss of the attack. *)
Theorem FGSM_perturb_overwrites_captures (C : Classifier) (self : FGSMAttack.t)
    (x y : loc) (w : world C) (xo : tobj) (yv : list Z)
    (c : loc) (cam : gradcam C) (a g : tensor) :
  tensors w !! x = Some xo → labels w !! y = Some yv →
  cams w !! c = Some cam →
  layer_output C (parameters (model w)) (mask_in_effect w) (data xo) (target_layer cam)
    = Some a →
  d_layer C (parameters (model w)) (mask_in_effect w) (data xo) (Loss yv)
    (target_layer cam) = Some g →
  ∃ r w', FGSMAttack.perturb self x y w = Ok (r, w') ∧
    cams w' !! c = Some (Cam (target_layer cam) (Some g) (Some a)).
Proof.
  intros Hx Hy Hc Ha Hg. pose proof (FGSM_exact self x y w xo yv Hx Hy) as E.
  cbv zeta in E. eexists _, _. split; [exact E|]. cbn.
  rewrite !lookup_fmap, Hc. cbn. unfold forward_hook. rewrite Ha.
  unfold backward_hook. cbn. by rewrite Hg.
Qed.

Lemma FGSM_perturb_overwrites_captures_witness :
  ∃ r w',
    FGSMAttack.perturb (FGSMAttack.New 0.1) Toy.x Toy.y
      (Examples.instrumented (Examples.used_cam true) None false 0) = Ok (r, w') ∧
    cams w' !! Toy.cam =
      Some (Cam (true : layer Toy.classifier)
              (Some (Toy.pattern_like (λ b, Toy.direction (Loss [0%Z]) b * 1) Toy.image))
              (Some (tmap (Qmult 1) Toy.image))).
Proof.
  apply (FGSM_perturb_overwrites_captures Toy.classifier (FGSMAttack.New 0.1)
           Toy.x Toy.y (Examples.instrumented (Examples.used_cam true) None false 0)
           (Tensor Toy.image None false false) [0%Z] Toy.cam (Examples.used_cam true));
    reflexivity.
Defined.

(** X6.  In training mode [FGSMAttack.perturb] consumes one draw of the default
    generator and [BIMAttack.perturb] one draw for every iteration; in
    evaluation mode neither attack changes the generator. *)
Theorem attacks_generator (C : Classifier)
    (x y : loc) (w : world C) (xo : tobj) (yv : list Z) :
  tensors w !! x = Some xo → labels w !! y = Some yv →
  (∀ self : FGSMAttack.t,
     ∃ r w', FGSMAttack.perturb self x y w = Ok (r, w') ∧
       default_generator w' = advance (training (model w)) (default_generator w)) ∧
  (∀ self : BIMAttack.t,
     ∃ r w', BIMAttack.perturb self x y w = Ok (r, w') ∧
       default_generator w' =
         Nat.iter (Z.to_nat (BIMAttack.iters self)) (advance (training (model w)))
           (default_generator w)) ∧
  (training (model w) = false →
   ∀ a : attack, ∃ r w', attack_perturb a x y w = Ok (r, w') ∧
     default_generator w' = default_generator w).
Proof.
  intros Hx Hy.
  assert (∀ self : FGSMAttack.t,
     ∃ r w', FGSMAttack.perturb self x y w = Ok (r, w') ∧
       default_generator w' = advance (training (model w)) (default_generator w)) as HF.
  { intros self.
    destruct (FGSM_run self x y w xo yv Hx Hy) as (r & w' & E & _ & _ & _ & _ & _ & _ & Hg & _).
    by exists r, w'. }
  assert (∀ self : BIMAttack.t,
     ∃ r w', BIMAttack.perturb self x y w = Ok (r, w') ∧
       default_generator w' =
         Nat.iter (Z.to_nat (BIMAttack.iters self)) (advance (training (model w)))
           (default_generator w)) as HB.
  { intros self. rewrite BIM_perturb_iterations.
    destruct (BIM_loop_effects self x y w xo yv (Z.to_nat (BIMAttack.iters self)) Hx Hy)
      as (r & w' & out & E & _ & _ & Hg).
    by exists r, w'. }
  split; [exact HF|]. split; [exact HB|].
  intros Hm [self|self]; cbn.
  - destruct (HF self) as (r & w' & E & Hg). exists r, w'. split; [exact E|].
    by rewrite Hg, Hm.
  - destruct (HB self) as (r & w' & E & Hg). exists r, w'. split; [exact E|].
    rewrite Hg, Hm. clear. induction (Z.to_nat _) as [|n IH]; [done|].
    rewrite Nat.iter_succ. exact IH.
Qed.

Lemma attacks_generator_witness :
  (∃ r w',
     FGSMAttack.perturb (FGSMAttack.New 0.1) Toy.x Toy.y (Toy.world0 1 true)
     = Ok (r, w') ∧ default_generator w' = 1%nat) ∧
  (∃ r w',
     BIMAttack.perturb (BIMAttack.New 0.1 0.04 3) Toy.x Toy.y (Toy.world0 1 true)
     = Ok (r, w') ∧ default_generator w' = 3%nat) ∧
  (∃ r w',
     BIMAttack.perturb (BIMAttack.New 0.1 0.04 3) Toy.x Toy.y (Toy.world0 1 false)
     = Ok (r, w') ∧ default_generator w' = 0%nat).
Proof.
  destruct (attacks_generator Toy.classifier Toy.x Toy.y (Toy.world0 1 true)
              (Tensor Toy.image None false false) [0%Z]) as (HF & HB & _);
    [reflexivity|reflexivity|].
  destruct (attacks_generator Toy.classifier Toy.x Toy.y (Toy.world0 1 false)
              (Tensor Toy.image None false false) [0%Z]) as (_ & _ & HE);
    [reflexivity|reflexivity|].
  split; [exact (HF (FGSMAttack.New 0.1))|].
  split; [exact (HB (BIMAttack.New 0.1 0.04 3))|].
  exact (HE eq_refl (BIM (BIMAttack.New 0.1 0.04 3))).
Defined.

(** X7.  The tensor that [FGSMAttack.perturb] returns requires gradients and
    is the result of differentiable operations (it is still attached to the
    graph of the call), whereas [BIMAttack.perturb] returns a detached leaf,
    for every number of iterations. *)
Theorem attacks_result_attachment (C : Classifier)
    (x y : loc) (w : world C) (xo : tobj) (yv : list Z) :
  tensors w !! x = Some xo → labels w !! y = Some yv →
  (∀ self : FGSMAttack.t,
     ∃ r w' o, FGSMAttack.perturb self x y w = Ok (r, w') ∧
       tensors w' !! r = Some o ∧
       requires_grad o = true ∧ grad_fn o = true ∧ grad o = None) ∧
  (∀ self : BIMAttack.t,
     ∃ r w' o, BIMAttack.perturb self x y w = Ok (r, w') ∧
       tensors w' !! r = Some o ∧
       requires_grad o = false ∧ grad_fn o = false ∧ grad o = None).
Proof.
  intros Hx Hy. split; intros self.
  - destruct (FGSM_run self x y w xo yv Hx Hy) as (r & w' & E & _ & Hv & _).
    by eexists r, w', _.
  - rewrite BIM_perturb_iterations.
    destruct (BIM_loop_effects self x y w xo yv (Z.to_nat (BIMAttack.iters self)) Hx Hy)
      as (r & w' & out & E & _ & Hr & _).
    by eexists r, w', _.
Qed.

Lemma attacks_result_attachment_witness :
  (∃ r w' o,
     FGSMAttack.perturb (FGSMAttack.New 0.1) Toy.x Toy.y (Toy.world0 1 false)
     = Ok (r, w') ∧ tensors w' !! r = Some o ∧
     requires_grad o = true ∧ grad_fn o = true ∧ grad o = None) ∧
  (∃ r w' o,
     BIMAttack.perturb (BIMAttack.New 0.1 0.04 3) Toy.x Toy.y (Toy.world0 1 false)
     = Ok (r, w') ∧ tensors w' !! r = Some o ∧
     requires_grad o = false ∧ grad_fn o = false ∧ grad o = None).
Proof.
  destruct (attacks_result_attachment Toy.classifier Toy.x Toy.y (Toy.world0 1 false)
              (Tensor Toy.image None false false) [0%Z]) as (HF & HB);
    [reflexivity|reflexivity|].
  split; [exact (HF (FGSMAttack.New 0.1))|exact (HB (BIMAttack.New 0.1 0.04 3))].
Defined.

(** X8.  With [iters ≤ 0] the loop of [BIMAttack.perturb] does not run: the
    call returns a new copy of the input and leaves the classifier, the
    registered [GradCAM] instances, the generator and the labels exactly as
    they were. *)
Theorem BIM_perturb_no_iteration (C : Classifier) (self : BIMAttack.t)
    (x y : loc) (w : world C) (xo : tobj) :
  (BIMAttack.iters self ≤ 0)%Z →
  tensors w !! x = Some xo →
  ∃ r, tensors w !! r = None ∧
    BIMAttack.perturb self x y w =
    Ok (r, World (<[r := Tensor (data xo) None false false]> (tensors w))
                 (labels w) (cams w) (model w) (default_generator w)).
Proof.
  intros Hi Hx. exists (fresh (dom (tensors w))). split; [apply fresh_tensor_None|].
  unfold BIMAttack.perturb.
  rewrite (bind_ok _ _ _ _ _ (clone_detach_run _ _ _ Hx)).
  replace (Z.to_nat (BIMAttack.iters self)) with 0%nat by lia. reflexivity.
Qed.

Lemma BIM_perturb_no_iteration_witness :
  ∃ r, tensors (Toy.world0 1 true) !! r = None ∧
    BIMAttack.perturb (BIMAttack.New 0.1 0.04 (-2)) Toy.x Toy.y (Toy.world0 1 true) =
    Ok (r, World (<[r := Tensor Toy.image None false false]> (tensors (Toy.world0 1 true)))
                 (labels (Toy.world0 1 true)) (cams (Toy.world0 1 true))
                 (model (Toy.world0 1 true)) (default_generator (Toy.world0 1 true))).
Proof.
  apply (BIM_perturb_no_iteration Toy.classifier (BIMAttack.New 0.1 0.04 (-2))
           Toy.x Toy.y (Toy.world0 1 true) (Tensor Toy.image None false false)).
  - simpl. lia.
  - reflexivity.
Defined.

(** ** The step size of [BIMAttack.perturb] *)

(** One iteration moves an element that is within [B] of the input to an
    element within [B + alpha]. *)
Lemma iteration_step_bound eps alpha x t g B :
  0 <= eps → 0 <= alpha → 0 <= x <= 1 → Qabs (t - x) <= B →
  Qabs (clamp (x + clamp (t + alpha * sign g - x) (- eps) eps) 0 1 - x) <= B + alpha.
Proof.
  intros He Ha Hx Ht. apply Qabs_Qle_condition in Ht.
  apply Qabs_Qle_condition.
  assert (- alpha <= alpha * sign g <= alpha) as Hs by (by apply signed_step_range).
  set (s := alpha * sign g) in *. clearbody s.
  unfold clamp.
  destruct (Q.max_spec (t + s - x) (- eps)) as [[? ?]|[? ?]];
    destruct (Q.min_spec (Qmax (t + s - x) (- eps)) eps) as [[? ?]|[? ?]];
    set (p := Qmin (Qmax (t + s - x) (- eps)) eps) in *; clearbody p;
    destruct (Q.max_spec (x + p) 0) as [[? ?]|[? ?]];
    destruct (Q.min_spec (Qmax (x + p) 0) 1) as [[? ?]|[? ?]]; lra.
Qed.

Lemma iteration_zero_step eps alpha x t g :
  0 <= eps → alpha == 0 → 0 <= x <= 1 → t == x →
  clamp (x + clamp (t + alpha * sign g - x) (- eps) eps) 0 1 == x.
Proof.
  intros He Ha Hx Ht.
  pose proof (iteration_step_bound eps alpha x t g 0 He ltac:(lra) Hx) as H.
  assert (Qabs (t - x) <= 0) as H0.
  { apply Qabs_Qle_condition. lra. }
  apply H in H0. apply Qabs_Qle_condition in H0. lra.
Qed.

(** The element-wise formula of an iteration. *)
Lemma iteration_fused (self : BIMAttack.t) x xa g :
  same_shape x xa → same_shape xa g →
  ∀ (R : Q → Q → Prop) (S : Q → Q → Prop),
    tall2 S x xa →
    (∀ xv tv gv, S xv tv →
       R xv (clamp (xv + clamp (tv + BIMAttack.alpha self * sign gv - xv)
                            (- BIMAttack.epsilon self) (BIMAttack.epsilon self)) 0 1)) →
    tall2 R x (BIM_update self x xa g).
Proof.
  intros Hxa Hg R S HS HR. unfold BIM_update.
  set (eps := BIMAttack.epsilon self). set (al := BIMAttack.alpha self).
  unfold t_clamp at 1.
  eapply tall2_tmap_r
    with (S' := λ xv v, ∃ tv gv, S xv tv ∧ v = xv + clamp (tv + al * sign gv - xv) (- eps) eps).
  2:{ intros u v (tv & gv & Hs & ->). by apply HR. }
  unfold t_add at 1.
  eapply tall2_tzip_r
    with (S1 := eq)
         (S2 := λ xv p, ∃ tv gv, S xv tv ∧ p = clamp (tv + al * sign gv - xv) (- eps) eps).
  { by apply tall2_refl. }
  2:{ intros u v p <- (tv & gv & Hs & ->). by exists tv, gv. }
  eapply tall2_tmap_r
    with (S' := λ xv d, ∃ tv gv, S xv tv ∧ d = tv + al * sign gv - xv).
  2:{ intros u d (tv & gv & Hs & ->). by exists tv, gv. }
  unfold t_sub.
  eapply tall2_tzip_r
    with (S1 := λ xv v, ∃ tv gv, S xv tv ∧ v = tv + al * sign gv) (S2 := eq).
  2:{ by apply tall2_refl. }
  2:{ intros u v ? (tv & gv & Hs & ->) <-. by exists tv, gv. }
  unfold t_add.
  eapply tall2_tzip_r with (S1 := S) (S2 := λ _ a, ∃ gv, a = al * sign gv).
  { exact HS. }
  2:{ intros u tv a Hs (gv & ->). by exists tv, gv. }
  unfold t_scale, t_sign.
  eapply tall2_tmap_r with (S' := λ _ s, ∃ gv, s = sign gv).
  2:{ intros u s (gv & ->). by exists gv. }
  eapply tall2_tmap_r with (S' := λ _ _, True).
  2:{ intros u gv _. by exists gv. }
  by eapply same_shape_trans.
Qed.

Lemma BIM_update_zero_step self x xa g :
  same_shape xa g →
  0 <= BIMAttack.epsilon self → BIMAttack.alpha self == 0 → in_unit_range x →
  teq xa x → teq (BIM_update self x xa g) x.
Proof.
  intros Hg He Ha Hx Hw. unfold teq.
  assert (same_shape x xa) as Hxa by (apply same_shape_sym; by eapply same_shape_of).
  eapply tall2_swap with (R := λ u v, v == u); [|by intros].
  eapply iteration_fused with (S := λ xv tv, 0 <= xv <= 1 ∧ tv == xv);
    [done|done| |].
  - eapply tall2_with_left with (R := λ xv tv, tv == xv); [|exact Hx|by intros].
    eapply tall2_swap; [exact Hw|]. by intros.
  - intros xv tv gv [Hu Ht]. by apply iteration_zero_step.
Qed.

Lemma within_refl_zero x : within 0 x x.
Proof.
  apply tall2_refl. intros u. apply Qabs_Qle_condition. lra.
Qed.

Lemma within_zero_teq a b : within 0 a b → teq a b.
Proof.
  intros H. eapply tall2_weaken; [exact H|]. intros u v Hu.
  apply Qabs_Qle_condition in Hu. lra.
Qed.

Lemma within_proper eps eps' a b : eps == eps' → within eps a b → within eps' a b.
Proof.
  intros He H. eapply tall2_weaken; [exact H|]. intros u v Hu. cbv beta in *. lra.
Qed.

Section IterationInArithmetic.
Context {C : Classifier} (A : arithmetic).

Lemma BIM_iterations_succ_in (self : BIMAttack.t) x y k (w : world C) :
  InArithmetic.BIM_iterations A self x y (S k) w
  = (let! r := InArithmetic.BIM_iterations A self x y k in
     InArithmetic.BIM_step A self x y r) w.
Proof.
  unfold InArithmetic.BIM_iterations, bind.
  destruct (clone_detach x w) as [[xa w1]| |]; [|reflexivity..].
  by rewrite repeat_m_last.
Qed.

(** The element-wise formula of an iteration. *)
Lemma iteration_fused_in (self : BIMAttack.t) x xa g :
  same_shape x xa → same_shape xa g →
  ∀ (R : Q → Q → Prop) (S : Q → Q → Prop),
    tall2 S x xa →
    (∀ xv tv gv, S xv tv →
       R xv (clamp (add A xv
                      (clamp (sub A (add A tv (mul A (of_number A (BIMAttack.alpha self))
                                                 (sign gv))) xv)
                             (of_number A (- BIMAttack.epsilon self))
                             (of_number A (BIMAttack.epsilon self))))
                   (of_number A 0) (of_number A 1))) →
    tall2 R x (InArithmetic.BIM_value A self x xa g).
Proof.
  intros Hxa Hg R S HS HR. unfold InArithmetic.BIM_value.
  set (lo := of_number A (- BIMAttack.epsilon self)).
  set (hi := of_number A (BIMAttack.epsilon self)).
  set (al := of_number A (BIMAttack.alpha self)).
  unfold InArithmetic.t_clamp at 1.
  eapply tall2_tmap_r
    with (S' := λ xv v, ∃ tv gv, S xv tv ∧
                  v = add A xv (clamp (sub A (add A tv (mul A al (sign gv))) xv) lo hi)).
  2:{ intros u v (tv & gv & Hs & ->). by apply HR. }
  unfold InArithmetic.t_add at 1.
  eapply tall2_tzip_r
    with (S1 := eq)
         (S2 := λ xv p, ∃ tv gv, S xv tv ∧
                  p = clamp (sub A (add A tv (mul A al (sign gv))) xv) lo hi).
  { by apply tall2_refl. }
  2:{ intros u v p <- (tv & gv & Hs & ->). by exists tv, gv. }
  eapply tall2_tmap_r
    with (S' := λ xv d, ∃ tv gv, S xv tv ∧ d = sub A (add A tv (mul A al (sign gv))) xv).
  2:{ intros u d (tv & gv & Hs & ->). by exists tv, gv. }
  unfold InArithmetic.t_sub.
  eapply tall2_tzip_r
    with (S1 := λ xv v, ∃ tv gv, S xv tv ∧ v = add A tv (mul A al (sign gv))) (S2 := eq).
  2:{ by apply tall2_refl. }
  2:{ intros u v ? (tv & gv & Hs & ->) <-. by exists tv, gv. }
  unfold InArithmetic.t_add.
  eapply tall2_tzip_r with (S1 := S) (S2 := λ _ a, ∃ gv, a = mul A al (sign gv)).
  { exact HS. }
  2:{ intros u tv a Hs (gv & ->). by exists tv, gv. }
  unfold InArithmetic.t_scale, t_sign.
  eapply tall2_tmap_r with (S' := λ _ s, ∃ gv, s = sign gv).
  2:{ intros u s (gv & ->). by exists gv. }
  eapply tall2_tmap_r with (S' := λ _ _, True).
  2:{ intros u gv _. by exists gv. }
  by eapply same_shape_trans.
Qed.

End IterationInArithmetic.

Lemma BIM_value_float32_step_bound self x xa g B :
  same_shape xa g →
  0 <= BIMAttack.epsilon self → 0 <= BIMAttack.alpha self →
  in_unit_range x → in_unit_range xa → within B xa x →
  within (B + (BIMAttack.alpha self + 2 ^ (-21) * (1 + BIMAttack.alpha self)))
         (InArithmetic.BIM_value float32 self x xa g) x.
Proof.
  intros Hg He Ha Hx Hxa Hw. unfold within.
  assert (same_shape x xa) as Hs by (apply same_shape_sym; by eapply same_shape_of).
  eapply tall2_swap with (R := λ u v, Qabs (v - u) <= _); [|by intros].
  eapply iteration_fused_in
    with (S := λ xv tv, 0 <= xv <= 1 ∧ 0 <= tv <= 1 ∧ Qabs (tv - xv) <= B);
    [done|done| |].
  - eapply tall2_with_left with (R := λ xv tv, 0 <= tv <= 1 ∧ Qabs (tv - xv) <= B);
      [|exact Hx|by intros].
    eapply tall2_swap with (R := λ tv xv, Qabs (tv - xv) <= B ∧ 0 <= tv <= 1);
      [|by intros ?? [??]].
    eapply tall2_with_left; [exact Hw|exact Hxa|]. by intros.
  - intros xv tv gv (Hu & Ht & Hb). cbn [of_number add sub mul float32].
    by apply float32_iteration_bound.
Qed.

(** X9.  In 32-bit floats, for [0 ≤ ε] and [0 ≤ α] in the range of the
    floats and an input of floats in [0, 1], after [k] iterations of
    [BIMAttack.perturb] [x_adv] is within [k · (α + 2^-21 · (1 + α))] of the
    input, element by element, and so is the result for [k = max(0, iters)]:
    the budget [ε] is out of reach when that bound is below [ε]. *)
Theorem BIM_perturb_step_budget (C : Classifier) (self : BIMAttack.t)
    (x y : loc) (w : world C) (xo : tobj) (yv : list Z) :
  grad_shaped C →
  0 <= BIMAttack.epsilon self <= Float32.max_value →
  0 <= BIMAttack.alpha self <= Float32.max_value →
  in_unit_range (data xo) → tall Float32.is_float (data xo) →
  tensors w !! x = Some xo → labels w !! y = Some yv →
  (∀ k, ∃ r w' out, InArithmetic.BIM_iterations float32 self x y k w = Ok (r, w') ∧
     value_at w' r = Some out ∧
     within (inject_Z (Z.of_nat k)
             * (BIMAttack.alpha self + 2 ^ (-21) * (1 + BIMAttack.alpha self)))
            out (data xo)) ∧
  ∃ r w' out, InArithmetic.BIM_perturb float32 self x y w = Ok (r, w') ∧
    value_at w' r = Some out ∧
    within (inject_Z (Z.max 0 (BIMAttack.iters self))
            * (BIMAttack.alpha self + 2 ^ (-21) * (1 + BIMAttack.alpha self)))
           out (data xo).
Proof.
  intros HC [He _] [Ha _] Hu _ Hx Hy.
  set (step := BIMAttack.alpha self + 2 ^ (-21) * (1 + BIMAttack.alpha self)).
  assert (∀ k, ∃ r w', InArithmetic.BIM_iterations float32 self x y k w = Ok (r, w') ∧
     BIM_state (λ t, in_unit_range t ∧
                     within (inject_Z (Z.of_nat k) * step) t (data xo)) w r w') as Hk.
  { induction k as [|k IH].
    - destruct (BIM_clone_state x w xo Hx) as (xa & w1 & E & Hst & _).
      exists xa, w1. split.
      + unfold InArithmetic.BIM_iterations. rewrite (bind_ok _ _ _ _ _ E). reflexivity.
      + eapply BIM_state_weaken; [exact Hst|]. intros t ->. split; [done|].
        eapply within_proper; [|apply within_refl_zero].
        change (inject_Z (Z.of_nat 0)) with 0. ring.
    - destruct IH as (r & w1 & E & Hst).
      rewrite BIM_iterations_succ_in, (bind_ok _ _ _ _ _ E).
      eapply BIM_step_state_in; [exact Hx|exact Hy| |exact Hst].
      intros t w' [Hr Ht]. split; [apply BIM_value_float32_in_range|].
      eapply within_proper;
        [|apply BIM_value_float32_step_bound; [apply HC|done..|exact Ht]].
      rewrite Nat2Z.inj_succ. unfold Z.succ. rewrite inject_Z_plus.
      change (inject_Z 1) with 1. fold step. ring. }
  assert (∀ k, ∃ r w' out, InArithmetic.BIM_iterations float32 self x y k w = Ok (r, w') ∧
     value_at w' r = Some out ∧
     within (inject_Z (Z.of_nat k) * step) out (data xo)) as Hk'.
  { intros k. destruct (Hk k) as (r & w' & E & Hst).
    destruct (BIM_state_value _ _ _ _ Hst) as (out & Hv & _ & Hw).
    by exists r, w', out. }
  split; [exact Hk'|].
  unfold InArithmetic.BIM_perturb.
  destruct (Hk' (Z.to_nat (BIMAttack.iters self))) as (r & w' & out & E & Hv & Hw).
  exists r, w', out. split; [exact E|]. split; [exact Hv|].
  replace (Z.max 0 (BIMAttack.iters self)) with (Z.of_nat (Z.to_nat (BIMAttack.iters self)))
    by lia.
  exact Hw.
Qed.

Lemma BIM_perturb_step_budget_witness :
  ∃ r w' out,
    InArithmetic.BIM_perturb float32 (BIMAttack.New 0.1 0.02 3) Toy.x Toy.y
      (Toy.world0 1 false) = Ok (r, w') ∧
    value_at w' r = Some out ∧
    within (inject_Z 3 * (0.02 + 2 ^ (-21) * (1 + 0.02))) out Toy.image.
Proof.
  destruct (BIM_perturb_step_budget Toy.classifier (BIMAttack.New 0.1 0.02 3)
              Toy.x Toy.y (Toy.world0 1 false)
              (Tensor Toy.image None false false) [0%Z]) as [_ H].
  - exact Toy_grad_shaped.
  - split; vm_compute; discriminate.
  - split; vm_compute; discriminate.
  - exact Toy_image_in_unit_range.
  - exact Toy_image_floats.
  - reflexivity.
  - reflexivity.
  - exact H.
Defined.

(** X10.  For [ε ≥ 0] and an input with elements in [0, 1]: with a step size
    [α = 0], or with a budget [ε = 0], [BIMAttack.perturb] returns the
    elements of the input, for every number of iterations. *)
Theorem BIM_perturb_zero_step (C : Classifier) (self : BIMAttack.t)
    (x y : loc) (w : world C) (xo : tobj) (yv : list Z) :
  grad_shaped C →
  0 <= BIMAttack.epsilon self →
  BIMAttack.alpha self == 0 ∨ BIMAttack.epsilon self == 0 →
  in_unit_range (data xo) →
  tensors w !! x = Some xo → labels w !! y = Some yv →
  ∃ r w' out, BIMAttack.perturb self x y w = Ok (r, w') ∧
    value_at w' r = Some out ∧ teq out (data xo).
Proof.
  intros HC He H0 Hu Hx Hy. rewrite BIM_perturb_iterations.
  destruct (BIM_run self (λ t, same_shape (data xo) t ∧
                               (BIMAttack.alpha self == 0 → teq t (data xo)))
              (λ t, teq t (data xo)) x y w xo yv
              (Z.to_nat (BIMAttack.iters self)) Hx Hy)
    as (r & w' & E & Hst).
  - split; [apply same_shape_refl|]. intros _. apply teq_refl.
  - intros t Ht. split; [|done]. apply same_shape_sym. by eapply same_shape_of.
  - intros t w0 [Hs Ht]. destruct H0 as [Ha|He0].
    + apply BIM_update_zero_step; [apply HC|done..|by apply Ht].
    + apply within_zero_teq. eapply within_proper; [exact He0|].
      apply BIM_update_within; [done|apply HC|done..].
  - destruct (Z.to_nat (BIMAttack.iters self)) as [|k] eqn:Ek.
    + destruct (BIM_clone_state x w xo Hx) as (xa & w1 & E1 & Hst1 & _).
      unfold BIM_iterations in E. rewrite (bind_ok _ _ _ _ _ E1) in E.
      cbn in E. injection E as <- <-.
      destruct (BIM_state_value _ _ _ _ Hst1) as (out & Hv & ->).
      exists xa, w1, (data xo). split; [|split; [exact Hv|apply teq_refl]].
      unfold BIM_iterations. by rewrite (bind_ok _ _ _ _ _ E1).
    + destruct (BIM_state_value _ _ _ _ Hst) as (out & Hv & Hw).
      by exists r, w', out.
Qed.

Lemma BIM_perturb_zero_step_witness :
  ∃ r w' out,
    BIMAttack.perturb (BIMAttack.New 0.1 0 3) Toy.x Toy.y (Toy.world0 1 false)
    = Ok (r, w') ∧
    value_at w' r = Some out ∧ teq out Toy.image.
Proof.
  apply (BIM_perturb_zero_step Toy.classifier (BIMAttack.New 0.1 0 3)
           Toy.x Toy.y (Toy.world0 1 false)
           (Tensor Toy.image None false false) [0%Z]).
  - exact Toy_grad_shaped.
  - unfold Qle. simpl. lia.
  - left. reflexivity.
  - exact Toy_image_in_unit_range.
  - reflexivity.
  - reflexivity.
Defined.

(** * More about Grad-CAM *)

Lemma py_index_wrap n c :
  (0 ≤ c < Z.of_nat n)%Z → py_index n (c - Z.of_nat n) = py_index n c.
Proof.
  intros H. unfold py_index.
  destruct (decide (0 ≤ c - Z.of_nat n < Z.of_nat n)%Z); [lia|].
  destruct (decide (- Z.of_nat n ≤ c - Z.of_nat n < 0)%Z); [|lia].
  destruct (decide (0 ≤ c < Z.of_nat n)%Z); [|lia].
  f_equal. lia.
Qed.

Lemma py_index_None n c :
  py_index n c = None ↔ ¬ (- Z.of_nat n ≤ c < Z.of_nat n)%Z.
Proof.
  unfold py_index.
  destruct (decide (0 ≤ c < Z.of_nat n)%Z); [split; [done|lia]|].
  destruct (decide (- Z.of_nat n ≤ c < 0)%Z); [split; [done|lia]|].
  split; [lia|done].
Qed.

Lemma py_index_bound n c k : py_index n c = Some k → (k < n)%nat.
Proof.
  unfold py_index.
  destruct (decide (0 ≤ c < Z.of_nat n)%Z); [intros [= <-]; lia|].
  destruct (decide (- Z.of_nat n ≤ c < 0)%Z); [intros [= <-]; lia|done].
Qed.

Section GradCAMMore.
Context {C : Classifier}.

(** [generate] reads its [target_class] in [output[0, target_class]]
    only. *)
Lemma bind_ext {A B} (c : M C A) (k1 k2 : A → M C B) w :
  (∀ a w1, c w = Ok (a, w1) → k1 a w1 = k2 a w1) → bind c k1 w = bind c k2 w.
Proof. intros H. unfold bind. destruct (c w) as [[a w1]| |]; auto. Qed.

Lemma generate_class_only self img c1 c2 (w : world C) io :
  tensors w !! img = Some io →
  selected_class w (data io) c1 = selected_class w (data io) c2 →
  GradCAM.generate self img c1 w = GradCAM.generate self img c2 w.
Proof.
  intros Himg Hsel. unfold GradCAM.generate.
  apply bind_ext. intros [] w1 E1. injection E1 as <-.
  apply bind_ext. intros g w2 E2.
  erewrite (call_model_run img _ io) in E2 by exact Himg.
  injection E2 as <- <-.
  change (mask_in_effect (set_model _ w)) with (mask_in_effect w).
  cbn [set_model model parameters].
  assert (∀ W : world C,
    select_score (Graph (parameters (model w)) (mask_in_effect w) img (data io)) c1 W =
    select_score (Graph (parameters (model w)) (mask_in_effect w) img (data io)) c2 W)
    as Hss.
  { intros W. unfold select_score. cbn [g_params g_mask g_value].
    unfold selected_class in Hsel.
    destruct (logits C (parameters (model w)) (mask_in_effect w) (data io))
      as [|row rest]; [reflexivity|].
    by rewrite Hsel. }
  unfold bind at 1 6. by rewrite Hss.
Qed.

Lemma hooks_keep_layer θ m x o θ' m' x' (cam : gradcam C) :
  target_layer (backward_hook θ m x o (forward_hook θ' m' x' cam)) = target_layer cam.
Proof.
  unfold backward_hook, forward_hook.
  destruct (layer_output C θ' m' x' (target_layer cam)); cbn;
    destruct (d_layer C θ m x o _); reflexivity.
Qed.

Lemma captured_executed (w : world C) x k (cam : gradcam C) a g :
  layer_output C (parameters (model w)) (mask_in_effect w) x (target_layer cam) = Some a →
  d_layer C (parameters (model w)) (mask_in_effect w) x (Score k) (target_layer cam)
    = Some g →
  captured w x k cam = Cam (target_layer cam) (Some g) (Some a).
Proof.
  intros Ha Hg. unfold captured, forward_hook. rewrite Ha.
  unfold backward_hook. cbn. by rewrite Hg.
Qed.

Lemma captured_not_executed (w : world C) x k (cam : gradcam C) :
  layer_output C (parameters (model w)) (mask_in_effect w) x (target_layer cam) = None →
  d_layer C (parameters (model w)) (mask_in_effect w) x (Score k) (target_layer cam)
    = None →
  captured w x k cam = cam.
Proof.
  intros Ha Hg. unfold captured, forward_hook. rewrite Ha.
  unfold backward_hook. by rewrite Hg.
Qed.

(** The outcome of [generate] as a map, from the outcome of the tensor
    computation. *)
Lemma generate_run_map self img c (w : world C) io cam k :
  tensors w !! img = Some io → cams w !! self = Some cam →
  selected_class w (data io) c = Some k →
  ∀ o, cam_value (spatial_size (data io)) (captured w (data io) k cam) = o →
  match o with
  | Ok t => ∃ r w', GradCAM.generate self img c w = Ok (r, w') ∧ value_at w' r = Some t
  | Raise e => GradCAM.generate self img c w = Raise e
  | NotFinite => GradCAM.generate self img c w = NotFinite
  end.
Proof.
  intros Himg Hcam Hk o <-. by apply generate_run.
Qed.

(** A successful call of [generate], read backwards. *)
Lemma generate_Ok_inv self img c (w : world C) r w' :
  GradCAM.generate self img c w = Ok (r, w') →
  ∃ io cam k t, tensors w !! img = Some io ∧ cams w !! self = Some cam ∧
    selected_class w (data io) c = Some k ∧
    cam_value (spatial_size (data io)) (captured w (data io) k cam) = Ok t ∧
    value_at w' r = Some t.
Proof.
  intros E.
  destruct (tensors w !! img) as [io|] eqn:Himg.
  2:{ rewrite generate_no_input in E by done. done. }
  destruct (selected_class w (data io) c) as [k|] eqn:Hk.
  2:{ rewrite (generate_no_class _ _ _ _ io) in E by done. done. }
  destruct (cams w !! self) as [cam|] eqn:Hcam.
  2:{ rewrite (generate_no_self _ _ _ _ io k) in E by done. done. }
  pose proof (generate_run self img c w io cam k Himg Hcam Hk) as Hrun.
  destruct (cam_value _ _) as [t| |] eqn:Hv.
  - destruct Hrun as (r0 & w0 & E0 & Hval). rewrite E0 in E.
    injection E as <- <-. by exists io, cam, k, t.
  - rewrite Hrun in E. done.
  - rewrite Hrun in E. done.
Qed.

Lemma generate_same_map self1 self2 img1 img2 c (w1 w2 : world C)
    io1 io2 cam1 cam2 k :
  tensors w1 !! img1 = Some io1 → tensors w2 !! img2 = Some io2 →
  cams w1 !! self1 = Some cam1 → cams w2 !! self2 = Some cam2 →
  selected_class w1 (data io1) c = Some k →
  selected_class w2 (data io2) c = Some k →
  spatial_size (data io1) = spatial_size (data io2) →
  captured w1 (data io1) k cam1 = captured w2 (data io2) k cam2 →
  same_map (GradCAM.generate self1 img1 c w1) (GradCAM.generate self2 img2 c w2).
Proof.
  intros Hi1 Hi2 Hc1 Hc2 Hk1 Hk2 Hs Hcap.
  pose proof (generate_run self1 img1 c w1 io1 cam1 k Hi1 Hc1 Hk1) as H1.
  pose proof (generate_run self2 img2 c w2 io2 cam2 k Hi2 Hc2 Hk2) as H2.
  rewrite <- Hs, <- Hcap in H2.
  destruct (cam_value _ _) as [t| |].
  - destruct H1 as (r1 & w1' & -> & Hv1). destruct H2 as (r2 & w2' & -> & Hv2).
    cbn. rewrite Hv1, Hv2. split; [by eexists|done].
  - by rewrite H1, H2.
  - by rewrite H1, H2.
Qed.

End GradCAMMore.

(** X11.  [target_class] indexes the scores as Python indexes: with [n]
    classes, [c - n] selects the class that [c] selects, for [0 ≤ c < n],
    and [GradCAM.generate] has the same outcome for both; a [target_class]
    outside [-n, n) raises [IndexError]. *)
Theorem generate_class_index (C : Classifier) (self img : loc) (w : world C)
    (io : tobj) (row : list Q) (rest : list (list Q)) :
  tensors w !! img = Some io →
  logits C (parameters (model w)) (mask_in_effect w) (data io) = row :: rest →
  (∀ c, (0 ≤ c < Z.of_nat (length row))%Z →
     GradCAM.generate self img (c - Z.of_nat (length row)) w
     = GradCAM.generate self img c w) ∧
  (∀ c, ¬ (- Z.of_nat (length row) ≤ c < Z.of_nat (length row))%Z →
     GradCAM.generate self img c w = Raise IndexError).
Proof.
  intros Himg Hl. split; intros c Hc.
  - apply (generate_class_only _ _ _ _ _ io Himg).
    unfold selected_class. rewrite Hl. by apply py_index_wrap.
  - apply (generate_no_class _ _ _ _ io Himg).
    unfold selected_class. rewrite Hl. by apply py_index_None.
Qed.

Lemma generate_class_index_witness :
  GradCAM.generate Toy.cam Toy.x (-1) (Toy.world1 1 true)
  = GradCAM.generate Toy.cam Toy.x 1 (Toy.world1 1 true) ∧
  GradCAM.generate Toy.cam Toy.x 2 (Toy.world1 1 true) = Raise IndexError ∧
  GradCAM.generate Toy.cam Toy.x (-3) (Toy.world1 1 true) = Raise IndexError.
Proof.
  destruct (generate_class_index Toy.classifier Toy.cam Toy.x (Toy.world1 1 true)
              (Tensor Toy.photo None false false)
              [1 * Toy.keep None * Toy.dot_pattern [[[0.2; 0.8]]; [[0.5; 0.1]]];
               - (1 * Toy.keep None * Toy.dot_pattern [[[0.2; 0.8]]; [[0.5; 0.1]]])]
              []) as [H1 H2]; [reflexivity|reflexivity|].
  split; [|split].
  - apply (H1 1%Z). simpl. lia.
  - apply H2. simpl. lia.
  - apply H2. simpl. lia.
Defined.

Lemma generate_same_pass {C : Classifier} (self1 self2 img1 img2 : loc) (c : Z)
    (w1 w2 : world C) (io1 io2 : tobj) (cam1 cam2 : gradcam C) (k : nat) (a g : tensor) :
  tensors w1 !! img1 = Some io1 → tensors w2 !! img2 = Some io2 →
  data io1 = data io2 →
  parameters (model w1) = parameters (model w2) →
  mask_in_effect w1 = mask_in_effect w2 →
  cams w1 !! self1 = Some cam1 → cams w2 !! self2 = Some cam2 →
  target_layer cam1 = target_layer cam2 →
  selected_class w1 (data io1) c = Some k →
  layer_output C (parameters (model w1)) (mask_in_effect w1) (data io1)
    (target_layer cam1) = Some a →
  d_layer C (parameters (model w1)) (mask_in_effect w1) (data io1) (Score k)
    (target_layer cam1) = Some g →
  same_map (GradCAM.generate self1 img1 c w1) (GradCAM.generate self2 img2 c w2).
Proof.
  intros Hi1 Hi2 Hd Hp Hm Hc1 Hc2 Hl Hk Ha Hg.
  eapply generate_same_map; try done.
  - unfold selected_class in *. by rewrite <- Hp, <- Hm, <- Hd.
  - by rewrite Hd.
  - rewrite (captured_executed w1 _ _ _ a g Ha Hg).
    rewrite (captured_executed w2 _ _ _ a g).
    + by rewrite Hl.
    + by rewrite <- Hp, <- Hm, <- Hd, <- Hl.
    + by rewrite <- Hp, <- Hm, <- Hd, <- Hl.
Qed.

(** X12.  When the pass of the call executes the designated layer, the outcome
    of [GradCAM.generate] (the map, or the exception) depends on the
    parameters, the dropout mask, the elements of the image and the layer
    only: not on the captures that earlier passes left in the instance, nor
    on the gradient buffers, nor on which instance on that layer is
    used. *)
Theorem generate_depends_on_pass (C : Classifier) (self1 self2 img1 img2 : loc) (c : Z)
    (w1 w2 : world C) (io1 io2 : tobj) (cam1 cam2 : gradcam C) (k : nat) (a g : tensor) :
  tensors w1 !! img1 = Some io1 → tensors w2 !! img2 = Some io2 →
  data io1 = data io2 →
  parameters (model w1) = parameters (model w2) →
  mask_in_effect w1 = mask_in_effect w2 →
  cams w1 !! self1 = Some cam1 → cams w2 !! self2 = Some cam2 →
  target_layer cam1 = target_layer cam2 →
  selected_class w1 (data io1) c = Some k →
  layer_output C (parameters (model w1)) (mask_in_effect w1) (data io1)
    (target_layer cam1) = Some a →
  d_layer C (parameters (model w1)) (mask_in_effect w1) (data io1) (Score k)
    (target_layer cam1) = Some g →
  same_map (GradCAM.generate self1 img1 c w1) (GradCAM.generate self2 img2 c w2).
Proof.
  intros Hi1 Hi2 Hd Hp Hm Hc1 Hc2 Hl Hk Ha Hg.
  by apply (generate_same_pass self1 self2 img1 img2 c w1 w2 io1 io2 cam1 cam2 k a g).
Qed.

Lemma generate_depends_on_pass_witness :
  same_map
    (GradCAM.generate Toy.cam Examples.x2 0
       (Examples.instrumented (Examples.new_cam true) None false 0))
    (GradCAM.generate Toy.cam Examples.x2 0
       (Examples.instrumented (Examples.used_cam true) (Some 5) false 7)).
Proof.
  apply (generate_depends_on_pass Toy.classifier Toy.cam Toy.cam Examples.x2 Examples.x2 0
           (Examples.instrumented (Examples.new_cam true) None false 0)
           (Examples.instrumented (Examples.used_cam true) (Some 5) false 7)
           (Tensor Examples.pair None false false) (Tensor Examples.pair None false false)
           (Examples.new_cam true) (Examples.used_cam true) 0%nat
           (tmap (Qmult 1) Examples.pair)
           (Toy.pattern_like (λ b, Toy.direction (Score 0) b * 1) Examples.pair));
    reflexivity.
Defined.



(** X14.  In evaluation mode a call of [FGSMAttack.perturb] does not change
    what [GradCAM.generate] returns afterwards: on an image and a layer that
    its pass executes, the map is the one that [generate] returns before the
    attack (the captures that the attack overwrote are replaced by the pass
    of [generate] itself). *)
Theorem generate_after_FGSM (C : Classifier) (attack : FGSMAttack.t) (x y : loc)
    (self img : loc) (c : Z) (w : world C) (xo io : tobj) (yv : list Z)
    (cam : gradcam C) (k : nat) (a g : tensor) :
  training (model w) = false →
  tensors w !! x = Some xo → labels w !! y = Some yv →
  tensors w !! img = Some io → cams w !! self = Some cam →
  selected_class w (data io) c = Some k →
  layer_output C (parameters (model w)) (mask_in_effect w) (data io)
    (target_layer cam) = Some a →
  d_layer C (parameters (model w)) (mask_in_effect w) (data io) (Score k)
    (target_layer cam) = Some g →
  ∃ adv w1, FGSMAttack.perturb attack x y w = Ok (adv, w1) ∧
    same_map (GradCAM.generate self img c w) (GradCAM.generate self img c w1).
Proof.
  intros Hmode Hx Hy Himg Hcam Hk Ha Hg.
  destruct (FGSM_run attack x y w xo yv Hx Hy)
    as (adv & w1 & E & _ & _ & Hold & _ & Hp & Ht & _).
  exists adv, w1. split; [exact E|].
  assert (∃ cam1, cams w1 !! self = Some cam1 ∧ target_layer cam1 = target_layer cam)
    as (cam1 & Hcam1 & Hl1).
  { pose proof (FGSM_exact attack x y w xo yv Hx Hy) as E'. cbv zeta in E'.
    rewrite E in E'. injection E' as _ ->. cbn.
    rewrite !lookup_fmap, Hcam. cbn. eexists. split; [reflexivity|].
    apply hooks_keep_layer. }
  apply (generate_same_pass self self img img c w w1 io io cam cam1 k a g);
    try done.
  - auto.
  - unfold mask_in_effect. by rewrite Ht, Hmode.
Qed.

Lemma generate_after_FGSM_witness :
  ∃ adv w1,
    FGSMAttack.perturb (FGSMAttack.New 0.1) Toy.x Toy.y
      (Examples.instrumented (Examples.new_cam true) None false 0) = Ok (adv, w1) ∧
    same_map
      (GradCAM.generate Toy.cam Examples.x2 0
         (Examples.instrumented (Examples.new_cam true) None false 0))
      (GradCAM.generate Toy.cam Examples.x2 0 w1).
Proof.
  apply (generate_after_FGSM Toy.classifier (FGSMAttack.New 0.1) Toy.x Toy.y
           Toy.cam Examples.x2 0
           (Examples.instrumented (Examples.new_cam true) None false 0)
           (Tensor Toy.image None false false) (Tensor Examples.pair None false false)
           [0%Z] (Examples.new_cam true) 0%nat
           (tmap (Qmult 1) Examples.pair)
           (Toy.pattern_like (λ b, Toy.direction (Score 0) b * 1) Examples.pair));
    reflexivity.
Defined.

(** ** The shape and the minimum of the map *)

Lemma resize_plane_shape h w p : plane_shape h w (GradCAM.resize_plane h w p).
Proof.
  unfold plane_shape, GradCAM.resize_plane. split.
  - by rewrite length_fmap, length_seq.
  - apply Forall_fmap_intro. intros oh. destruct (GradCAM.taps _ _ _) as [[[? ?] ?] ?].
    by rewrite length_fmap, length_seq.
Qed.

Lemma plane_shape_fmap h w f (p : plane) :
  plane_shape h w p → plane_shape h w (fmap (M:=list) (fmap (M:=list) f) p).
Proof.
  intros [Hl Hr]. split; [by rewrite length_fmap|].
  apply Forall_fmap. eapply Forall_impl; [exact Hr|]. intros row Hrow. cbn.
  by rewrite length_fmap.
Qed.

Lemma single_channel_tmap h w f (t : tensor) :
  Forall (λ img : list plane, length img = 1%nat ∧ Forall (plane_shape h w) img) t →
  Forall (λ img : list plane, length img = 1%nat ∧ Forall (plane_shape h w) img)
    (tmap f t).
Proof.
  intros H. unfold tmap. apply Forall_fmap. eapply Forall_impl; [exact H|].
  intros img [Hl Hp]. cbn. split; [by rewrite length_fmap|].
  apply Forall_fmap. eapply Forall_impl; [exact Hp|]. intros p Hs. cbn.
  by apply plane_shape_fmap.
Qed.

Lemma resized_single_channel h w (t : tensor) :
  Forall (λ img : list plane, length img = 1%nat ∧ Forall (plane_shape h w) img)
    (fmap (M:=list) (fmap (M:=list) (GradCAM.resize_plane h w))
       (t_relu (GradCAM.t_sum_channels t))).
Proof.
  unfold t_relu, tmap, GradCAM.t_sum_channels.
  rewrite <- !list_fmap_compose. apply Forall_fmap_intro. intros channels. cbn.
  split; [done|]. constructor; [apply resize_plane_shape|constructor].
Qed.

Lemma concat_fmap_fmap {A B} (f : A → B) (l : list (list A)) :
  concat (fmap (M:=list) (fmap (M:=list) f) l) = f <$> concat l.
Proof.
  induction l as [|u l IH]; [done|]. cbn. by rewrite fmap_app, IH.
Qed.

Lemma flatten_tmap f t : flatten (tmap f t) = f <$> flatten t.
Proof.
  unfold flatten, tmap.
  rewrite (concat_fmap_fmap (fmap (M:=list) (fmap (M:=list) f))).
  rewrite (concat_fmap_fmap (fmap (M:=list) f)).
  by rewrite (concat_fmap_fmap f).
Qed.

(** X15.  A map that [GradCAM.generate] returns has one channel for every
    image, the height and the width of the input image, which are positive,
    and one image at least; its least element is 0. *)
Theorem generate_map_shape (C : Classifier) (self img : loc) (c : Z) (w : world C)
    (io : tobj) (r : loc) (w' : world C) :
  tensors w !! img = Some io →
  GradCAM.generate self img c w = Ok (r, w') →
  ∃ out, value_at w' r = Some out ∧
    has_shape (length out) 1 (spatial_size (data io)).1 (spatial_size (data io)).2 out ∧
    (0 < length out)%nat ∧
    (0 < (spatial_size (data io)).1)%nat ∧ (0 < (spatial_size (data io)).2)%nat ∧
    ∃ v, v ∈ flatten out ∧ v == 0.
Proof.
  intros Himg E.
  destruct (generate_Ok_inv _ _ _ _ _ _ E)
    as (io' & cam & k & t & Himg' & Hcam & Hk & Hv & Hval).
  rewrite Himg in Himg'. injection Himg' as <-.
  exists t. split; [exact Hval|].
  pose proof Hv as Hv'. unfold cam_value in Hv'.
  destruct (cam_value_Ok_inv _ _ _ Hv) as (g & a & m1 & mn & mx & Hg & Ha & Hm1 & Hmn & Hmx & Ht).
  rewrite Hg, Ha in Hv'.
  assert (0 < (spatial_size (data io)).1 ∧ 0 < (spatial_size (data io)).2)%nat as [H1 H2].
  { destruct (GradCAM.broadcastable _ _) in Hv'; [|done]. cbn [negb] in Hv'.
    destruct (_ || _ || _ || _) eqn:Eb in Hv'; [done|].
    apply orb_false_elim in Eb as [Eb E2]. apply orb_false_elim in Eb as [_ E1].
    apply Nat.eqb_neq in E1, E2. lia. }
  assert (Forall (λ im : list plane, length im = 1%nat ∧
            Forall (plane_shape (spatial_size (data io)).1 (spatial_size (data io)).2) im) t)
    as Hsh.
  { rewrite Ht. do 2 apply single_channel_tmap. rewrite Hm1.
    apply resized_single_channel. }
  assert (mn ∈ flatten m1) as Hin by (by apply q_min_elem).
  split; [by split|]. split.
  { destruct t as [|im t']; [|simpl; lia].
    exfalso.
    assert (flatten m1 = []) as Hnil.
    { destruct m1; [done|]. discriminate Ht. }
    rewrite Hnil in Hin. by apply elem_of_nil in Hin. }
  split; [done|]. split; [done|].
  exists ((mn - mn) / (mx - mn + 1e-8)). split.
  - rewrite Ht, !flatten_tmap.
    apply (list_elem_of_fmap_2 (λ v, v / (mx - mn + 1e-8)) _ (mn - mn)).
    by apply (list_elem_of_fmap_2 (λ v, v - mn)).
  - unfold Qdiv. ring.
Qed.

Lemma generate_map_shape_witness :
  match GradCAM.generate Toy.cam Toy.x 1 (Toy.world1 1 true) with
  | Ok (r, w') =>
      ∃ out, value_at w' r = Some out ∧
        has_shape (length out) 1 1 2 out ∧ (0 < length out)%nat ∧
        (0 < 1)%nat ∧ (0 < 2)%nat ∧
        ∃ v, v ∈ flatten out ∧ v == 0
  | _ => False
  end.
Proof.
  assert (match GradCAM.generate Toy.cam Toy.x 1 (Toy.world1 1 true) with
          | Ok _ => True
          | _ => False
          end) as Hok by (vm_compute; exact I).
  destruct (GradCAM.generate Toy.cam Toy.x 1 (Toy.world1 1 true))
    as [[r w']| |] eqn:E; [|exact Hok..].
  apply (generate_map_shape Toy.classifier Toy.cam Toy.x 1 (Toy.world1 1 true)
           (Tensor Toy.photo None false false) r w'); [reflexivity|exact E].
Defined.

(** ** The state that a call of [generate] leaves *)

Section GenerateEffects.
Context {C : Classifier}.

Lemma backward_effects (s : scalar) (w : world C) :
  ∃ w', backward s w = Ok (tt, w') ∧
    cams w' =
      backward_hook (g_params (s_graph s)) (g_mask (s_graph s)) (g_value (s_graph s))
        (s_objective s) <$> cams w ∧
    (∀ l, data <$> tensors w' !! l = data <$> tensors w !! l) ∧
    labels w' = labels w ∧
    default_generator w' = default_generator w ∧
    parameters (model w') = parameters (model w) ∧
    training (model w') = training (model w) ∧
    param_grads (model w') =
      acc_pgrad (param_grads (model w))
        (d_params C (g_params (s_graph s)) (g_mask (s_graph s)) (g_value (s_graph s))
           (s_objective s)).
Proof.
  destruct (backward_total s w) as (w' & E & Hc & Hd).
  exists w'. split; [exact E|]. split; [exact Hc|]. split; [exact Hd|].
  unfold backward in E. by injection E as <-.
Qed.

Lemma generate_state self img c (w : world C) io k r w' :
  tensors w !! img = Some io →
  selected_class w (data io) c = Some k →
  GradCAM.generate self img c w = Ok (r, w') →
  tensors w !! r = None ∧
  (∀ l, l ≠ r → data <$> tensors w' !! l = data <$> tensors w !! l) ∧
  labels w' = labels w ∧
  parameters (model w') = parameters (model w) ∧
  training (model w') = training (model w) ∧
  default_generator w' = generator_after w ∧
  param_grads (model w') =
    Some (d_params C (parameters (model w)) (mask_in_effect w) (data io) (Score k)) ∧
  cams w' = captured w (data io) k <$> cams w.
Proof.
  intros Himg Hk. unfold GradCAM.generate.
  erewrite bind_ok by reflexivity.
  erewrite bind_ok by (by apply call_model_run).
  unfold selected_class in Hk.
  destruct (logits C (parameters (model w)) (mask_in_effect w) (data io))
    as [|row rest] eqn:Hl; [done|].
  erewrite bind_ok by (eapply select_score_run; [exact Hl|exact Hk]).
  match goal with
  | |- context [bind (backward ?s) _ ?W] =>
      destruct (backward_effects s W)
        as (w3 & E3 & Hc3 & Hd3 & Hl3 & Hg3 & Hp3 & Ht3 & Hpg3)
  end.
  rewrite (bind_ok _ _ _ _ _ E3). cbn in Hc3, Hd3, Hl3, Hg3, Hp3, Ht3, Hpg3.
  unfold bind at 1, GradCAM.get_self at 1.
  destruct (cams w3 !! self) as [cam|]; [|done].
  destruct (gradients cam) as [g|]; [|done].
  destruct (activations cam) as [a|]; [|done].
  destruct (GradCAM.broadcastable _ _); [|done]. cbn [negb].
  unfold bind at 1, get at 1.
  destruct (tensors w3 !! img) as [io3|]; [|done].
  unfold bind at 1. destruct (GradCAM.interpolate _ _ w3) as [[m1 w4]| |] eqn:E4; [|done..].
  assert (w4 = w3) as ->.
  { unfold GradCAM.interpolate in E4. destruct (spatial_size _) as [ih iw].
    destruct (_ || _); [done|]. by injection E4. }
  unfold GradCAM.t_min, GradCAM.t_max.
  destruct (GradCAM.q_min (flatten m1)) as [mn|]; [|done].
  erewrite bind_ok by reflexivity.
  destruct (GradCAM.q_max (flatten m1)) as [mx|]; [|done].
  erewrite bind_ok by reflexivity.
  erewrite bind_ok by reflexivity.
  unfold bind at 1, GradCAM.div_scalar.
  match goal with |- context [Qeq_bool ?u ?v] => destruct (Qeq_bool u v) end; [done|].
  cbn [ret].
  unfold alloc. intros [= <- <-]. cbn.
  assert (tensors w3 !! fresh (dom (tensors w3)) = None) as Hfr
    by apply fresh_tensor_None.
  split.
  { specialize (Hd3 (fresh (dom (tensors w3)))). rewrite Hfr in Hd3.
    destruct (tensors w !! fresh (dom (tensors w3))); [done|done]. }
  split.
  { intros l Hne. rewrite lookup_insert_ne by done. apply Hd3. }
  split; [done|]. split; [done|]. split; [done|]. split; [done|].
  split; [done|].
  rewrite Hc3. unfold captured. apply map_eq. intros i.
  rewrite !lookup_fmap. by destruct (cams w !! i).
Qed.

End GenerateEffects.

(** X16.  A call of [GradCAM.generate] that succeeds returns a new tensor and
    leaves the elements of every tensor that existed, the labels, the
    parameters and the mode as they were; in training mode it consumes one
    draw of the generator; the gradient buffers of the parameters hold the
    gradient of the selected score alone afterwards; and the captures of
    every registered instance, not only of [self], are those of this
    pass. *)
Theorem generate_effects (C : Classifier) (self img : loc) (c : Z) (w : world C)
    (io : tobj) (k : nat) (r : loc) (w' : world C) :
  tensors w !! img = Some io →
  selected_class w (data io) c = Some k →
  GradCAM.generate self img c w = Ok (r, w') →
  tensors w !! r = None ∧
  (∀ l o, tensors w !! l = Some o →
     ∃ o', tensors w' !! l = Some o' ∧ data o' = data o) ∧
  labels w' = labels w ∧
  parameters (model w') = parameters (model w) ∧
  training (model w') = training (model w) ∧
  default_generator w' = advance (training (model w)) (default_generator w) ∧
  param_grads (model w') =
    Some (d_params C (parameters (model w)) (mask_in_effect w) (data io) (Score k)) ∧
  (∀ s cam, cams w !! s = Some cam → cams w' !! s = Some (captured w (data io) k cam)).
Proof.
  intros Himg Hk E.
  destruct (generate_state self img c w io k r w' Himg Hk E)
    as (Hr & Hd & Hl & Hp & Ht & Hg & Hpg & Hc).
  split; [exact Hr|]. split.
  { intros l o Hlo. assert (l ≠ r) as Hne by congruence.
    specialize (Hd l Hne). rewrite Hlo in Hd.
    destruct (tensors w' !! l) as [o'|]; [|done]. exists o'. split; [done|].
    by injection Hd. }
  split; [exact Hl|]. split; [exact Hp|]. split; [exact Ht|]. split; [exact Hg|].
  split; [exact Hpg|].
  intros s cam Hs. by rewrite Hc, lookup_fmap, Hs.
Qed.

Lemma generate_effects_witness :
  match GradCAM.generate Toy.cam Examples.x2 0
          (Examples.instrumented (Examples.used_cam true) (Some 5) true 7) with
  | Ok (r, w') =>
      r ≠ Examples.x2 ∧
      (∃ o', tensors w' !! Examples.x2 = Some o' ∧ data o' = Examples.pair) ∧
      parameters (model w') = (1 : params Toy.classifier) ∧
      default_generator w' = 8%nat ∧
      param_grads (model w') =
        Some (d_params Toy.classifier 1 (Some false) Examples.pair (Score 0))
  | _ => False
  end.
Proof.
  assert (match GradCAM.generate Toy.cam Examples.x2 0
                  (Examples.instrumented (Examples.used_cam true) (Some 5) true 7) with
          | Ok _ => True
          | _ => False
          end) as Hok by (vm_compute; exact I).
  destruct (GradCAM.generate Toy.cam Examples.x2 0
              (Examples.instrumented (Examples.used_cam true) (Some 5) true 7))
    as [[r w']| |] eqn:E; [|exact Hok..].
  destruct (generate_effects Toy.classifier Toy.cam Examples.x2 0
              (Examples.instrumented (Examples.used_cam true) (Some 5) true 7)
              (Tensor Examples.pair None false false) 0%nat r w')
    as (Hr & Hd & _ & Hp & _ & Hg & Hpg & _); [reflexivity|reflexivity|exact E|].
  split; [|split; [|split; [|split]]].
  - intros ->. vm_compute in Hr. discriminate Hr.
  - apply (Hd Examples.x2 (Tensor Examples.pair None false false)). reflexivity.
  - exact Hp.
  - exact Hg.
  - exact Hpg.
Defined.

(** X17.  [GradCAM(model, layer).generate(image, c)], on an image and a class
    that the output has: the instance that [__init__] builds holds no
    capture, so the call raises [AttributeError] when its pass does not
    execute [layer], and returns the map of the captures of its own pass
    when it does. *)
Theorem generate_new_instance (C : Classifier) (l : layer C) (img : loc) (c : Z)
    (w : world C) (io : tobj) (k : nat) :
  tensors w !! img = Some io →
  selected_class w (data io) c = Some k →
  (layer_output C (parameters (model w)) (mask_in_effect w) (data io) l = None →
   d_layer C (parameters (model w)) (mask_in_effect w) (data io) (Score k) l = None →
   (let! self := GradCAM.init l in GradCAM.generate self img c) w
   = Raise AttributeError) ∧
  (∀ a g t,
     layer_output C (parameters (model w)) (mask_in_effect w) (data io) l = Some a →
     d_layer C (parameters (model w)) (mask_in_effect w) (data io) (Score k) l = Some g →
     cam_value (spatial_size (data io)) (Cam l (Some g) (Some a)) = Ok t →
     ∃ r w', (let! self := GradCAM.init l in GradCAM.generate self img c) w = Ok (r, w') ∧
             value_at w' r = Some t).
Proof.
  intros Himg Hk.
  set (s := fresh (dom (cams w))).
  set (w0 := World (tensors w) (labels w) (<[s := Cam l None None]> (cams w))
                   (model w) (default_generator w)).
  assert (GradCAM.init l w = Ok (s, w0)) as E0 by reflexivity.
  rewrite (bind_ok _ _ _ _ _ E0).
  assert (cams w0 !! s = Some (Cam l None None)) as Hcam
    by (cbn; apply lookup_insert_eq).
  pose proof (generate_run s img c w0 io (Cam l None None) k Himg Hcam Hk) as Hrun.
  split.
  - intros Ha Hg.
    rewrite (captured_not_executed w0 _ _ (Cam l None None)) in Hrun by done.
    exact Hrun.
  - intros a g t Ha Hg Ht.
    rewrite (captured_executed w0 _ _ (Cam l None None) a g) in Hrun by done.
    cbn [target_layer] in Hrun. by rewrite Ht in Hrun.
Qed.

Lemma generate_new_instance_witness :
  (let! self := GradCAM.init (false : layer Toy.classifier)
   in GradCAM.generate self Toy.x 0) (Examples.dataset 1 false)
  = Raise AttributeError.
Proof.
  apply (generate_new_instance Toy.classifier (false : layer Toy.classifier) Toy.x 0
           (Examples.dataset 1 false) (Tensor Toy.image None false false) 0%nat);
    reflexivity.
Defined.

(** * The accuracy functions *)

Lemma count_true_le l : (count_true l ≤ length l)%nat.
Proof. unfold count_true. apply length_filter. Qed.

Lemma count_equal_same_length pred y :
  length pred = length y →
  ∃ n, count_equal pred y = Some n ∧ (n ≤ length y)%nat.
Proof.
  intros H. unfold count_equal. rewrite H, Nat.eqb_refl. cbn.
  eexists. split; [reflexivity|].
  etrans; [apply count_true_le|].
  rewrite bzip_same_length by done. rewrite length_zip_with. lia.
Qed.

Lemma mapM_argmax (x : tensor) (out : list (list Q)) :
  Forall2 (λ _ (row : list Q), row ≠ []) x out →
  ∃ pred, mapM argmax out = Some pred ∧ length pred = length x.
Proof.
  intros H.
  destruct (mapM argmax out) as [pred|] eqn:E.
  - exists pred. split; [done|]. apply length_mapM in E.
    apply Forall2_length in H. lia.
  - apply mapM_None in E. apply Exists_exists in E as (row & Hin & Hrow).
    apply Forall2_Forall_r with (Q := λ row : list Q, row ≠ []) in H.
    + rewrite Forall_forall in H. specialize (H row Hin). by destruct row.
    + apply Forall_true. auto.
Qed.

Section AccuracyRuns.
Context {C : Classifier}.

Lemma call_model_no_grad_run x (w : world C) xo :
  tensors w !! x = Some xo →
  call_model_no_grad x w =
  Ok (logits C (parameters (model w)) (mask_in_effect w) (data xo),
      World (tensors w) (labels w)
            (forward_hook (parameters (model w)) (mask_in_effect w) (data xo) <$> cams w)
            (Module (parameters (model w)) (param_grads (model w)) (training (model w))
               (Some (Tensor (feature_map C (parameters (model w)) (mask_in_effect w)
                                (data xo))
                             None false false)))
            (generator_after w)).
Proof.
  intros H. unfold call_model_no_grad. rewrite (bind_ok _ _ _ _ _ (get_run _ _ _ H)).
  unfold mask_in_effect, generator_after.
  destruct (training (model w)); [destruct (draw_mask C (default_generator w))|];
    reflexivity.
Qed.

Lemma count_correct_run (x : tensor) out y (w : world C) :
  Forall2 (λ _ (row : list Q), row ≠ []) x out → length x = length y →
  ∃ n, count_correct out y w = Ok (n, w) ∧ (n ≤ length y)%nat.
Proof.
  intros Hout Hlen. destruct (mapM_argmax x out Hout) as (pred & Hp & Hl).
  destruct (count_equal_same_length pred y) as (n & Hn & Hle); [lia|].
  exists n. split; [|done]. unfold count_correct. by rewrite Hp, Hn.
Qed.

(** A loop that adds to a counter at most the size of every item. *)
Lemma for_each_bounded {A} (Inv : world C → Prop) (P : A → Prop) (size : A → nat)
    (body : nat → A → M C nat) items :
  Forall P items →
  (∀ acc a w, P a → Inv w →
     ∃ n w', body acc a w = Ok ((acc + n)%nat, w') ∧ (n ≤ size a)%nat ∧ Inv w') →
  ∀ acc w, Inv w →
  ∃ n w', for_each items body acc w = Ok ((acc + n)%nat, w') ∧
          (n ≤ sum_list (size <$> items))%nat ∧ Inv w'.
Proof.
  intros HP Hbody. induction HP as [|a items Ha _ IH]; intros acc w HI.
  - exists 0%nat, w. cbn. unfold ret. rewrite Nat.add_0_r. split; [done|]. split; [lia|done].
  - destruct (Hbody acc a w Ha HI) as (n & w1 & E & Hn & HI1).
    destruct (IH (acc + n)%nat w1 HI1) as (n' & w2 & E' & Hn' & HI2).
    exists (n + n')%nat, w2. cbn. rewrite (bind_ok _ _ _ _ _ E), E'.
    split; [f_equal; f_equal; lia|]. split; [lia|done].
Qed.

Lemma true_div_range (a b : nat) (w : world C) :
  (0 < b)%nat → (a ≤ b)%nat →
  ∃ q, true_div a b w = Returns (q, w) ∧ 0 <= q <= 1.
Proof.
  intros Hb Hab. unfold true_div.
  destruct (Nat.eqb b 0) eqn:E; [apply Nat.eqb_eq in E; lia|].
  eexists. split; [reflexivity|].
  assert (0 < inject_Z (Z.of_nat b)) as Hpos.
  { change 0 with (inject_Z 0). rewrite <- Zlt_Qlt. lia. }
  assert (0 <= inject_Z (Z.of_nat a)) as Ha.
  { change 0 with (inject_Z 0). rewrite <- Zle_Qle. lia. }
  assert (inject_Z (Z.of_nat a) <= inject_Z (Z.of_nat b)) as Hle.
  { rewrite <- Zle_Qle. lia. }
  split.
  - apply Qle_shift_div_l; [exact Hpos|lra].
  - apply Qle_shift_div_r; [exact Hpos|lra].
Qed.


Lemma clean_batch_run (w0 : world C) correct b w :
  scores_per_image C → batch_in w0 b → clean_state w0 w →
  ∃ n w',
    (let! _ := get b.1 in
     let! y := get_labels b.2 in
     let! out := call_model_no_grad b.1 in
     let! n := count_correct out y in
     ret (correct + n)%nat) w = Ok ((correct + n)%nat, w') ∧
    (n ≤ batch_size w0 b)%nat ∧ clean_state w0 w'.
Proof.
  intros HC (xo & yv & Hx & Hy & Hlen) (Ht & Hl & Hp & Hpg & Hm & Hg).
  rewrite <- Ht in Hx. rewrite <- Hl in Hy.
  rewrite (bind_ok _ _ _ _ _ (get_run _ _ _ Hx)).
  rewrite (bind_ok _ _ _ _ _ (get_labels_run _ _ _ Hy)).
  rewrite (bind_ok _ _ _ _ _ (call_model_no_grad_run _ _ _ Hx)).
  match goal with
  | |- context [bind (count_correct ?out yv) _ ?W] =>
      destruct (count_correct_run (data xo) out yv W) as (n & E & Hn); [apply HC|done|]
  end.
  rewrite (bind_ok _ _ _ _ _ E). eexists n, _. split; [reflexivity|]. split.
  - unfold batch_size. by rewrite <- Hl, Hy.
  - repeat split; cbn; try done. unfold generator_after. by rewrite Hm.
Qed.

End AccuracyRuns.

Lemma py_bind_returns {C A B} (c : Py C A) (k : A → Py C B) w a w1 :
  c w = Returns (a, w1) → py_bind c k w = k a w1.
Proof. intros H. unfold py_bind. by rewrite H. Qed.

Lemma lift_ok {C A} (c : M C A) w a w1 : c w = Ok (a, w1) → lift c w = Returns (a, w1).
Proof. intros H. unfold lift. by rewrite H. Qed.

Lemma get_accuracy_unfold {C : Classifier} (dl : dataloader) (w : world C) :
  get_accuracy dl w =
  py_bind
    (lift (for_each (batches dl) (λ correct b,
       let! _ := get b.1 in
       let! y := get_labels b.2 in
       let! out := call_model_no_grad b.1 in
       let! n := count_correct out y in
       ret (correct + n)%nat) 0%nat))
    (λ correct, true_div correct (dataset_len dl))
    (set_model (Module (parameters (model w)) (param_grads (model w)) false
                  (last_feature_map (model w))) w).
Proof. reflexivity. Qed.

Lemma get_adversarial_accuracy_unfold {C : Classifier} (dl : dataloader) (a : attack)
    (w : world C) :
  get_adversarial_accuracy dl a w =
  py_bind
    (lift (for_each (batches dl) (λ correct b,
       let! _ := get b.1 in
       let! y := get_labels b.2 in
       let! adv := attack_perturb a b.1 b.2 in
       let! out := call_model_no_grad adv in
       let! n := count_correct out y in
       ret (correct + n)%nat) 0%nat))
    (λ correct, true_div correct (dataset_len dl))
    (set_model (Module (parameters (model w)) (param_grads (model w)) false
                  (last_feature_map (model w))) w).
Proof. reflexivity. Qed.

(** X18.  On a loader whose batches pair as many labels as images and go
    through a dataset that is not empty, [get_accuracy] returns a number in
    [0, 1]; it leaves the classifier in evaluation mode, and the tensors, the
    labels, the parameters, their gradient buffers and the generator as they
    were. *)
Theorem get_accuracy_returns (C : Classifier) (dl : dataloader) (w : world C) :
  scores_per_image C → loads w dl → (0 < dataset_len dl)%nat →
  ∃ acc w', get_accuracy dl w = Returns (acc, w') ∧
    0 <= acc <= 1 ∧
    training (model w') = false ∧
    tensors w' = tensors w ∧ labels w' = labels w ∧
    parameters (model w') = parameters (model w) ∧
    param_grads (model w') = param_grads (model w) ∧
    default_generator w' = default_generator w.
Proof.
  intros HC [Hb Hlen] Hpos. unfold get_accuracy.
  erewrite py_bind_returns by (apply lift_ok; reflexivity).
  set (w0 := set_model _ w).
  assert (clean_state w w0) as H0 by (by repeat split).
  destruct (for_each_bounded (clean_state w) (batch_in w) (batch_size w)
              (λ correct b,
                 let! _ := get b.1 in
                 let! y := get_labels b.2 in
                 let! out := call_model_no_grad b.1 in
                 let! n := count_correct out y in
                 ret (correct + n)%nat) (batches dl) Hb) with (acc := 0%nat) (w := w0)
    as (n & w1 & E & Hn & Hst); [|exact H0|].
  { intros acc b w' Hbin Hs. by apply clean_batch_run. }
  erewrite py_bind_returns by (apply lift_ok; exact E).
  destruct (true_div_range (C:=C) (0 + n) (dataset_len dl) w1) as (q & Eq & Hq);
    [lia|lia|].
  exists q, w1. split; [exact Eq|]. split; [exact Hq|].
  destruct Hst as (? & ? & ? & ? & ? & ?). by repeat split.
Qed.

Lemma get_accuracy_returns_witness :
  ∃ acc w',
    get_accuracy Examples.testloader (Examples.dataset 1 true) = Returns (acc, w') ∧
    0 <= acc <= 1 ∧
    training (model w') = false ∧
    tensors w' = tensors (Examples.dataset 1 true) ∧
    labels w' = labels (Examples.dataset 1 true) ∧
    parameters (model w') = parameters (model (Examples.dataset 1 true)) ∧
    param_grads (model w') = param_grads (model (Examples.dataset 1 true)) ∧
    default_generator w' = default_generator (Examples.dataset 1 true).
Proof.
  apply (get_accuracy_returns Toy.classifier Examples.testloader (Examples.dataset 1 true)).
  - exact Toy_scores_per_image.
  - exact (Examples_loads true).
  - simpl. lia.
Defined.

(** ** The attacks inside the accuracy loop *)

Lemma iter_advance_eval {C : Classifier} n (g : generator C) :
  Nat.iter n (advance false) g = g.
Proof. induction n as [|n IH]; [done|]. rewrite Nat.iter_succ. exact IH. Qed.

Lemma clip_step_shape eps x g : same_shape x g → same_shape x (clip_step eps x g).
Proof.
  intros H. unfold clip_step.
  eapply tall2_tzip_r; [apply same_shape_refl|exact H|done].
Qed.

Lemma BIM_update_shape self x xa g :
  same_shape x xa → same_shape xa g → same_shape x (BIM_update self x xa g).
Proof.
  intros H1 H2. eapply iteration_fused with (S := λ _ _, True); done.
Qed.

Section AttackRuns.
Context {C : Classifier}.

(** The loop of [BIMAttack.perturb] with an invariant, its result and the
    generator. *)
Lemma BIM_run_effects (self : BIMAttack.t) (I P : tensor → Prop) x y (w : world C)
    xo yv k :
  tensors w !! x = Some xo → labels w !! y = Some yv →
  I (data xo) → (∀ t, P t → I t) →
  (∀ t (w' : world C), I t → P (BIM_update self (data xo) t (loss_gradient w' t yv))) →
  ∃ r w' out, BIM_iterations self x y k w = Ok (r, w') ∧
    tensors w !! r = None ∧
    tensors w' !! r = Some (Tensor out None false false) ∧ I out ∧
    (∀ l o, tensors w !! l = Some o → tensors w' !! l = Some o) ∧
    labels w' = labels w ∧
    parameters (model w') = parameters (model w) ∧
    training (model w') = training (model w) ∧
    default_generator w' =
      Nat.iter k (advance (training (model w))) (default_generator w).
Proof.
  intros Hx Hy HI HPI Hstep.
  destruct (BIM_run self I P x y w xo yv k Hx Hy HI HPI Hstep) as (r & w' & E & Hst).
  destruct (BIM_loop_effects self x y w xo yv k Hx Hy) as (r2 & w2 & out & E2 & _ & Hr & Hg).
  rewrite E in E2. injection E2 as <- <-.
  exists r, w', out. split; [exact E|].
  destruct Hst as (Hr0 & (xao & Hxa & _ & _ & HP) & Hold & Hl & Hp & Ht).
  rewrite Hr in Hxa. injection Hxa as <-. cbn in HP.
  repeat split; try done.
  destruct k; auto.
Qed.

(** A call of either attack in evaluation mode. *)
Lemma attack_run (a : attack) x y (w : world C) xo yv :
  grad_shaped C → training (model w) = false →
  tensors w !! x = Some xo → labels w !! y = Some yv →
  ∃ r w' o, attack_perturb a x y w = Ok (r, w') ∧
    tensors w' !! r = Some o ∧ same_shape (data xo) (data o) ∧
    (∀ l o, tensors w !! l = Some o → tensors w' !! l = Some o) ∧
    labels w' = labels w ∧
    parameters (model w') = parameters (model w) ∧
    training (model w') = false ∧
    default_generator w' = default_generator w.
Proof.
  intros HC Hm Hx Hy. destruct a as [self|self]; cbn.
  - destruct (FGSM_run self x y w xo yv Hx Hy)
      as (r & w' & E & _ & Hv & Hold & Hl & Hp & Ht & Hg & _).
    eexists r, w', _. split; [exact E|]. split; [exact Hv|].
    split; [apply clip_step_shape; apply HC|].
    repeat split; try done; [congruence|].
    rewrite Hg. unfold generator_after. by rewrite Hm.
  - rewrite BIM_perturb_iterations.
    destruct (BIM_run_effects self (same_shape (data xo)) (same_shape (data xo))
                x y w xo yv (Z.to_nat (BIMAttack.iters self)) Hx Hy)
      as (r & w' & out & E & _ & Hr & Hs & Hold & Hl & Hp & Ht & Hg).
    + apply same_shape_refl.
    + done.
    + intros t w0 Hs. apply BIM_update_shape; [done|apply HC].
    + eexists r, w', _. split; [exact E|]. split; [exact Hr|]. split; [exact Hs|].
      repeat split; try done; [congruence|].
      rewrite Hg, Hm. apply iter_advance_eval.
Qed.


Lemma adversarial_batch_run (a : attack) (w0 : world C) correct b w :
  grad_shaped C → scores_per_image C → batch_in w0 b → adversarial_state w0 w →
  ∃ n w',
    (let! _ := get b.1 in
     let! y := get_labels b.2 in
     let! adv := attack_perturb a b.1 b.2 in
     let! out := call_model_no_grad adv in
     let! n := count_correct out y in
     ret (correct + n)%nat) w = Ok ((correct + n)%nat, w') ∧
    (n ≤ batch_size w0 b)%nat ∧ adversarial_state w0 w'.
Proof.
  intros HG HC (xo & yv & Hx & Hy & Hlen) (Ht & Hl & Hp & Hm & Hg).
  apply Ht in Hx. rewrite <- Hl in Hy.
  rewrite (bind_ok _ _ _ _ _ (get_run _ _ _ Hx)).
  rewrite (bind_ok _ _ _ _ _ (get_labels_run _ _ _ Hy)).
  destruct (attack_run a b.1 b.2 w xo yv HG Hm Hx Hy)
    as (r & w1 & o & E & Hr & Hs & Hold & Hl1 & Hp1 & Hm1 & Hg1).
  rewrite (bind_ok _ _ _ _ _ E).
  rewrite (bind_ok _ _ _ _ _ (call_model_no_grad_run _ _ _ Hr)).
  match goal with
  | |- context [bind (count_correct ?out yv) _ ?W] =>
      destruct (count_correct_run (data o) out yv W) as (n & En & Hn); [apply HC| |]
  end.
  { apply Forall2_length in Hs. exact (eq_trans (eq_sym Hs) Hlen). }
  rewrite (bind_ok _ _ _ _ _ En). eexists n, _. split; [reflexivity|]. split.
  - unfold batch_size. by rewrite <- Hl, Hy.
  - repeat split; cbn; try congruence; [auto|].
    unfold generator_after. rewrite Hm1. congruence.
Qed.

End AttackRuns.

(** X19.  On such a loader [get_adversarial_accuracy], with an attack of either
    class, returns a number in [0, 1]; it leaves the classifier in
    evaluation mode, the tensors that existed, the labels and the parameters
    as they were, and the generator too, whatever the mode at the call. *)
Theorem get_adversarial_accuracy_returns (C : Classifier) (dl : dataloader) (a : attack)
    (w : world C) :
  grad_shaped C → scores_per_image C → loads w dl → (0 < dataset_len dl)%nat →
  ∃ acc w', get_adversarial_accuracy dl a w = Returns (acc, w') ∧
    0 <= acc <= 1 ∧
    training (model w') = false ∧
    (∀ l o, tensors w !! l = Some o → tensors w' !! l = Some o) ∧
    labels w' = labels w ∧
    parameters (model w') = parameters (model w) ∧
    default_generator w' = default_generator w.
Proof.
  intros HG HC [Hb Hlen] Hpos. unfold get_adversarial_accuracy.
  erewrite py_bind_returns by (apply lift_ok; reflexivity).
  set (w0 := set_model _ w).
  assert (adversarial_state w w0) as H0 by (by repeat split).
  destruct (for_each_bounded (adversarial_state w) (batch_in w) (batch_size w)
              (λ correct b,
                 let! _ := get b.1 in
                 let! y := get_labels b.2 in
                 let! adv := attack_perturb a b.1 b.2 in
                 let! out := call_model_no_grad adv in
                 let! n := count_correct out y in
                 ret (correct + n)%nat) (batches dl) Hb) with (acc := 0%nat) (w := w0)
    as (n & w1 & E & Hn & Hst); [|exact H0|].
  { intros acc b w' Hbin Hs. by apply adversarial_batch_run. }
  erewrite py_bind_returns by (apply lift_ok; exact E).
  destruct (true_div_range (C:=C) (0 + n) (dataset_len dl) w1) as (q & Eq & Hq);
    [lia|lia|].
  exists q, w1. split; [exact Eq|]. split; [exact Hq|].
  destruct Hst as (? & ? & ? & ? & ?). by repeat split.
Qed.

Lemma get_adversarial_accuracy_returns_witness :
  ∃ acc w',
    get_adversarial_accuracy Examples.testloader (BIM (BIMAttack.New 0.1 0.04 3))
      (Examples.dataset 1 true) = Returns (acc, w') ∧
    0 <= acc <= 1 ∧
    training (model w') = false ∧
    (∀ l o, tensors (Examples.dataset 1 true) !! l = Some o → tensors w' !! l = Some o) ∧
    labels w' = labels (Examples.dataset 1 true) ∧
    parameters (model w') = parameters (model (Examples.dataset 1 true)) ∧
    default_generator w' = default_generator (Examples.dataset 1 true).
Proof.
  apply (get_adversarial_accuracy_returns Toy.classifier Examples.testloader
           (BIM (BIMAttack.New 0.1 0.04 3)) (Examples.dataset 1 true)).
  - exact Toy_grad_shaped.
  - exact Toy_scores_per_image.
  - exact (Examples_loads true).
  - simpl. lia.
Defined.

(** X20.  On a loader over an empty dataset [get_accuracy] and
    [get_adversarial_accuracy] raise [ZeroDivisionError]. *)
Theorem accuracy_empty_dataset (C : Classifier) (dl : dataloader) (a : attack)
    (w : world C) :
  grad_shaped C → scores_per_image C → loads w dl → dataset_len dl = 0%nat →
  get_accuracy dl w = ZeroDivisionError ∧
  get_adversarial_accuracy dl a w = ZeroDivisionError.
Proof.
  intros HG HC [Hb Hlen] Hz. split.
  - unfold get_accuracy.
    erewrite py_bind_returns by (apply lift_ok; reflexivity).
    set (w0 := set_model _ w).
    assert (clean_state w w0) as H0 by (by repeat split).
    destruct (for_each_bounded (clean_state w) (batch_in w) (batch_size w)
                (λ correct b,
                   let! _ := get b.1 in
                   let! y := get_labels b.2 in
                   let! out := call_model_no_grad b.1 in
                   let! n := count_correct out y in
                   ret (correct + n)%nat) (batches dl) Hb) with (acc := 0%nat) (w := w0)
      as (n & w1 & E & Hn & Hst); [|exact H0|].
    { intros acc b w' Hbin Hs. by apply clean_batch_run. }
    erewrite py_bind_returns by (apply lift_ok; exact E).
    unfold true_div. by rewrite Hz.
  - unfold get_adversarial_accuracy.
    erewrite py_bind_returns by (apply lift_ok; reflexivity).
    set (w0 := set_model _ w).
    assert (adversarial_state w w0) as H0 by (by repeat split).
    destruct (for_each_bounded (adversarial_state w) (batch_in w) (batch_size w)
                (λ correct b,
                   let! _ := get b.1 in
                   let! y := get_labels b.2 in
                   let! adv := attack_perturb a b.1 b.2 in
                   let! out := call_model_no_grad adv in
                   let! n := count_correct out y in
                   ret (correct + n)%nat) (batches dl) Hb) with (acc := 0%nat) (w := w0)
      as (n & w1 & E & Hn & Hst); [|exact H0|].
    { intros acc b w' Hbin Hs. by apply adversarial_batch_run. }
    erewrite py_bind_returns by (apply lift_ok; exact E).
    unfold true_div. by rewrite Hz.
Qed.

Lemma accuracy_empty_dataset_witness :
  get_accuracy (DataLoader [] 0) (Examples.dataset 1 true) = ZeroDivisionError ∧
  get_adversarial_accuracy (DataLoader [] 0) (FGSM (FGSMAttack.New 0.1))
    (Examples.dataset 1 true) = ZeroDivisionError.
Proof.
  apply (accuracy_empty_dataset Toy.classifier (DataLoader [] 0)
           (FGSM (FGSMAttack.New 0.1)) (Examples.dataset 1 true)).
  - exact Toy_grad_shaped.
  - exact Toy_scores_per_image.
  - split; [constructor|reflexivity].
  - reflexivity.
Defined.

(** ** What the accuracy functions depend on *)

Section AccuracyRespects.
Context {C : Classifier}.

Lemma respects_call_model_no_grad l : respects (C:=C) (call_model_no_grad l).
Proof.
  intros w1 w2 H. pose proof (agree_mask _ _ H) as Hmask.
  destruct H as (Ht & Hl & Hp & Hm & Hg). unfold same_outcome.
  destruct (tensors w1 !! l) as [o|] eqn:E.
  - rewrite (call_model_no_grad_run l w1 o E).
    rewrite Ht in E. rewrite (call_model_no_grad_run l w2 o E).
    rewrite Hmask, Hp. split; [done|]. repeat split; cbn; try done.
    intros Htr. unfold generator_after. rewrite <- Hm, Htr. by rewrite Hg.
  - unfold call_model_no_grad. rewrite bind_raise with (e := NameError).
    2:{ unfold get. by rewrite E. }
    rewrite Ht in E. rewrite bind_raise with (e := NameError); [done|].
    unfold get. by rewrite E.
Qed.

Lemma respects_count_correct out y : respects (C:=C) (count_correct out y).
Proof.
  unfold count_correct. destruct (mapM argmax out); [|apply respects_raise].
  destruct (count_equal _ _); [apply respects_ret|apply respects_raise].
Qed.

Lemma agree_after_eval (w1 w2 : world C) md1 md2 :
  agree_on_data w1 w2 →
  md1 = Module (parameters (model w1)) (param_grads (model w1)) false
          (last_feature_map (model w1)) →
  md2 = Module (parameters (model w2)) (param_grads (model w2)) false
          (last_feature_map (model w2)) →
  agree (set_model md1 w1) (set_model md2 w2).
Proof. intros (Ht & Hl & Hp) -> ->. by repeat split. Qed.

Lemma same_result_loop (c : M C nat) (n : nat) (w1 w2 : world C) :
  respects c → agree w1 w2 →
  same_result (py_bind (lift c) (λ correct, true_div correct n) w1)
              (py_bind (lift c) (λ correct, true_div correct n) w2).
Proof.
  intros Hc H. specialize (Hc w1 w2 H). unfold py_bind, lift, same_outcome in *.
  destruct (c w1) as [[a1 w1']| |], (c w2) as [[a2 w2']| |]; try done.
  destruct Hc as [-> Hw]. unfold true_div. destruct (Nat.eqb n 0); [done|].
  by split.
Qed.

End AccuracyRespects.

(** X21.  The outcomes of [get_accuracy] and of [get_adversarial_accuracy] do
    not depend on the mode of the classifier at the call, on the state of
    the generator, on the gradient buffers, on the cached feature map nor on
    the registered [GradCAM] instances: both functions call [model.eval()]
    first. *)
Theorem accuracy_mode_independent (C : Classifier) (dl : dataloader) (a : attack)
    (w1 w2 : world C) :
  agree_on_data w1 w2 →
  same_result (get_accuracy dl w1) (get_accuracy dl w2) ∧
  same_result (get_adversarial_accuracy dl a w1) (get_adversarial_accuracy dl a w2).
Proof.
  intros H. split.
  - unfold get_accuracy.
    erewrite !py_bind_returns by (apply lift_ok; reflexivity).
    apply same_result_loop; [|by apply agree_after_eval].
    apply respects_for_each. intros acc b.
    apply respects_bind; [apply respects_get|intros].
    apply respects_bind; [apply respects_get_labels|intros].
    apply respects_bind; [apply respects_call_model_no_grad|intros].
    apply respects_bind; [apply respects_count_correct|intros].
    apply respects_ret.
  - unfold get_adversarial_accuracy.
    erewrite !py_bind_returns by (apply lift_ok; reflexivity).
    apply same_result_loop; [|by apply agree_after_eval].
    apply respects_for_each. intros acc b.
    apply respects_bind; [apply respects_get|intros].
    apply respects_bind; [apply respects_get_labels|intros].
    apply respects_bind; [apply respects_attack|intros].
    apply respects_bind; [apply respects_call_model_no_grad|intros].
    apply respects_bind; [apply respects_count_correct|intros].
    apply respects_ret.
Qed.

Lemma accuracy_mode_independent_witness :
  same_result
    (get_accuracy Examples.testloader (Examples.dataset 1 true))
    (get_accuracy Examples.testloader
       (Examples.instrumented (Examples.used_cam true) (Some 5) false 7)) ∧
  same_result
    (get_adversarial_accuracy Examples.testloader (FGSM (FGSMAttack.New 0.1))
       (Examples.dataset 1 true))
    (get_adversarial_accuracy Examples.testloader (FGSM (FGSMAttack.New 0.1))
       (Examples.instrumented (Examples.used_cam true) (Some 5) false 7)).
Proof.
  apply (accuracy_mode_independent Toy.classifier Examples.testloader
           (FGSM (FGSMAttack.New 0.1)) (Examples.dataset 1 true)
           (Examples.instrumented (Examples.used_cam true) (Some 5) false 7)).
  split; [reflexivity|]. split; reflexivity.
Defined.

(** ** An attack without budget *)


Lemma Qle_bool_proper u u' v v' : u == u' → v == v' → Qle_bool u v = Qle_bool u' v'.
Proof.
  intros Hu Hv. destruct (Qle_bool u v) eqn:E; symmetry.
  - apply Qle_bool_iff. apply Qle_bool_iff in E. lra.
  - destruct (Qle_bool u' v') eqn:E'; [|done].
    apply Qle_bool_iff in E'.
    assert (Qle_bool u v = true) by (apply Qle_bool_iff; lra). congruence.
Qed.

Lemma argmax_from_proper best best' bi i l l' :
  best == best' → Forall2 Qeq l l' →
  argmax_from best bi i l = argmax_from best' bi i l'.
Proof.
  intros Hb Hl. revert best best' bi i Hb.
  induction Hl as [|v v' l l' Hv _ IH]; intros best best' bi i Hb; [done|].
  cbn. rewrite (Qle_bool_proper v v' best best' Hv Hb).
  destruct (Qle_bool v' best'); by apply IH.
Qed.

Lemma argmax_proper row row' : Forall2 Qeq row row' → argmax row = argmax row'.
Proof.
  intros [|v v' l l' Hv Hl]; [done|]. cbn. f_equal. by apply argmax_from_proper.
Qed.

Lemma mapM_argmax_proper out out' :
  Forall2 (Forall2 Qeq) out out' → mapM argmax out = mapM argmax out'.
Proof.
  intros H. apply Forall2_mapM_ext. eapply Forall2_weaken; [exact H|].
  intros. by apply argmax_proper.
Qed.

Section ZeroBudget.
Context {C : Classifier}.

Lemma BIM_zero_step_run (self : BIMAttack.t) x y (w : world C) xo yv :
  grad_shaped C →
  0 <= BIMAttack.epsilon self →
  BIMAttack.alpha self == 0 ∨ BIMAttack.epsilon self == 0 →
  in_unit_range (data xo) →
  tensors w !! x = Some xo → labels w !! y = Some yv →
  ∃ r w' out, BIMAttack.perturb self x y w = Ok (r, w') ∧
    tensors w' !! r = Some (Tensor out None false false) ∧ teq out (data xo) ∧
    (∀ l o, tensors w !! l = Some o → tensors w' !! l = Some o) ∧
    labels w' = labels w ∧
    parameters (model w') = parameters (model w) ∧
    training (model w') = training (model w) ∧
    default_generator w' =
      Nat.iter (Z.to_nat (BIMAttack.iters self)) (advance (training (model w)))
        (default_generator w).
Proof.
  intros HC He H0 Hu Hx Hy. rewrite BIM_perturb_iterations.
  destruct (BIM_run_effects self (λ t, teq t (data xo)) (λ t, teq t (data xo))
              x y w xo yv (Z.to_nat (BIMAttack.iters self)) Hx Hy)
    as (r & w' & out & E & _ & Hr & Ht & Hrest).
  - apply teq_refl.
  - done.
  - intros t w0 Ht. destruct H0 as [Ha|He0].
    + apply BIM_update_zero_step; [apply HC|done..].
    + apply within_zero_teq. eapply within_proper; [exact He0|].
      apply BIM_update_within; [|apply HC|done..].
      apply same_shape_sym. by eapply same_shape_of.
  - by exists r, w', out.
Qed.

Lemma attack_zero_budget_run (a : attack) x y (w : world C) xo yv :
  grad_shaped C → zero_budget a → training (model w) = false →
  in_unit_range (data xo) →
  tensors w !! x = Some xo → labels w !! y = Some yv →
  ∃ r w' o, attack_perturb a x y w = Ok (r, w') ∧
    tensors w' !! r = Some o ∧ teq (data o) (data xo) ∧
    (∀ l o, tensors w !! l = Some o → tensors w' !! l = Some o) ∧
    labels w' = labels w ∧
    parameters (model w') = parameters (model w) ∧
    training (model w') = false ∧
    default_generator w' = default_generator w.
Proof.
  intros HC Hz Hm Hu Hx Hy. destruct a as [self|self]; cbn in *.
  - destruct (FGSM_run self x y w xo yv Hx Hy)
      as (r & w' & E & _ & Hv & Hold & Hl & Hp & Ht & Hg & _).
    eexists r, w', _. split; [exact E|]. split; [exact Hv|].
    split; [apply clip_step_zero; [apply HC|done..]|].
    repeat split; try done; [congruence|].
    rewrite Hg. unfold generator_after. by rewrite Hm.
  - destruct Hz as [He H0].
    destruct (BIM_zero_step_run self x y w xo yv HC He H0 Hu Hx Hy)
      as (r & w' & out & E & Hr & Ht & Hold & Hl & Hp & Htr & Hg).
    eexists r, w', _. split; [exact E|]. split; [exact Hr|]. split; [exact Ht|].
    repeat split; try done; [congruence|].
    rewrite Hg, Hm. apply iter_advance_eval.
Qed.

(** Two loops that add the same numbers. *)
Lemma for_each_related {A} (R : world C → world C → Prop) (P : A → Prop)
    (body1 body2 : nat → A → M C nat) items :
  Forall P items →
  (∀ acc a w1 w2, P a → R w1 w2 →
     ∃ n w1' w2', body1 acc a w1 = Ok ((acc + n)%nat, w1') ∧
                  body2 acc a w2 = Ok ((acc + n)%nat, w2') ∧ R w1' w2') →
  ∀ acc w1 w2, R w1 w2 →
  ∃ n w1' w2', for_each items body1 acc w1 = Ok ((acc + n)%nat, w1') ∧
               for_each items body2 acc w2 = Ok ((acc + n)%nat, w2') ∧ R w1' w2'.
Proof.
  intros HP Hbody. induction HP as [|a items Ha _ IH]; intros acc w1 w2 HR.
  - exists 0%nat, w1, w2. cbn. unfold ret. rewrite Nat.add_0_r. by repeat split.
  - destruct (Hbody acc a w1 w2 Ha HR) as (n & w1' & w2' & E1 & E2 & HR').
    destruct (IH (acc + n)%nat w1' w2' HR') as (n' & w1'' & w2'' & E1' & E2' & HR'').
    exists (n + n')%nat, w1'', w2''. cbn.
    rewrite (bind_ok _ _ _ _ _ E1), (bind_ok _ _ _ _ _ E2), E1', E2'.
    split; [f_equal; f_equal; lia|]. split; [f_equal; f_equal; lia|done].
Qed.

Lemma count_correct_proper out out' y (w : world C) :
  Forall2 (Forall2 Qeq) out out' → count_correct out y w = count_correct out' y w.
Proof.
  intros H. unfold count_correct. by rewrite (mapM_argmax_proper out out' H).
Qed.

Lemma zero_budget_batch_run (a : attack) (w0 : world C) correct b w1 w2 :
  grad_shaped C → scores_per_image C → scores_respect_eq C → zero_budget a →
  batch_in w0 b ∧ (∀ xo, tensors w0 !! b.1 = Some xo → in_unit_range (data xo)) →
  clean_state w0 w1 ∧ adversarial_state w0 w2 →
  ∃ n w1' w2',
    (let! _ := get b.1 in
     let! y := get_labels b.2 in
     let! out := call_model_no_grad b.1 in
     let! n := count_correct out y in
     ret (correct + n)%nat) w1 = Ok ((correct + n)%nat, w1') ∧
    (let! _ := get b.1 in
     let! y := get_labels b.2 in
     let! adv := attack_perturb a b.1 b.2 in
     let! out := call_model_no_grad adv in
     let! n := count_correct out y in
     ret (correct + n)%nat) w2 = Ok ((correct + n)%nat, w2') ∧
    clean_state w0 w1' ∧ adversarial_state w0 w2'.
Proof.
  intros HG HC HR Hz [Hb Hu] [Hs1 Hs2].
  pose proof Hb as (xo & yv & Hx & Hy & Hlen). specialize (Hu xo Hx).
  pose proof Hs1 as (Ht1 & Hl1 & Hp1 & Hpg1 & Hm1 & Hg1).
  pose proof Hs2 as (Ht2 & Hl2 & Hp2 & Hm2 & Hg2).
  assert (tensors w1 !! b.1 = Some xo) as Hx1 by (by rewrite Ht1).
  assert (labels w1 !! b.2 = Some yv) as Hy1 by (by rewrite Hl1).
  assert (tensors w2 !! b.1 = Some xo) as Hx2 by auto.
  assert (labels w2 !! b.2 = Some yv) as Hy2 by (by rewrite Hl2).
  rewrite (bind_ok _ _ _ _ _ (get_run _ _ _ Hx1)).
  rewrite (bind_ok _ _ _ _ _ (get_labels_run _ _ _ Hy1)).
  rewrite (bind_ok _ _ _ _ _ (call_model_no_grad_run _ _ _ Hx1)).
  rewrite (bind_ok _ _ _ _ _ (get_run _ _ _ Hx2)).
  rewrite (bind_ok _ _ _ _ _ (get_labels_run _ _ _ Hy2)).
  destruct (attack_zero_budget_run a b.1 b.2 w2 xo yv HG Hz Hm2 Hu Hx2 Hy2)
    as (r & w3 & o & E & Hr & Hteq & Hold & Hl3 & Hp3 & Hm3 & Hg3).
  rewrite (bind_ok _ _ _ _ _ E).
  rewrite (bind_ok _ _ _ _ _ (call_model_no_grad_run _ _ _ Hr)).
  assert (mask_in_effect w1 = None) as Hmask1 by (unfold mask_in_effect; by rewrite Hm1).
  assert (mask_in_effect w3 = None) as Hmask3 by (unfold mask_in_effect; by rewrite Hm3).
  rewrite Hmask1, Hmask3, Hp3, Hp2, Hp1.
  match goal with
  | |- context [bind (count_correct ?out yv) _ ?W] =>
      destruct (count_correct_run (data xo) out yv W) as (n & En & Hn); [apply HC|done|]
  end.
  rewrite (bind_ok _ _ _ _ _ En).
  match goal with
  | |- context [bind (count_correct ?out yv) _ ?W] =>
      assert (count_correct out yv W = Ok (n, W)) as En'
  end.
  { erewrite count_correct_proper; [|apply HR; exact Hteq].
    unfold count_correct in En |- *.
    destruct (mapM argmax _); [|done]. destruct (count_equal _ _); [|done].
    injection En as ->. reflexivity. }
  rewrite (bind_ok _ _ _ _ _ En').
  eexists n, _, _. split; [reflexivity|]. split; [reflexivity|]. split.
  - repeat split; cbn; try done. unfold generator_after. by rewrite Hm1.
  - repeat split; cbn; try congruence; [auto|].
    unfold generator_after. rewrite Hm3. congruence.
Qed.

End ZeroBudget.

(** X22.  With an attack without budget ([FGSMAttack] with [ε = 0], [BIMAttack]
    with [α = 0] or [ε = 0]) on images with elements in [0, 1],
    [get_adversarial_accuracy] returns the number that [get_accuracy]
    returns. *)
Theorem zero_budget_accuracy (C : Classifier) (dl : dataloader) (a : attack) (w : world C) :
  grad_shaped C → scores_per_image C → scores_respect_eq C →
  zero_budget a →
  loads w dl → images_in_unit_range w dl → (0 < dataset_len dl)%nat →
  ∃ acc w1 w2,
    get_accuracy dl w = Returns (acc, w1) ∧
    get_adversarial_accuracy dl a w = Returns (acc, w2).
Proof.
  intros HG HC HR Hz [Hb Hlen] Hu Hpos.
  rewrite get_accuracy_unfold, get_adversarial_accuracy_unfold.
  set (w0 := set_model _ w).
  assert (clean_state w w0 ∧ adversarial_state w w0) as H0 by (by repeat split).
  assert (Forall (λ b, batch_in w b ∧
            ∀ xo, tensors w !! b.1 = Some xo → in_unit_range (data xo)) (batches dl))
    as HP by (by apply Forall_and).
  destruct (for_each_related (λ w1 w2, clean_state w w1 ∧ adversarial_state w w2)
              (λ b : loc * loc, batch_in w b ∧
                 ∀ xo, tensors w !! b.1 = Some xo → in_unit_range (data xo))
              (λ correct b,
                 let! _ := get b.1 in
                 let! y := get_labels b.2 in
                 let! out := call_model_no_grad b.1 in
                 let! n := count_correct out y in
                 ret (correct + n)%nat)
              (λ correct b,
                 let! _ := get b.1 in
                 let! y := get_labels b.2 in
                 let! adv := attack_perturb a b.1 b.2 in
                 let! out := call_model_no_grad adv in
                 let! n := count_correct out y in
                 ret (correct + n)%nat) (batches dl) HP)
    with (acc := 0%nat) (w1 := w0) (w2 := w0)
    as (n & w1 & w2 & E1 & E2 & _); [|exact H0|].
  { intros acc b w1 w2 Hbin Hs.
    destruct (zero_budget_batch_run a w acc b w1 w2 HG HC HR Hz Hbin Hs)
      as (n & w1' & w2' & ? & ? & ? & ?). by exists n, w1', w2'. }
  rewrite (py_bind_returns _ _ _ _ _ (lift_ok _ _ _ _ E1)).
  rewrite (py_bind_returns _ _ _ _ _ (lift_ok _ _ _ _ E2)).
  unfold true_div. destruct (Nat.eqb (dataset_len dl) 0) eqn:Ez.
  { apply Nat.eqb_eq in Ez. lia. }
  by eexists _, _, _.
Qed.

Lemma zero_budget_accuracy_witness :
  ∃ acc w1 w2,
    get_accuracy Examples.testloader (Examples.dataset 1 true) = Returns (acc, w1) ∧
    get_adversarial_accuracy Examples.testloader (BIM (BIMAttack.New 0.1 0 3))
      (Examples.dataset 1 true) = Returns (acc, w2).
Proof.
  apply (zero_budget_accuracy Toy.classifier Examples.testloader
           (BIM (BIMAttack.New 0.1 0 3)) (Examples.dataset 1 true)).
  - exact Toy_grad_shaped.
  - exact Toy_scores_per_image.
  - exact Toy_scores_respect_eq.
  - split; [unfold Qle; simpl; lia|left; reflexivity].
  - exact (Examples_loads true).
  - exact (Examples_images_in_unit_range true).
  - simpl. lia.
Defined.
